(** * workspace-launch-by-link: the synchronisation engine, embedded in Rocq

  The development follows the extension's source file: the [RetryQueue]
  class, the materializer ([cleanupOldSessions],
  [downloadAndMaterializeWorkspace], [writeFileFromBase64]) and the change
  capture engine ([beginWatchAndSync] with its handlers).

  Asynchronous code is modelled by its suspension points: everything an
  [async] function does between two [await]s is one atomic step, and the
  environment (the host editor, the network, the timers) chooses which
  suspended computation resumes next. *)

From Stdlib Require Import ZArith NArith Lia List String Ascii Bool.
From Stdlib Require Import Init.Byte Strings.Byte.
From stdpp Require Import base tactics option list sorting gmap strings.
Import ListNotations.

(** ** The retry queue ([class RetryQueue]) *)

Module RetryQueue.
Section Queue.
Context {Task : Type}.

(** The four [await]s of [run]: [await task()], [await this.clearError()],
    [await this.showError(..)] and [await new Promise(r => setTimeout(r, delay))].
    [showError] and [clearError] only touch the status bar item; they are
    taken not to throw, so each of them just resumes the loop. *)
Inductive Await : Type :=
| AwaitTask
| AwaitClearError
| AwaitShowError
| AwaitTimer.

(** One activation of [run], suspended at [pc], with its locals [task] and
    [delay] (milliseconds). *)
Record Loop : Type := mkLoop { pc : Await; task : Task; delay : Z }.

(** What an observer of the queue sees. *)
Inductive Event : Type :=
| EAttempt (t : Task)
| ESuccess (t : Task)
| EFailure (t : Task)
| EWait (t : Task) (ms : Z).

(** The fields [queue] and [running] of the class, the activations of [run]
    that are in flight, and the log of observations. *)
Record State : Type :=
  mkState { queue : list Task; running : bool; loops : list Loop; trace : list Event }.

Definition init : State := mkState [] false [] [].

(** [while (this.queue.length) { const task = this.queue.shift()!; let delay = 1000;
    for (;;) { try { await task(); ...]: run up to the first [await] of the
    iteration, or leave through [finally { this.running = false; }].
    [slot] is the activation that executes it ([None]: a new one). *)
Definition while_head (slot : option nat) (s : State) : State :=
  match queue s with
  | [] =>
      mkState [] false
        (match slot with Some i => delete i (loops s) | None => loops s end)
        (trace s)
  | t :: q =>
      let l := mkLoop AwaitTask t 1000 in
      mkState q (running s)
        (match slot with Some i => <[i:=l]> (loops s) | None => loops s ++ [l] end)
        (trace s ++ [EAttempt t])
  end.

(** [private async run()], up to its first suspension. *)
Definition run (s : State) : State :=
  if running s then s
  else while_head None (mkState (queue s) true (loops s) (trace s)).

(** [enqueue(task) { this.queue.push(task); this.run(); }] *)
Definition enqueue (t : Task) (s : State) : State :=
  run (mkState (queue s ++ [t]) (running s) (loops s) (trace s)).

(** [Math.min(delay * 2, 30000)] *)
Definition next_delay (d : Z) : Z := Z.min (d * 2) 30000.

(** The choices of the environment: a call of [enqueue], the promise of the
    running task settling, or any other awaited promise resolving.  [i] names
    the activation of [run] that resumes. *)
Inductive Action : Type :=
| Enqueue (t : Task)
| TaskResolves (i : nat)
| TaskRejects (i : nat)
| Continue (i : nat).

Definition set_loop (i : nat) (l : Loop) (e : list Event) (s : State) : State :=
  mkState (queue s) (running s) (<[i:=l]> (loops s)) (trace s ++ e).

(** One step.  An action that is not enabled leaves the state as it is. *)
Definition step (s : State) (a : Action) : State :=
  match a with
  | Enqueue t => enqueue t s
  | TaskResolves i =>
      match loops s !! i with
      | Some (mkLoop AwaitTask t d) =>
          set_loop i (mkLoop AwaitClearError t d) [ESuccess t] s
      | _ => s
      end
  | TaskRejects i =>
      match loops s !! i with
      | Some (mkLoop AwaitTask t d) =>
          set_loop i (mkLoop AwaitShowError t d) [EFailure t] s
      | _ => s
      end
  | Continue i =>
      match loops s !! i with
      | Some (mkLoop AwaitClearError t d) => while_head (Some i) s
      | Some (mkLoop AwaitShowError t d) =>
          set_loop i (mkLoop AwaitTimer t d) [EWait t d] s
      | Some (mkLoop AwaitTimer t d) =>
          set_loop i (mkLoop AwaitTask t (next_delay d)) [EAttempt t] s
      | _ => s
      end
  end.

Definition exec (acts : list Action) (s : State) : State := fold_left step acts s.

(** The tasks handed to [enqueue], in call order. *)
Definition enqueued (acts : list Action) : list Task :=
  omap (fun a => match a with Enqueue t => Some t | _ => None end) acts.

(** The tasks whose promise resolved, in order of resolution. *)
Definition completed (tr : list Event) : list Task :=
  omap (fun e => match e with ESuccess t => Some t | _ => None end) tr.

(** The waits since the last success, i.e. the failures of the task now
    retried that have been waited for. *)
Definition retries (tr : list Event) : nat :=
  fold_left (fun n e => match e with
                        | ESuccess _ => 0
                        | EWait _ _ => S n
                        | _ => n
                        end) tr 0.

(** The backoff of the specification, in milliseconds (one time unit is
    1000 ms): [min(1 * 2^i, 30)] time units. *)
Definition backoff (i : nat) : Z := (1000 * Z.min (2 ^ Z.of_nat i) 30)%Z.

(** The task a suspended activation still owes a success. *)
Definition in_flight (l : Loop) : list Task :=
  match pc l with AwaitClearError => [] | _ => [task l] end.

Definition owed (s : State) : list Task := flat_map in_flight (loops s).

(** The wait the loop has in its [delay] local, stated from the log. *)
Definition delay_ok (l : Loop) (tr : list Event) : Prop :=
  match pc l with
  | AwaitTask | AwaitShowError => delay l = backoff (retries tr)
  | AwaitTimer => exists k, retries tr = S k /\ delay l = backoff k
  | AwaitClearError => retries tr = 0
  end.

(** The reachable states: idle with nothing queued, or one activation of
    [run] and the flag set.  [enq] is what has been enqueued so far. *)
Inductive Inv (enq : list Task) : State -> Prop :=
| Inv_idle tr :
    completed tr = enq ->
    retries tr = 0 ->
    Inv enq (mkState [] false [] tr)
| Inv_busy q l tr :
    completed tr ++ in_flight l ++ q = enq ->
    delay_ok l tr ->
    Inv enq (mkState q true [l] tr).

Definition event_task (e : Event) : Task :=
  match e with EAttempt t | ESuccess t | EFailure t | EWait t _ => t end.

(** An event is in order when it concerns the oldest task that has not yet
    succeeded, and a wait is in order when it is the backoff of its rank. *)
Definition event_ok (enq : list Task) (pre : list Event) (e : Event) : Prop :=
  enq !! length (completed pre) = Some (event_task e) /\
  match e with EWait _ d => d = backoff (retries pre) | _ => True end.

Definition trace_ok (enq : list Task) (tr : list Event) : Prop :=
  forall pre e post, tr = pre ++ e :: post -> event_ok enq pre e.

Lemma backoff_0 : backoff 0 = 1000%Z.
Proof. reflexivity. Qed.

Lemma next_delay_backoff (k : nat) : next_delay (backoff k) = backoff (S k).
Proof.
  unfold next_delay, backoff.
  rewrite Nat2Z.inj_succ, Z.pow_succ_r by lia. lia.
Qed.

Lemma backoff_le (k : nat) : (backoff k <= 30000)%Z.
Proof. unfold backoff. lia. Qed.

Lemma completed_snoc (tr : list Event) (e : Event) :
  completed (tr ++ [e]) =
  completed tr ++ match e with ESuccess t => [t] | _ => [] end.
Proof.
  unfold completed. rewrite omap_app. f_equal. destruct e; reflexivity.
Qed.

Lemma retries_snoc (tr : list Event) (e : Event) :
  retries (tr ++ [e]) =
  match e with ESuccess _ => 0 | EWait _ _ => S (retries tr) | _ => retries tr end.
Proof. unfold retries. rewrite fold_left_app. reflexivity. Qed.

Lemma enqueued_snoc (acts : list Action) (a : Action) :
  enqueued (acts ++ [a]) =
  enqueued acts ++ match a with Enqueue t => [t] | _ => [] end.
Proof.
  unfold enqueued. rewrite omap_app. f_equal. destruct a; reflexivity.
Qed.

Lemma exec_snoc (acts : list Action) (a : Action) (s : State) :
  exec (acts ++ [a]) s = step (exec acts s) a.
Proof. unfold exec. rewrite fold_left_app. reflexivity. Qed.

Local Ltac busy := apply Inv_busy; simpl.

(** Every step keeps the invariant. *)
Lemma step_Inv (enq : list Task) (s : State) (a : Action) :
  Inv enq s ->
  Inv (enq ++ match a with Enqueue t => [t] | _ => [] end) (step s a).
Proof.
  intros [tr Hc Hr | q l tr Hc Hd].
  - destruct a as [t | i | i | i]; simpl; rewrite ?app_nil_r.
    + unfold enqueue, run, while_head; simpl. busy.
      * unfold in_flight; simpl. rewrite completed_snoc, !app_nil_r. by rewrite Hc.
      * unfold delay_ok; simpl. rewrite retries_snoc. by rewrite Hr.
    + by apply Inv_idle.
    + by apply Inv_idle.
    + by apply Inv_idle.
  - destruct l as [p t d].
    destruct a as [t' | i | i | i]; simpl; rewrite ?app_nil_r.
    + unfold enqueue, run; simpl. busy; [| done].
      rewrite <- Hc. by rewrite !app_assoc.
    + destruct i as [| i]; simpl; [| by apply Inv_busy].
      destruct p; try by apply Inv_busy.
      unfold set_loop; simpl. busy.
      * rewrite completed_snoc. rewrite <- Hc. unfold in_flight; simpl.
        by rewrite <- !app_assoc.
      * unfold delay_ok; simpl. by rewrite retries_snoc.
    + destruct i as [| i]; simpl; [| by apply Inv_busy].
      destruct p; try by apply Inv_busy.
      unfold set_loop; simpl. busy.
      * rewrite completed_snoc, app_nil_r. exact Hc.
      * unfold delay_ok in *; simpl in *. by rewrite retries_snoc.
    + destruct i as [| i]; simpl; [| by apply Inv_busy].
      unfold delay_ok in Hd; simpl in Hd.
      destruct p.
      * by apply Inv_busy.
      * unfold while_head; simpl. unfold in_flight in Hc; simpl in Hc.
        destruct q as [| t' q]; simpl.
        -- apply Inv_idle; [| done]. by rewrite app_nil_r in Hc.
        -- busy.
           ++ rewrite completed_snoc, app_nil_r. exact Hc.
           ++ unfold delay_ok; simpl. rewrite retries_snoc. by rewrite Hd.
      * unfold set_loop; simpl. busy.
        -- rewrite completed_snoc, app_nil_r. exact Hc.
        -- unfold delay_ok; simpl. rewrite retries_snoc. eauto.
      * unfold set_loop; simpl. busy.
        -- rewrite completed_snoc, app_nil_r. exact Hc.
        -- unfold delay_ok; simpl. rewrite retries_snoc.
           destruct Hd as (k & -> & ->). apply next_delay_backoff.
Qed.

Lemma exec_Inv (acts : list Action) : Inv (enqueued acts) (exec acts init).
Proof.
  induction acts as [| a acts IH] using rev_ind.
  - by apply Inv_idle.
  - rewrite exec_snoc, enqueued_snoc. by apply step_Inv.
Qed.

Lemma event_ok_mono (enq more : list Task) (pre : list Event) (e : Event) :
  event_ok enq pre e -> event_ok (enq ++ more) pre e.
Proof.
  intros [Hl Hw]. split; [| exact Hw]. by apply lookup_app_l_Some.
Qed.

Lemma snoc_split {A : Type} (pre post tr : list A) (e e0 : A) :
  pre ++ e :: post = tr ++ [e0] ->
  (post = [] /\ pre = tr /\ e = e0) \/
  (exists post', post = post' ++ [e0] /\ tr = pre ++ e :: post').
Proof.
  intros H. destruct post as [| x post _] using rev_ind.
  - left. apply app_inj_tail in H. by destruct H.
  - right. exists post.
    change (pre ++ e :: post ++ [x]) with (pre ++ (e :: post) ++ [x]) in H.
    rewrite app_assoc in H. apply app_inj_tail in H.
    destruct H as [-> ->]. done.
Qed.

(** A step logs at most one event, and that event is in order. *)
Lemma step_trace (enq : list Task) (s : State) (a : Action) :
  Inv enq s ->
  trace (step s a) = trace s \/
  exists e, trace (step s a) = trace s ++ [e] /\
            event_ok (enq ++ match a with Enqueue t => [t] | _ => [] end) (trace s) e.
Proof.
  intros [tr Hc Hr | q l tr Hc Hd].
  - destruct a as [t | i | i | i]; simpl; auto.
    right. exists (EAttempt t). split; [done |]. split; [| done].
    simpl. rewrite Hc. by rewrite lookup_app_r, Nat.sub_diag.
  - destruct l as [p t d]. unfold in_flight in Hc; simpl in Hc.
    unfold delay_ok in Hd; simpl in Hd.
    assert (Hhead : p <> AwaitClearError ->
                    enq !! length (completed tr) = Some t).
    { intros Hp. rewrite <- Hc.
      rewrite lookup_app_r, Nat.sub_diag by done. by destruct p. }
    destruct a as [t' | i | i | i]; simpl; auto.
    + destruct i as [| i]; simpl; auto.
      destruct p; auto. right. exists (ESuccess t).
      rewrite app_nil_r. repeat split; auto.
    + destruct i as [| i]; simpl; auto.
      destruct p; auto. right. exists (EFailure t).
      rewrite app_nil_r. repeat split; auto.
    + destruct i as [| i]; simpl; auto.
      rewrite app_nil_r.
      destruct p; auto.
      * unfold while_head; simpl. destruct q as [| t' q]; simpl; auto.
        right. exists (EAttempt t'). repeat split. simpl.
        rewrite <- Hc. by rewrite lookup_app_r, Nat.sub_diag.
      * right. exists (EWait t d). repeat split; auto.
      * right. exists (EAttempt t). repeat split; auto.
Qed.

Lemma exec_trace_ok (acts : list Action) :
  trace_ok (enqueued acts) (trace (exec acts init)).
Proof.
  induction acts as [| a acts IH] using rev_ind.
  - intros pre e post H. by destruct pre.
  - rewrite exec_snoc, enqueued_snoc.
    destruct (step_trace (enqueued acts) (exec acts init) a (exec_Inv acts))
      as [-> | (e0 & -> & Hok)].
    + intros pre e post H. apply event_ok_mono. by eapply IH.
    + intros pre e post H. symmetry in H. apply snoc_split in H.
      destruct H as [(_ & -> & ->) | (post' & _ & H)]; [done |].
      apply event_ok_mono. by eapply IH.
Qed.

(** At any moment the tasks that have succeeded are the first of the
    enqueued ones. *)
Lemma completed_prefix (enq : list Task) (tr : list Event) :
  trace_ok enq tr ->
  forall pre post, tr = pre ++ post -> completed pre `prefix_of` enq.
Proof.
  intros Hok pre. induction pre as [| e pre IH] using rev_ind; intros post H.
  - by exists enq.
  - rewrite <- app_assoc in H. simpl in H.
    destruct (IH _ H) as [k Hk]. rewrite completed_snoc.
    destruct (Hok pre e post H) as [Hl _].
    destruct e as [t | t | t | t d]; try (rewrite app_nil_r; by exists k).
    simpl in Hl. rewrite Hk, lookup_app_r, Nat.sub_diag in Hl by done.
    destruct k as [| t' k]; [done |]. simpl in Hl. injection Hl as ->.
    exists k. by rewrite <- app_assoc.
Qed.

(** A task that fails: the rejection, [showError], then the timer. *)
Definition fail_round (i : nat) : list Action :=
  [TaskRejects i; Continue i; Continue i].

(** A task that fails [K] times and then succeeds; the loop moves on. *)
Definition fails_then_succeeds (K : nat) : list Action :=
  concat (replicate K (fail_round 0)) ++ [TaskResolves 0; Continue 0].

(** What the log shows of the [i]-th failure of [t]. *)
Definition failure_log (t : Task) (i : nat) : list Event :=
  [EFailure t; EWait t (backoff i); EAttempt t].

Lemma exec_app (a1 a2 : list Action) (s : State) :
  exec (a1 ++ a2) s = exec a2 (exec a1 s).
Proof. unfold exec. apply fold_left_app. Qed.

Lemma exec_fail_rounds (n k : nat) (q : list Task) (t : Task) (tr : list Event) :
  exec (concat (replicate n (fail_round 0)))
       (mkState q true [mkLoop AwaitTask t (backoff k)] tr) =
  mkState q true [mkLoop AwaitTask t (backoff (k + n))]
          (tr ++ concat (map (failure_log t) (seq k n))).
Proof.
  revert k tr. induction n as [| n IH]; intros k tr.
  - simpl. by rewrite Nat.add_0_r, app_nil_r.
  - change (replicate (S n) (fail_round 0))
      with (fail_round 0 :: replicate n (fail_round 0)).
    change (concat (fail_round 0 :: replicate n (fail_round 0)))
      with (fail_round 0 ++ concat (replicate n (fail_round 0))).
    rewrite exec_app.
    replace (exec (fail_round 0) (mkState q true [mkLoop AwaitTask t (backoff k)] tr))
      with (mkState q true [mkLoop AwaitTask t (backoff (S k))]
                    (tr ++ failure_log t k)).
    + rewrite IH. f_equal.
      * do 3 f_equal. lia.
      * simpl. by rewrite <- app_assoc.
    + unfold fail_round, exec, set_loop; simpl.
      rewrite next_delay_backoff. unfold set_loop, failure_log; simpl.
      by rewrite <- !app_assoc.
Qed.

(** The run of a task that fails [K] times before it succeeds, with a
    second task [t'] waiting behind it. *)
Lemma fails_then_succeeds_run (K : nat) (t t' : Task) :
  exec (Enqueue t :: Enqueue t' :: fails_then_succeeds K) init =
  mkState [] true [mkLoop AwaitTask t' 1000]
    ([EAttempt t] ++ concat (map (failure_log t) (seq 0 K)) ++ [ESuccess t; EAttempt t']).
Proof.
  unfold fails_then_succeeds.
  change (exec (Enqueue t :: Enqueue t' :: ?a) init)
    with (exec a (mkState [t'] true [mkLoop AwaitTask t (backoff 0)] [EAttempt t])).
  rewrite exec_app, exec_fail_rounds. simpl.
  unfold set_loop, while_head; simpl.
  by rewrite <- !app_assoc.
Qed.

(** The promises that finish the work in hand when every attempt from now
    on succeeds: the loop first gets back to [await task()]. *)
Definition settle (l : Loop) : list Action :=
  match pc l with
  | AwaitTask => [TaskResolves 0; Continue 0]
  | AwaitClearError => [Continue 0]
  | AwaitShowError => [Continue 0; Continue 0; TaskResolves 0; Continue 0]
  | AwaitTimer => [Continue 0; TaskResolves 0; Continue 0]
  end.

Definition finish (s : State) : list Action :=
  flat_map settle (loops s)
    ++ concat (map (fun _ => [TaskResolves 0; Continue 0]) (queue s)).

Lemma exec_successes (q : list Task) (t : Task) (d : Z) (tr : list Event) :
  exists tr',
    exec (concat (map (fun _ => [TaskResolves 0; Continue 0]) q))
         (while_head (Some 0) (mkState q true [mkLoop AwaitClearError t d] tr))
    = mkState [] false [] tr' /\
    completed tr' = completed tr ++ q.
Proof.
  revert t d tr. induction q as [| t' q IH]; intros t d tr.
  - exists tr. split; [done |]. by rewrite app_nil_r.
  - destruct (IH t' 1000%Z ((tr ++ [EAttempt t']) ++ [ESuccess t'])) as (tr' & He & Hc).
    exists tr'. split.
    + rewrite <- He. reflexivity.
    + rewrite Hc. rewrite !completed_snoc, app_nil_r.
      by rewrite <- app_assoc.
Qed.

(** From any reachable state the queue can drain: if every attempt from now
    on succeeds, the queue ends idle with every enqueued task done. *)
Lemma exec_finish (acts : list Action) :
  exists tr,
    exec (acts ++ finish (exec acts init)) init = mkState [] false [] tr /\
    completed tr = enqueued acts.
Proof.
  rewrite exec_app.
  destruct (exec_Inv acts) as [tr Hc Hr | q [p t d] tr Hc Hd].
  - exists tr. by split.
  - unfold finish. cbn [loops queue flat_map]. rewrite app_nil_r, exec_app.
    unfold in_flight in Hc; simpl in Hc.
    destruct p; cbn [settle pc].
    + destruct (exec_successes q t d (tr ++ [ESuccess t])) as (tr' & He & Hc').
      exists tr'. split; [exact He |].
      rewrite Hc', completed_snoc, <- app_assoc. exact Hc.
    + destruct (exec_successes q t d tr) as (tr' & He & Hc').
      exists tr'. split; [exact He |]. by rewrite Hc'.
    + destruct (exec_successes q t (next_delay d)
                  (((tr ++ [EWait t d]) ++ [EAttempt t]) ++ [ESuccess t]))
        as (tr' & He & Hc').
      exists tr'. split; [exact He |].
      rewrite Hc', !completed_snoc, !app_nil_r, <- app_assoc. exact Hc.
    + destruct (exec_successes q t (next_delay d)
                  ((tr ++ [EAttempt t]) ++ [ESuccess t]))
        as (tr' & He & Hc').
      exists tr'. split; [exact He |].
      rewrite Hc', !completed_snoc, !app_nil_r, <- app_assoc. exact Hc.
Qed.

(** Done, under way and waiting together are what was enqueued. *)
Lemma exec_accounted (acts : list Action) :
  completed (trace (exec acts init)) ++ owed (exec acts init) ++ queue (exec acts init)
    = enqueued acts.
Proof.
  destruct (exec_Inv acts) as [tr Hc Hr | q l tr Hc Hd]; unfold owed; simpl.
  - by rewrite app_nil_r.
  - by rewrite app_nil_r.
Qed.

(** C1.  Tasks are attempted and completed in exactly their enqueue order.
    After any interleaving of [enqueue] calls and settled promises, the tasks
    that succeeded, then the task being (re)tried, then the tasks still queued
    are together the enqueued tasks in call order, so none is dropped, skipped
    or reordered; and every attempt, failure, wait and success in the log
    concerns the oldest enqueued task that has not succeeded yet, so no later
    task runs while the head is retrying.  Nothing is left behind either: once
    the attempts succeed the queue ends idle with every enqueued task done. *)
Theorem fifo_order (acts : list Action) :
  completed (trace (exec acts init)) ++ owed (exec acts init) ++ queue (exec acts init)
    = enqueued acts /\
  (forall pre e post,
      trace (exec acts init) = pre ++ e :: post ->
      enqueued acts !! length (completed pre) = Some (event_task e)) /\
  (exists tr,
      exec (acts ++ finish (exec acts init)) init = mkState [] false [] tr /\
      completed tr = enqueued acts).
Proof.
  split; [| split].
  - apply exec_accounted.
  - intros pre e post H. by apply (exec_trace_ok acts pre e post).
  - apply exec_finish.
Qed.

(** C2.  The wait before attempt [i+1] of a task is [min(1 * 2^i, 30)] time
    units of 1000 ms, never more than 30 units, and the next task starts again
    from the floor.  In any run, a logged wait is the backoff of the number of
    waits since the last success; the [delay] local of the loop agrees with it
    when an attempt is under way; and a task that fails [K] times and then
    succeeds logs the waits [backoff 0 .. backoff (K-1)], one success, and
    leaves the loop attempting the next task with the delay at 1000 ms. *)
Theorem backoff_schedule (acts : list Action) (K : nat) (t t' : Task) :
  (forall pre u d post,
      trace (exec acts init) = pre ++ EWait u d :: post ->
      d = backoff (retries pre) /\ (d <= 30000)%Z) /\
  (forall l,
      l ∈ loops (exec acts init) -> pc l = AwaitTask ->
      delay l = backoff (retries (trace (exec acts init)))) /\
  exec (Enqueue t :: Enqueue t' :: fails_then_succeeds K) init =
    mkState [] true [mkLoop AwaitTask t' 1000]
      ([EAttempt t] ++ concat (map (failure_log t) (seq 0 K))
                    ++ [ESuccess t; EAttempt t']).
Proof.
  split; [| split].
  - intros pre u d post H.
    destruct (exec_trace_ok acts pre _ post H) as [_ ->].
    split; [done | apply backoff_le].
  - intros l Hl Hp.
    destruct (exec_Inv acts) as [tr Hc Hr | q l' tr Hc Hd]; simpl in *.
    + by apply elem_of_nil in Hl.
    + apply list_elem_of_singleton in Hl. subst l'.
      unfold delay_ok in Hd. by rewrite Hp in Hd.
  - apply fails_then_succeeds_run.
Qed.

(** C3.  At most one drain loop is in flight.  In every reachable state there
    is at most one activation of [run], and there is one exactly when the
    [running] flag is set; an [enqueue] while the flag is set only appends the
    task; an [enqueue] on the idle queue has set the flag when the new loop
    reaches its first suspension; the idle queue is empty, and a queue with
    nothing queued or under way is idle or is the loop about to find it so;
    and a step clears the flag exactly when the loop, back from a success,
    finds the queue empty. *)
Theorem single_drain_loop (acts : list Action) (t : Task) :
  length (loops (exec acts init)) <= 1 /\
  (running (exec acts init) = true <-> length (loops (exec acts init)) = 1) /\
  (running (exec acts init) = true ->
     enqueue t (exec acts init) =
     mkState (queue (exec acts init) ++ [t]) true
             (loops (exec acts init)) (trace (exec acts init))) /\
  (running (exec acts init) = false ->
     running (enqueue t (exec acts init)) = true /\
     loops (enqueue t (exec acts init)) = [mkLoop AwaitTask t 1000]) /\
  (running (exec acts init) = false ->
     queue (exec acts init) = [] /\ owed (exec acts init) = []) /\
  (owed (exec acts init) ++ queue (exec acts init) = [] ->
     running (exec acts init) = false \/
     exists t d, loops (exec acts init) = [mkLoop AwaitClearError t d]) /\
  (forall a,
      running (exec acts init) = true ->
      (running (step (exec acts init) a) = false <->
       exists i u d, a = Continue i /\
                     loops (exec acts init) !! i = Some (mkLoop AwaitClearError u d) /\
                     queue (exec acts init) = [])).
Proof.
  destruct (exec_Inv acts) as [tr Hc Hr | q l tr Hc Hd]; unfold owed; simpl.
  - repeat split; try done; try lia; by left.
  - repeat split; try done; try lia.
    + intros H. right. destruct l as [[] u d]; try done. by exists u, d.
    + intros Hs. destruct l as [p u d].
      destruct a as [u' | i | i | i]; simpl in Hs; try done.
      * destruct i as [| i]; simpl in Hs; [| done]. by destruct p.
      * destruct i as [| i]; simpl in Hs; [| done]. by destruct p.
      * destruct i as [| i]; simpl in Hs; [| done].
        destruct p; try done.
        unfold while_head in Hs; simpl in Hs.
        destruct q; [| done]. by exists 0, u, d.
    + intros (i & u & d & -> & Hl & ->). simpl.
      destruct i as [| i]; simpl in Hl; [| done].
      injection Hl as ->. done.
Qed.

End Queue.

(** A run on three tasks: the first fails once, is retried and succeeds, the
    second is then attempted while the third waits. *)
Definition demo : list (Action (Task := string)) :=
  [Enqueue "a"; Enqueue "b"; TaskRejects 0; Continue 0; Enqueue "c";
   Continue 0; TaskResolves 0; Continue 0]%string.

Lemma fifo_order_witness :
  enqueued demo !! 1 = Some "b"%string.
Proof.
  exact (proj1 (proj2 (fifo_order demo))
           [EAttempt "a"; EFailure "a"; EWait "a" 1000; EAttempt "a"; ESuccess "a"]%string
           (EAttempt "b"%string) [] eq_refl).
Defined.

Lemma backoff_schedule_witness :
  (1000 = backoff 0 /\ 1000 <= 30000)%Z.
Proof.
  exact (proj1 (backoff_schedule demo 0 "a" "b")%string
           [EAttempt "a"; EFailure "a"]%string "a"%string 1000%Z
           [EAttempt "a"; ESuccess "a"; EAttempt "b"]%string eq_refl).
Defined.

Lemma single_drain_loop_witness :
  enqueue "d"%string (exec demo init) =
  mkState (queue (exec demo init) ++ ["d"%string]) true
          (loops (exec demo init)) (trace (exec demo init)).
Proof.
  exact (proj1 (proj2 (proj2 (single_drain_loop demo "d"%string))) eq_refl).
Defined.

End RetryQueue.

(** ** Buffers, base64 and UTF-8 ([Buffer.from], [Buffer.prototype.toString]) *)

Module Encoding.
Local Open Scope N_scope.

(** A [Buffer] is a list of bytes; [byte_of] stores a number below 256. *)
Definition byte_of (n : N) : byte := default Byte.x00 (Byte.of_N n).

Definition in_range (lo hi n : N) : bool := (lo <=? n) && (n <=? hi).

Definition b64_alphabet : list ascii :=
  list_ascii_of_string
    "ABCDEFGHIJKLMNOPQRSTUVWXYZabcdefghijklmnopqrstuvwxyz0123456789+/".

Definition b64_char (v : N) : ascii := nth (N.to_nat v) b64_alphabet "="%char.

(** [buf.toString('base64')]: three bytes give four characters, the last
    group is padded with [=]. *)
Fixpoint toString_base64 (bs : list byte) : string :=
  match bs with
  | [] => EmptyString
  | [a] =>
      let x := Byte.to_N a in
      String (b64_char (x / 4)) (String (b64_char (x mod 4 * 16)) "==")
  | [a; b] =>
      let x := Byte.to_N a in
      let y := Byte.to_N b in
      String (b64_char (x / 4))
        (String (b64_char (x mod 4 * 16 + y / 16))
           (String (b64_char (y mod 16 * 4)) "="))
  | a :: b :: c :: rest =>
      let x := Byte.to_N a in
      let y := Byte.to_N b in
      let z := Byte.to_N c in
      String (b64_char (x / 4))
        (String (b64_char (x mod 4 * 16 + y / 16))
           (String (b64_char (y mod 16 * 4 + z / 64))
              (String (b64_char (z mod 64)) (toString_base64 rest))))
  end.

(** The value of a base64 character; Node also reads the URL-safe [-] and [_]. *)
Definition unbase64 (c : ascii) : option N :=
  let n := N_of_ascii c in
  if in_range 65 90 n then Some (n - 65)
  else if in_range 97 122 n then Some (n - 71)
  else if in_range 48 57 n then Some (n + 4)
  else if (n =? 43) || (n =? 45) then Some 62
  else if (n =? 47) || (n =? 95) then Some 63
  else None.

(** Node's decoder skips the characters that are not base64 and stops at the
    first [=]. *)
Fixpoint sextets (s : string) : list N :=
  match s with
  | EmptyString => []
  | String c s' =>
      match unbase64 c with
      | Some v => v :: sextets s'
      | None => if Ascii.eqb c "="%char then [] else sextets s'
      end
  end.

Fixpoint bytes_of_sextets (l : list N) : list byte :=
  match l with
  | a :: b :: c :: d :: rest =>
      byte_of (a * 4 + b / 16) :: byte_of (b mod 16 * 16 + c / 4)
        :: byte_of (c mod 4 * 64 + d) :: bytes_of_sextets rest
  | [a; b; c] => [byte_of (a * 4 + b / 16); byte_of (b mod 16 * 16 + c / 4)]
  | [a; b] => [byte_of (a * 4 + b / 16)]
  | _ => []
  end.

(** [Buffer.from(s, 'base64')] *)
Definition from_base64 (s : string) : list byte := bytes_of_sextets (sextets s).

Ltac dlia := zify; Z.to_euclidean_division_equations; lia.

Lemma byte_of_to_N (b : byte) : byte_of (Byte.to_N b) = b.
Proof. unfold byte_of. by rewrite Byte.of_to_N. Qed.

Lemma to_N_byte_of (n : N) : n < 256 -> Byte.to_N (byte_of n) = n.
Proof.
  intros H. unfold byte_of.
  destruct (Byte.of_N n) as [b |] eqn:E; simpl.
  - by apply Byte.to_of_N.
  - apply Byte.of_N_None_iff in E. lia.
Qed.

Lemma unbase64_char (v : N) : v < 64 -> unbase64 (b64_char v) = Some v.
Proof.
  intros H.
  assert (Hall : forallb (fun k => bool_decide
            (unbase64 (b64_char (N.of_nat k)) = Some (N.of_nat k))) (seq 0 64) = true)
    by (vm_compute; reflexivity).
  rewrite forallb_forall in Hall.
  specialize (Hall (N.to_nat v)). rewrite N2Nat.id in Hall.
  eapply bool_decide_eq_true, Hall, in_seq. lia.
Qed.

Lemma sextets_char (v : N) (s : string) :
  v < 64 -> sextets (String (b64_char v) s) = v :: sextets s.
Proof. intros H. simpl. by rewrite unbase64_char. Qed.

Example toString_base64_hi : toString_base64 ["h"; "i"]%byte = "aGk="%string.
Proof. reflexivity. Qed.

Example from_base64_hi : from_base64 "aGk=" = ["h"; "i"]%byte.
Proof. reflexivity. Qed.

Example from_base64_empty : from_base64 "" = [].
Proof. reflexivity. Qed.

(** The test vectors of RFC 4648, and input that Node tolerates: a blank
    inside, padding left out. *)
Example toString_base64_rfc :
  toString_base64 ["f"]%byte = "Zg=="%string /\
  toString_base64 ["f"; "o"]%byte = "Zm8="%string /\
  toString_base64 ["f"; "o"; "o"; "b"; "a"; "r"]%byte = "Zm9vYmFy"%string.
Proof. repeat split. Qed.

Example from_base64_lenient :
  from_base64 "Zm9v YmE=" = ["f"; "o"; "o"; "b"; "a"]%byte /\
  from_base64 "Zm9vYg" = ["f"; "o"; "o"; "b"]%byte.
Proof. split; reflexivity. Qed.

Lemma list_ind3 {A : Type} (P : list A -> Prop) :
  P [] -> (forall a, P [a]) -> (forall a b, P [a; b]) ->
  (forall a b c l, P l -> P (a :: b :: c :: l)) ->
  forall l, P l.
Proof.
  intros H0 H1 H2 H3.
  fix IH 1.
  intros [| a [| b [| c l]]];
    [exact H0 | exact (H1 a) | exact (H2 a b) | exact (H3 a b c l (IH l))].
Qed.

(** Decoding what [toString('base64')] wrote gives the bytes back. *)
Lemma from_base64_toString (bs : list byte) :
  from_base64 (toString_base64 bs) = bs.
Proof.
  unfold from_base64.
  induction bs as [| a | a b | a b c l IH] using list_ind3.
  - reflexivity.
  - cbn [toString_base64].
    pose proof (Byte.to_N_bounded a).
    rewrite !sextets_char by dlia. simpl.
    f_equal. rewrite <- (byte_of_to_N a) at 3. f_equal. dlia.
  - cbn [toString_base64].
    pose proof (Byte.to_N_bounded a). pose proof (Byte.to_N_bounded b).
    rewrite !sextets_char by dlia. simpl.
    rewrite <- (byte_of_to_N a) at 4. rewrite <- (byte_of_to_N b) at 4.
    repeat f_equal; dlia.
  - cbn [toString_base64].
    pose proof (Byte.to_N_bounded a). pose proof (Byte.to_N_bounded b).
    pose proof (Byte.to_N_bounded c).
    rewrite !sextets_char by dlia. cbn [bytes_of_sextets]. rewrite IH.
    rewrite <- (byte_of_to_N a) at 4. rewrite <- (byte_of_to_N b) at 5.
    rewrite <- (byte_of_to_N c) at 4.
    repeat f_equal; dlia.
Qed.

(** A JS string is a sequence of UTF-16 code units.  A scalar value is a
    code point that is not a surrogate. *)
Definition is_scalar (c : N) : Prop := c < 0xD800 \/ (0xE000 <= c /\ c <= 0x10FFFF).

(** The UTF-8 bytes of one scalar value. *)
Definition utf8_encode1 (c : N) : list byte :=
  if c <? 0x80 then [byte_of c]
  else if c <? 0x800 then [byte_of (0xC0 + c / 64); byte_of (0x80 + c mod 64)]
  else if c <? 0x10000 then
    [byte_of (0xE0 + c / 4096); byte_of (0x80 + c / 64 mod 64);
     byte_of (0x80 + c mod 64)]
  else
    [byte_of (0xF0 + c / 262144); byte_of (0x80 + c / 4096 mod 64);
     byte_of (0x80 + c / 64 mod 64); byte_of (0x80 + c mod 64)].

(** [Buffer.from(str)] (the encoding defaults to UTF-8): a surrogate pair is
    one code point, a lone surrogate is written as U+FFFD. *)
Fixpoint from_utf8 (str : list N) : list byte :=
  match str with
  | [] => []
  | u :: rest =>
      if in_range 0xD800 0xDBFF u then
        match rest with
        | v :: rest' =>
            if in_range 0xDC00 0xDFFF v then
              utf8_encode1 (0x10000 + (u - 0xD800) * 1024 + (v - 0xDC00))
                ++ from_utf8 rest'
            else utf8_encode1 0xFFFD ++ from_utf8 rest
        | [] => utf8_encode1 0xFFFD
        end
      else if in_range 0xDC00 0xDFFF u then utf8_encode1 0xFFFD ++ from_utf8 rest
      else utf8_encode1 u ++ from_utf8 rest
  end.

(** The decoder's state inside a multi-byte sequence: the bytes still needed,
    the code point so far and the range allowed for the next byte. *)
Record Pending : Type :=
  mkPending { bytes_needed : nat; code_point : N; lower : N; upper : N }.

Inductive Lead : Type :=
| Emit (c : N)
| Need (p : Pending)
| Bad.

(** The first byte of a sequence ([b mod 32] is [b & 0x1F], and so on). *)
Definition lead (b : N) : Lead :=
  if b <? 0x80 then Emit b
  else if in_range 0xC2 0xDF b then Need (mkPending 1 (b mod 32) 0x80 0xBF)
  else if in_range 0xE0 0xEF b then
    Need (mkPending 2 (b mod 16) (if b =? 0xE0 then 0xA0 else 0x80)
                                 (if b =? 0xED then 0x9F else 0xBF))
  else if in_range 0xF0 0xF4 b then
    Need (mkPending 3 (b mod 8) (if b =? 0xF0 then 0x90 else 0x80)
                                (if b =? 0xF4 then 0x8F else 0xBF))
  else Bad.

(** UTF-8 decoding with replacement: every maximal ill-formed part becomes
    one U+FFFD, and the byte that broke a sequence is read again as a first
    byte. *)
Fixpoint utf8_decode (st : option Pending) (bs : list byte) : list N :=
  match bs with
  | [] => match st with Some _ => [0xFFFD] | None => [] end
  | b :: rest =>
      let n := Byte.to_N b in
      let start :=
        match lead n with
        | Emit c => c :: utf8_decode None rest
        | Need p => utf8_decode (Some p) rest
        | Bad => 0xFFFD :: utf8_decode None rest
        end in
      match st with
      | None => start
      | Some p =>
          if in_range (lower p) (upper p) n then
            let cp := code_point p * 64 + n mod 64 in
            match bytes_needed p with
            | S (S k) => utf8_decode (Some (mkPending (S k) cp 0x80 0xBF)) rest
            | _ => cp :: utf8_decode None rest
            end
          else 0xFFFD :: start
      end
  end.

(** The UTF-16 code units of a code point. *)
Definition utf16_of (c : N) : list N :=
  if c <? 0x10000 then [c]
  else [0xD800 + (c - 0x10000) / 1024; 0xDC00 + (c - 0x10000) mod 1024].

(** [buf.toString('utf8')] *)
Definition toString_utf8 (bs : list byte) : list N :=
  flat_map utf16_of (utf8_decode None bs).

(** Whatever bytes complete the sequence, the code point is a scalar value. *)
Fixpoint completes (k : nat) (cp lo hi : N) : Prop :=
  match k with
  | 0%nat => False
  | 1%nat => forall n, lo <= n <= hi -> is_scalar (cp * 64 + n mod 64)
  | S k' => forall n, lo <= n <= hi -> completes k' (cp * 64 + n mod 64) 0x80 0xBF
  end.

Definition pending_ok (st : option Pending) : Prop :=
  match st with
  | None => True
  | Some p => completes (bytes_needed p) (code_point p) (lower p) (upper p)
  end.


Ltac cmp :=
  repeat match goal with
    | |- context [N.ltb ?a ?b] => destruct (N.ltb_spec a b)
    | |- context [N.leb ?a ?b] => destruct (N.leb_spec a b)
    | |- context [N.eqb ?a ?b] => destruct (N.eqb_spec a b)
    end; simpl.

Lemma in_range_true (lo hi n : N) : lo <= n <= hi -> in_range lo hi n = true.
Proof. unfold in_range. intros. cmp; lia. Qed.

Lemma in_range_false (lo hi n : N) : n < lo \/ hi < n -> in_range lo hi n = false.
Proof. unfold in_range. intros. cmp; lia. Qed.

Lemma in_range_spec (lo hi n : N) :
  BoolSpec (lo <= n <= hi) (n < lo \/ hi < n) (in_range lo hi n).
Proof. unfold in_range. cmp; constructor; lia. Qed.

Lemma lead_ascii (c : N) : c < 0x80 -> lead c = Emit c.
Proof. intros H. unfold lead. by cmp; try lia. Qed.

Lemma lead_two (b : N) :
  0xC2 <= b <= 0xDF -> lead b = Need (mkPending 1 (b - 0xC0) 0x80 0xBF).
Proof.
  intros H. unfold lead.
  destruct (N.ltb_spec b 0x80); [lia |].
  rewrite in_range_true by lia. do 2 f_equal. dlia.
Qed.

Lemma lead_three (b : N) :
  0xE0 <= b <= 0xEF ->
  lead b = Need (mkPending 2 (b - 0xE0) (if b =? 0xE0 then 0xA0 else 0x80)
                                        (if b =? 0xED then 0x9F else 0xBF)).
Proof.
  intros H. unfold lead.
  destruct (N.ltb_spec b 0x80); [lia |].
  rewrite (in_range_false 0xC2) by lia.
  rewrite in_range_true by lia. do 2 f_equal. dlia.
Qed.

Lemma lead_four (b : N) :
  0xF0 <= b <= 0xF4 ->
  lead b = Need (mkPending 3 (b - 0xF0) (if b =? 0xF0 then 0x90 else 0x80)
                                        (if b =? 0xF4 then 0x8F else 0xBF)).
Proof.
  intros H. unfold lead.
  destruct (N.ltb_spec b 0x80); [lia |].
  rewrite (in_range_false 0xC2), (in_range_false 0xE0) by lia.
  rewrite in_range_true by lia. do 2 f_equal. dlia.
Qed.

Lemma lead_bad (b : N) :
  0x80 <= b < 0xC2 \/ 0xF4 < b -> lead b = Bad.
Proof.
  intros H. unfold lead.
  destruct (N.ltb_spec b 0x80); [lia |].
  by rewrite !in_range_false by lia.
Qed.

Lemma mod64_cont (n : N) : 0x80 <= n <= 0xBF -> n mod 64 = n - 0x80.
Proof. intros. dlia. Qed.

Lemma lead_ok (b : N) :
  match lead b with
  | Emit c => is_scalar c
  | Need p => pending_ok (Some p)
  | Bad => True
  end.
Proof.
  destruct (N.ltb_spec b 0x80).
  { rewrite lead_ascii by done. left. lia. }
  destruct (N.ltb_spec b 0xC2).
  { by rewrite lead_bad by lia. }
  destruct (N.leb_spec b 0xDF).
  { rewrite lead_two by lia. simpl. intros n Hn.
    rewrite mod64_cont by lia. left. lia. }
  destruct (N.leb_spec b 0xEF).
  { rewrite lead_three by lia. simpl. intros n Hn n' Hn'.
    rewrite (mod64_cont n'), (mod64_cont n) by (revert Hn; cmp; lia).
    unfold is_scalar. revert Hn. cmp; lia. }
  destruct (N.leb_spec b 0xF4).
  { rewrite lead_four by lia. simpl. intros n Hn n' Hn' n'' Hn''.
    rewrite (mod64_cont n''), (mod64_cont n'), (mod64_cont n) by (revert Hn; cmp; lia).
    unfold is_scalar. revert Hn. cmp; lia. }
  by rewrite lead_bad by lia.
Qed.

Lemma scalar_replacement : is_scalar 0xFFFD.
Proof. right. lia. Qed.

Lemma decode_scalar (bs : list byte) (st : option Pending) :
  pending_ok st -> Forall is_scalar (utf8_decode st bs).
Proof.
  revert st. induction bs as [| b rest IH]; intros st Hst.
  - destruct st; simpl; [| constructor].
    constructor; [apply scalar_replacement | constructor].
  - cbn [utf8_decode].
    assert (Hstart : Forall is_scalar
              match lead (Byte.to_N b) with
              | Emit c => c :: utf8_decode None rest
              | Need p => utf8_decode (Some p) rest
              | Bad => 0xFFFD :: utf8_decode None rest
              end).
    { pose proof (lead_ok (Byte.to_N b)) as Hl.
      destruct (lead (Byte.to_N b)) as [c | p |].
      - constructor; [done | by apply IH].
      - by apply IH.
      - constructor; [apply scalar_replacement | by apply IH]. }
    destruct st as [[k cp lo hi] |]; [| exact Hstart]. simpl in *.
    destruct (in_range_spec lo hi (Byte.to_N b)) as [Hin | Hout].
    + destruct k as [| [| k]]; [done | |].
      * constructor; [by apply Hst | by apply IH].
      * apply IH. simpl. by apply Hst.
    + constructor; [apply scalar_replacement | exact Hstart].
Qed.

Lemma decode_None_cons (b : byte) (rest : list byte) :
  utf8_decode None (b :: rest) =
  match lead (Byte.to_N b) with
  | Emit c => c :: utf8_decode None rest
  | Need p => utf8_decode (Some p) rest
  | Bad => 0xFFFD :: utf8_decode None rest
  end.
Proof. reflexivity. Qed.

Lemma decode_cont (k : nat) (cp lo hi : N) (b : byte) (rest : list byte) :
  lo <= Byte.to_N b <= hi ->
  utf8_decode (Some (mkPending (S k) cp lo hi)) (b :: rest) =
  match k with
  | 0%nat => (cp * 64 + Byte.to_N b mod 64) :: utf8_decode None rest
  | S k' =>
      utf8_decode (Some (mkPending k (cp * 64 + Byte.to_N b mod 64) 0x80 0xBF)) rest
  end.
Proof.
  intros H. cbn [utf8_decode]. simpl. rewrite in_range_true by done.
  by destruct k.
Qed.

(** Decoding the bytes of a scalar value gives it back. *)
Lemma decode_encode1 (c : N) (rest : list byte) :
  is_scalar c ->
  utf8_decode None (utf8_encode1 c ++ rest) = c :: utf8_decode None rest.
Proof.
  intros Hc. unfold utf8_encode1, is_scalar in *.
  destruct (N.ltb_spec c 0x80); [| destruct (N.ltb_spec c 0x800);
    [| destruct (N.ltb_spec c 0x10000)]]; cbn [app].
  - rewrite decode_None_cons, to_N_byte_of by lia. by rewrite lead_ascii.
  - rewrite decode_None_cons, to_N_byte_of by dlia.
    rewrite lead_two by dlia.
    rewrite decode_cont by (rewrite to_N_byte_of by dlia; dlia).
    rewrite to_N_byte_of by dlia. f_equal. dlia.
  - rewrite decode_None_cons, to_N_byte_of by dlia.
    rewrite lead_three by dlia.
    rewrite decode_cont by (rewrite to_N_byte_of by dlia; cmp; dlia).
    rewrite decode_cont by (rewrite to_N_byte_of by dlia; dlia).
    rewrite !to_N_byte_of by dlia. f_equal. dlia.
  - rewrite decode_None_cons, to_N_byte_of by dlia.
    rewrite lead_four by dlia.
    rewrite decode_cont by (rewrite to_N_byte_of by dlia; cmp; dlia).
    rewrite decode_cont by (rewrite to_N_byte_of by dlia; dlia).
    rewrite decode_cont by (rewrite to_N_byte_of by dlia; dlia).
    rewrite !to_N_byte_of by dlia. f_equal. dlia.
Qed.

Lemma decode_encode (cps : list N) :
  Forall is_scalar cps -> utf8_decode None (flat_map utf8_encode1 cps) = cps.
Proof.
  induction 1 as [| c cps Hc _ IH]; [done |].
  simpl. rewrite decode_encode1 by done. by rewrite IH.
Qed.

(** [Buffer.from] reads the code units of scalar values as those values. *)
Lemma from_utf8_utf16 (cps : list N) :
  Forall is_scalar cps ->
  from_utf8 (flat_map utf16_of cps) = flat_map utf8_encode1 cps.
Proof.
  induction 1 as [| c cps Hc _ IH]; [done |].
  simpl. unfold utf16_of, is_scalar in *.
  destruct (N.ltb_spec c 0x10000); cbn [app from_utf8].
  - rewrite !in_range_false by lia. by rewrite IH.
  - rewrite !in_range_true by dlia. rewrite IH. f_equal. f_equal. dlia.
Qed.

Example toString_utf8_ill_formed :
  toString_utf8 ["a"; xe3; x81; "b"; xf0; x9f; x98; x80; xff]%byte
  = [0x61; 0xFFFD; 0x62; 0xD83D; 0xDE00; 0xFFFD].
Proof. reflexivity. Qed.

Example from_utf8_pair :
  from_utf8 [0x61; 0xD83D; 0xDE00; 0xD83D] =
  ["a"; xf0; x9f; x98; x80; xef; xbf; xbd]%byte.
Proof. reflexivity. Qed.

(** Text read from a buffer survives being written as UTF-8 and read again. *)
Lemma toString_from_utf8 (bs : list byte) :
  toString_utf8 (from_utf8 (toString_utf8 bs)) = toString_utf8 bs.
Proof.
  unfold toString_utf8.
  rewrite from_utf8_utf16 by (by apply decode_scalar).
  by rewrite decode_encode by (by apply decode_scalar).
Qed.

End Encoding.

(** ** Paths ([vscode.Uri], Node's [path]) *)

Module Path.
Local Open Scope string_scope.

(** The host platform decides [path.sep] and what [path.relative] reads as a
    separator. *)
Inductive Platform : Type := Posix | Win32.

Definition backslash : ascii := ascii_of_nat 92.

Definition sep (pf : Platform) : ascii :=
  match pf with Posix => "/"%char | Win32 => backslash end.

Definition is_sep (pf : Platform) (c : ascii) : bool :=
  match pf with
  | Posix => Ascii.eqb c "/"
  | Win32 => Ascii.eqb c "/" || Ascii.eqb c backslash
  end.

(** A [vscode.Uri]: its scheme and the segments of its path. *)
Record Uri : Type := mkUri { scheme : string; segs : list string }.

Definition file_uri (p : list string) : Uri := mkUri "file" p.

Fixpoint join (s : ascii) (l : list string) : string :=
  match l with
  | [] => ""
  | [a] => a
  | a :: rest => a ++ String s (join s rest)
  end.

(** [uri.fsPath]: [/a/b] on POSIX, [c:\a\b] on Windows (the drive is the
    first segment).  [uri.fsPath] hands out the drive letter in lower case;
    the URIs of this model carry it in lower case already. *)
Definition fsPath (pf : Platform) (u : Uri) : string :=
  match pf with
  | Posix => String "/" (join "/" (segs u))
  | Win32 => join backslash (segs u)
  end.

(** [uri.toString()] *)
Definition toString (u : Uri) : string :=
  scheme u ++ "://" ++ String "/" (join "/" (segs u)).

(** Cut a string at every separator. *)
Fixpoint split (sp : ascii -> bool) (s : string) : list string :=
  match s with
  | "" => [""]
  | String c s' =>
      if sp c then "" :: split sp s'
      else match split sp s' with
           | h :: t => String c h :: t
           | [] => [String c ""]
           end
  end.

(** Resolve the segments of an absolute path: empty segments and [.] go, [..]
    removes the segment before it.  [acc] is the path so far, reversed. *)
Fixpoint normalize (acc : list string) (l : list string) : list string :=
  match l with
  | [] => rev acc
  | x :: rest =>
      if String.eqb x "" || String.eqb x "." then normalize acc rest
      else if String.eqb x ".." then normalize (tail acc) rest
      else normalize (x :: acc) rest
  end.

Definition resolve (pf : Platform) (p : string) : list string :=
  normalize [] (split (is_sep pf) p).

(** [toLowerCase] on one character.  The characters of a string of this
    model are the code units below 256; among them [toLowerCase] changes the
    letters [A] to [Z] and those from U+00C0 to U+00DE (U+00D7, the
    multiplication sign, is no letter), each to the character 32 places up. *)
Definition lower (c : ascii) : ascii :=
  let n := nat_of_ascii c in
  if (65 <=? n)%nat && (n <=? 90)%nat
     || (192 <=? n)%nat && (n <=? 222)%nat && negb (n =? 215)%nat
  then ascii_of_nat (n + 32) else c.

Fixpoint lowercase (s : string) : string :=
  match s with
  | "" => ""
  | String c s' => String (lower c) (lowercase s')
  end.

(** [path.win32.relative] compares the two paths after [toLowerCase()]. *)
Definition seg_eqb (pf : Platform) (a b : string) : bool :=
  match pf with
  | Posix => String.eqb a b
  | Win32 => String.eqb (lowercase a) (lowercase b)
  end.

Fixpoint drop_common (eqb : string -> string -> bool) (f t : list string)
  : list string * list string :=
  match f, t with
  | a :: f', b :: t' => if eqb a b then drop_common eqb f' t' else (f, t)
  | _, _ => (f, t)
  end.

(** [path.relative(from, to)] for absolute paths: up from what is left of
    [from], down what is left of [to].  On Windows two paths on different
    drives have no relative path and [to] is returned. *)
Definition relative (pf : Platform) (from to : string) : string :=
  let f := resolve pf from in
  let t := resolve pf to in
  let '(fr, tr) := drop_common (seg_eqb pf) f t in
  match pf, f, t with
  | Win32, a :: _, b :: _ =>
      if seg_eqb pf a b then join (sep pf) (replicate (length fr) ".." ++ tr)%list
      else join (sep pf) t
  | _, _, _ => join (sep pf) (replicate (length fr) ".." ++ tr)%list
  end.

(** [s.replace(/\\/g, '/')] *)
Fixpoint replace_backslash (s : string) : string :=
  match s with
  | "" => ""
  | String c s' =>
      String (if Ascii.eqb c backslash then "/"%char else c) (replace_backslash s')
  end.

(** [path.relative(root.fsPath, uri.fsPath).replace(/\\/g, '/')], the [path]
    of every event. *)
Definition rel_path (pf : Platform) (root uri : Uri) : string :=
  replace_backslash (relative pf (fsPath pf root) (fsPath pf uri)).

Example rel_path_posix :
  rel_path Posix (file_uri ["tmp"; "ws"]) (file_uri ["tmp"; "ws"; "src"; "main.py"])
  = "src/main.py".
Proof. reflexivity. Qed.

Example rel_path_win32 :
  rel_path Win32 (file_uri ["c:"; "Temp"; "ws"]) (file_uri ["c:"; "temp"; "WS"; "src"; "main.py"])
  = "src/main.py".
Proof. reflexivity. Qed.

Example seg_eqb_folds :
  seg_eqb Win32 (String (ascii_of_nat 201) "cole") (String (ascii_of_nat 233) "COLE") = true /\
  seg_eqb Win32 (String (ascii_of_nat 215) "") (String (ascii_of_nat 247) "") = false /\
  seg_eqb Posix "Temp" "temp" = false.
Proof. repeat split. Qed.

Example relative_posix :
  relative Posix "/a/b/c" "/a/d" = "../../d" /\
  relative Posix "/a/b" "/a/b" = "" /\
  relative Posix "/a/./b/../c" "/a/c/d" = "d".
Proof. repeat split. Qed.

Example rel_path_outside :
  rel_path Posix (file_uri ["tmp"; "ws"]) (file_uri ["tmp"; "other"; "x"])
  = "../other/x".
Proof. reflexivity. Qed.

(** A file name as the host can hand it out on either platform: not empty,
    not [.] or [..], and without [/] or a backslash in it. *)
Fixpoint plain (a : string) : bool :=
  match a with
  | "" => true
  | String c a' => negb (Ascii.eqb c "/") && negb (Ascii.eqb c backslash) && plain a'
  end.

Definition name_ok (a : string) : bool :=
  plain a && negb (String.eqb a "") && negb (String.eqb a ".") && negb (String.eqb a "..").

Lemma append_assoc (a b c : string) : (a ++ b) ++ c = a ++ (b ++ c).
Proof.
  induction a as [| x a IH]; [done |].
  change (String x ((a ++ b) ++ c) = String x (a ++ (b ++ c))). by rewrite IH.
Qed.

Lemma is_sep_sep (pf : Platform) : is_sep pf (sep pf) = true.
Proof. by destruct pf. Qed.

Lemma split_plain (pf : Platform) (a : string) :
  plain a = true -> split (is_sep pf) a = [a].
Proof.
  induction a as [| c a IH]; [done |]. simpl. intros H.
  apply andb_prop in H as [H Ha]. apply andb_prop in H as [H1 H2].
  replace (is_sep pf c) with false.
  - by rewrite IH.
  - destruct pf; simpl; destruct (Ascii.eqb c "/"), (Ascii.eqb c backslash); done.
Qed.

Lemma split_plain_sep (pf : Platform) (a r : string) :
  plain a = true ->
  split (is_sep pf) (a ++ String (sep pf) r) = a :: split (is_sep pf) r.
Proof.
  induction a as [| c a IH]; simpl; intros H.
  - by rewrite is_sep_sep.
  - apply andb_prop in H as [H Ha]. apply andb_prop in H as [H1 H2].
    replace (is_sep pf c) with false.
    + by rewrite IH.
    + destruct pf; simpl; destruct (Ascii.eqb c "/"), (Ascii.eqb c backslash); done.
Qed.

Lemma split_join (pf : Platform) (l : list string) :
  l <> [] -> Forall (fun a => plain a = true) l ->
  split (is_sep pf) (join (sep pf) l) = l.
Proof.
  induction l as [| a l IH]; [done |]. intros _ H.
  apply Forall_cons in H as [Ha Hl].
  destruct l as [| b l]; simpl.
  - by apply split_plain.
  - rewrite split_plain_sep by done. f_equal. by apply IH.
Qed.

Lemma name_ok_plain (l : list string) :
  Forall (fun a => name_ok a = true) l -> Forall (fun a => plain a = true) l.
Proof.
  intros Hl. eapply Forall_impl; [exact Hl |].
  intros a H. unfold name_ok in H.
  by repeat (apply andb_prop in H as [H _]).
Qed.

Lemma normalize_names (l acc : list string) :
  Forall (fun a => name_ok a = true) l -> normalize acc l = (rev acc ++ l)%list.
Proof.
  revert acc. induction l as [| a l IH]; intros acc H; simpl.
  - by rewrite app_nil_r.
  - apply Forall_cons in H as [Ha Hl]. unfold name_ok in Ha.
    apply andb_prop in Ha as [Ha H3]. apply andb_prop in Ha as [Ha H2].
    apply andb_prop in Ha as [_ H1].
    apply negb_true_iff in H1, H2, H3. rewrite H1, H2, H3. simpl.
    rewrite IH by done. simpl. by rewrite <- app_assoc.
Qed.

(** Resolving [fsPath] gives the segments back. *)
Lemma resolve_fsPath (pf : Platform) (u : Uri) :
  Forall (fun a => name_ok a = true) (segs u) ->
  resolve pf (fsPath pf u) = segs u.
Proof.
  intros H. unfold resolve. destruct u as [sc l]; simpl in *.
  destruct l as [| a l].
  - by destruct pf.
  - assert (Hs : split (is_sep pf) (join (sep pf) (a :: l)) = a :: l)
      by (apply split_join; [done | by apply name_ok_plain]).
    destruct pf; unfold fsPath; cbn [segs].
    + change (split (is_sep Posix) (String "/" (join "/" (a :: l))))
        with ("" :: split (is_sep Posix) (join (sep Posix) (a :: l))).
      rewrite Hs. change (normalize [] ("" :: a :: l)) with (normalize [] (a :: l)).
      by rewrite normalize_names.
    + change backslash with (sep Win32). rewrite Hs. by rewrite normalize_names.
Qed.

Lemma seg_eqb_refl (pf : Platform) (a : string) : seg_eqb pf a a = true.
Proof. destruct pf; apply String.eqb_refl. Qed.

Lemma drop_common_app (pf : Platform) (l more : list string) :
  drop_common (seg_eqb pf) l (l ++ more)%list = ([], more).
Proof.
  induction l as [| a l IH]; simpl.
  - by destruct more.
  - by rewrite seg_eqb_refl.
Qed.

Lemma replace_backslash_plain (a : string) :
  plain a = true -> replace_backslash a = a.
Proof.
  induction a as [| c a IH]; [done |]. simpl. intros H.
  apply andb_prop in H as [H Ha]. apply andb_prop in H as [_ H2].
  apply negb_true_iff in H2. rewrite H2. by rewrite IH.
Qed.

Lemma replace_backslash_app (a b : string) :
  replace_backslash (a ++ b) = replace_backslash a ++ replace_backslash b.
Proof. induction a as [| c a IH]; [done |]. simpl. by rewrite IH. Qed.

Lemma replace_backslash_join (pf : Platform) (l : list string) :
  Forall (fun a => plain a = true) l ->
  replace_backslash (join (sep pf) l) = join "/" l.
Proof.
  induction 1 as [| a l Ha Hl IH]; [done |].
  destruct l as [| b l].
  - by apply replace_backslash_plain.
  - change (join (sep pf) (a :: b :: l)) with (a ++ String (sep pf) (join (sep pf) (b :: l))).
    change (join "/" (a :: b :: l)) with (a ++ String "/" (join "/" (b :: l))).
    rewrite replace_backslash_app, replace_backslash_plain by done.
    f_equal. cbn [replace_backslash]. rewrite IH. by destruct pf.
Qed.

(** For a target below the root whose names are plain, the event path is
    the names below the root joined by [/], on either platform. *)
Lemma rel_path_below (pf : Platform) (sc sc' : string) (root names : list string) :
  Forall (fun a => name_ok a = true) root ->
  Forall (fun a => name_ok a = true) names ->
  rel_path pf (mkUri sc root) (mkUri sc' (root ++ names)%list) = join "/" names.
Proof.
  intros Hr Hn. unfold rel_path, relative.
  rewrite !resolve_fsPath by (simpl; by try apply Forall_app).
  cbn [segs]. rewrite drop_common_app. cbn [length replicate app].
  assert (Hj : replace_backslash (join (sep pf) names) = join "/" names)
    by (by apply replace_backslash_join, name_ok_plain).
  destruct pf; [done |].
  destruct root as [| a root]; [by destruct names |].
  cbn [app]. by rewrite seg_eqb_refl.
Qed.

(** No event path contains a backslash. *)
Lemma replace_backslash_free (s : string) :
  forall c, In c (list_ascii_of_string (replace_backslash s)) -> c <> backslash.
Proof.
  induction s as [| a s IH]; simpl; [done |].
  intros c [<- | H]; [| by apply IH].
  destruct (Ascii.eqb_spec a backslash); done.
Qed.

(** On POSIX a backslash is an ordinary character of a file name, and the
    replacement rewrites it. *)
Example rel_path_posix_backslash :
  rel_path Posix (file_uri ["ws"]) (file_uri ["ws"; String backslash "x"]) = "/x" /\
  rel_path Posix (file_uri ["ws"]) (file_uri ["ws"; String "a" (String backslash "b")])
  = "a/b".
Proof. split; reflexivity. Qed.

(** On Windows two drives share no relative path: a file renamed on another
    drive of a multi-root workspace is reported with its full path. *)
Example rel_path_win32_other_drive :
  rel_path Win32 (file_uri ["c:"; "ws"]) (file_uri ["d:"; "docs"; "a.txt"])
  = "d:/docs/a.txt".
Proof. reflexivity. Qed.

End Path.

(** ** The change capture engine ([beginWatchAndSync]) *)

Module Capture.
Import Path Encoding.

(** The bodies the engine posts, one constructor for each [/event/...]
    endpoint.  [isDirectory] is optional: the fallback of [onDidCreate]
    leaves it out.  [Heartbeat ts] is the body of a heartbeat whose request is
    made at the time [ts].  [postJson] merges the same [cfg.payload] into
    every body; it is left out here. *)
Inductive SyncEvent : Type :=
| FileSnapshot (path : string) (isBinary : bool) (content : string)
| Create (path : string) (isDirectory : option bool)
| Delete (path : string)
| Rename (oldPath newPath : string)
| Heartbeat (ts : Z).

(** The closures handed to [queue.enqueue]: [() => postJson(.., body)] with
    a body made before the call of [enqueue], [() => sendFileSnapshot(uri)],
    and [() => postJson('/event/heartbeat', { ts: Date.now() })], which reads
    the clock anew at every attempt. *)
Inductive Task : Type :=
| Post (e : SyncEvent)
| Snapshot (uri : Uri)
| Beat.

(** The body a task posts when it is attempted at the time [now]; a snapshot
    task posts nothing itself. *)
Definition task_body (t : Task) (now : Z) : option SyncEvent :=
  match t with
  | Post e => Some e
  | Snapshot _ => None
  | Beat => Some (Heartbeat now)
  end.

Abbreviation QState := (RetryQueue.State (Task := Task)).
Abbreviation QAction := (RetryQueue.Action (Task := Task)).

(** [vscode.FileType]: [File = 1], [Directory = 2] (a bit mask). *)
Definition FileType_File : Z := 1.
Definition FileType_Directory : Z := 2.

(** [stat.type & flag], read as a condition. *)
Definition has_type (ty flag : Z) : bool := negb (Z.land ty flag =? 0)%Z.

(** Timers fire in the order of the time they are due. *)
Definition earlier (a b : string * (Z * Uri)) : Prop := (a.2.1 <= b.2.1)%Z.

#[local] Instance earlier_dec : RelDecision earlier.
Proof. intros a b. unfold earlier. apply Z_le_dec. Defined.

Section Engine.
Variable pf : Platform.
Variable root : Uri.
(** [isBinaryFile] of the [isbinaryfile] package. *)
Variable isBinaryFile : list byte -> bool.

(** [content: isBin ? content : Buffer.from(content).toString('base64')] with
    [content = isBin ? buf.toString('base64') : buf.toString('utf8')] *)
Definition snapshot_content (buf : list byte) : string :=
  if isBinaryFile buf then toString_base64 buf
  else toString_base64 (from_utf8 (toString_utf8 buf)).

(** The [payload] of [sendFileSnapshot]. *)
Definition snapshot_event (abs : Uri) (buf : list byte) : SyncEvent :=
  FileSnapshot (rel_path pf root abs) (isBinaryFile buf) (snapshot_content buf).

(** [sendFileSnapshot(abs)]; [read] is what [readFile] gave, [None] when it
    rejected, and then the promise of [sendFileSnapshot] rejects. *)
Definition sendFileSnapshot (abs : Uri) (read : option (list byte)) (q : QState)
  : option QState :=
  match read with
  | Some buf => Some (RetryQueue.enqueue (Post (snapshot_event abs buf)) q)
  | None => None
  end.

(** [watcher.onDidCreate]; [stat] is [stat.type], [None] when [stat] rejected. *)
Definition onDidCreate (uri : Uri) (stat : option Z) (q : QState) : QState :=
  let rel := rel_path pf root uri in
  match stat with
  | Some ty =>
      if has_type ty FileType_Directory then
        RetryQueue.enqueue (Post (Create rel (Some true))) q
      else if has_type ty FileType_File then
        RetryQueue.enqueue (Snapshot uri)
          (RetryQueue.enqueue (Post (Create rel (Some false))) q)
      else q
  | None =>
      RetryQueue.enqueue (Snapshot uri)
        (RetryQueue.enqueue (Post (Create rel None)) q)
  end.

(** [watcher.onDidChange] *)
Definition onDidChange (uri : Uri) (stat : option Z) (q : QState) : QState :=
  match stat with
  | Some ty =>
      if has_type ty FileType_File then RetryQueue.enqueue (Snapshot uri) q else q
  | None => q
  end.

(** [watcher.onDidDelete] *)
Definition onDidDelete (uri : Uri) (q : QState) : QState :=
  RetryQueue.enqueue (Post (Delete (rel_path pf root uri))) q.

(** [vscode.workspace.onDidRenameFiles] *)
Definition onDidRenameFiles (files : list (Uri * Uri)) (q : QState) : QState :=
  fold_left
    (fun q f => RetryQueue.enqueue
                  (Post (Rename (rel_path pf root (fst f)) (rel_path pf root (snd f)))) q)
    files q.

(** The callback of the heartbeat interval: it enqueues the closure and reads
    no clock itself. *)
Definition heartbeat (q : QState) : QState := RetryQueue.enqueue Beat q.

(** What happens to the engine: the host reports a change, the heartbeat is
    due, [sendFileSnapshot] is called outside the queue (the baseline and the
    debounce timer, which drop a failed read), the request of a [Post] or
    [Beat] task settles, the read of a [Snapshot] task settles, or a drain
    loop resumes from [showError], [clearError] or its timer. *)
Inductive Happening : Type :=
| DidCreate (uri : Uri) (stat : option Z)
| DidChange (uri : Uri) (stat : option Z)
| DidDelete (uri : Uri)
| DidRenameFiles (files : list (Uri * Uri))
| HeartbeatDue
| SnapshotNow (uri : Uri) (read : option (list byte))
| PostSettles (i : nat) (ok : bool)
| SnapshotSettles (i : nat) (read : option (list byte))
| Resume (i : nat).

Definition engine_step (q : QState) (a : Happening) : QState :=
  match a with
  | DidCreate uri stat => onDidCreate uri stat q
  | DidChange uri stat => onDidChange uri stat q
  | DidDelete uri => onDidDelete uri q
  | DidRenameFiles files => onDidRenameFiles files q
  | HeartbeatDue => heartbeat q
  | SnapshotNow uri read => default q (sendFileSnapshot uri read q)
  | PostSettles i ok =>
      match RetryQueue.loops q !! i with
      | Some (RetryQueue.mkLoop RetryQueue.AwaitTask (Post _ | Beat) _) =>
          RetryQueue.step q
            (if ok then RetryQueue.TaskResolves i else RetryQueue.TaskRejects i)
      | _ => q
      end
  | SnapshotSettles i read =>
      match RetryQueue.loops q !! i with
      | Some (RetryQueue.mkLoop RetryQueue.AwaitTask (Snapshot uri) _) =>
          match sendFileSnapshot uri read q with
          | Some q' => RetryQueue.step q' (RetryQueue.TaskResolves i)
          | None => RetryQueue.step q (RetryQueue.TaskRejects i)
          end
      | _ => q
      end
  | Resume i => RetryQueue.step q (RetryQueue.Continue i)
  end.

Definition engine_run (acts : list Happening) (q : QState) : QState := fold_left engine_step acts q.

(** Every task handed to the queue so far: done, under way, waiting. *)
Definition all_enqueued (q : QState) : list Task :=
  RetryQueue.completed (RetryQueue.trace q) ++ RetryQueue.owed q ++ RetryQueue.queue q.

(** The bodies, of those made before their task was enqueued, that the
    collector has answered with a 2xx, in order.  The body of a heartbeat is
    made at the attempt and is not among them. *)
Definition delivered (q : QState) : list SyncEvent :=
  omap (fun t => match t with Post e => Some e | Snapshot _ | Beat => None end)
       (RetryQueue.completed (RetryQueue.trace q)).

(** The calls of [enqueue] and the settled promises a step of the engine amounts
    to for the queue. *)
Definition queue_actions (q : QState) (a : Happening) : list QAction :=
  match a with
  | DidCreate uri stat =>
      let rel := rel_path pf root uri in
      match stat with
      | Some ty =>
          if has_type ty FileType_Directory then
            [RetryQueue.Enqueue (Post (Create rel (Some true)))]
          else if has_type ty FileType_File then
            [RetryQueue.Enqueue (Post (Create rel (Some false)));
             RetryQueue.Enqueue (Snapshot uri)]
          else []
      | None =>
          [RetryQueue.Enqueue (Post (Create rel None)); RetryQueue.Enqueue (Snapshot uri)]
      end
  | DidChange uri stat =>
      match stat with
      | Some ty =>
          if has_type ty FileType_File then [RetryQueue.Enqueue (Snapshot uri)] else []
      | None => []
      end
  | DidDelete uri => [RetryQueue.Enqueue (Post (Delete (rel_path pf root uri)))]
  | DidRenameFiles files =>
      map (fun f => RetryQueue.Enqueue
                      (Post (Rename (rel_path pf root (fst f)) (rel_path pf root (snd f)))))
          files
  | HeartbeatDue => [RetryQueue.Enqueue Beat]
  | SnapshotNow uri read =>
      match read with
      | Some buf => [RetryQueue.Enqueue (Post (snapshot_event uri buf))]
      | None => []
      end
  | PostSettles i ok =>
      match RetryQueue.loops q !! i with
      | Some (RetryQueue.mkLoop RetryQueue.AwaitTask (Post _ | Beat) _) =>
          [if ok then RetryQueue.TaskResolves i else RetryQueue.TaskRejects i]
      | _ => []
      end
  | SnapshotSettles i read =>
      match RetryQueue.loops q !! i with
      | Some (RetryQueue.mkLoop RetryQueue.AwaitTask (Snapshot uri) _) =>
          match read with
          | Some buf =>
              [RetryQueue.Enqueue (Post (snapshot_event uri buf)); RetryQueue.TaskResolves i]
          | None => [RetryQueue.TaskRejects i]
          end
      | _ => []
      end
  | Resume i => [RetryQueue.Continue i]
  end.

Fixpoint queue_run (acts : list Happening) (q : QState) : list QAction :=
  match acts with
  | [] => []
  | a :: rest => queue_actions q a ++ queue_run rest (engine_step q a)
  end.

Lemma exec_renames (files : list (Uri * Uri)) (q : QState) :
  onDidRenameFiles files q =
  RetryQueue.exec
    (map (fun f => RetryQueue.Enqueue
                     (Post (Rename (rel_path pf root (fst f)) (rel_path pf root (snd f)))))
         files) q.
Proof.
  unfold onDidRenameFiles. revert q.
  induction files as [| f files IH]; intros q; [done |]. simpl. by rewrite IH.
Qed.

Lemma engine_step_actions (q : QState) (a : Happening) :
  engine_step q a = RetryQueue.exec (queue_actions q a) q.
Proof.
  destruct a as [uri [ty |] | uri [ty |] | uri | files | | uri [buf |]
                | i ok | i [buf |] | i]; simpl;
    try reflexivity; try apply exec_renames.
  all: try (unfold onDidCreate;
            by destruct (has_type ty FileType_Directory), (has_type ty FileType_File)).
  all: try (unfold onDidChange; by destruct (has_type ty FileType_File)).
  all: destruct (RetryQueue.loops q !! i) as [[[] [] ?] |] eqn:E; try reflexivity.
  all: unfold RetryQueue.exec; simpl; by rewrite ?E.
Qed.

Lemma engine_run_actions (acts : list Happening) (q : QState) :
  engine_run acts q = RetryQueue.exec (queue_run acts q) q.
Proof.
  revert q. induction acts as [| a acts IH]; intros q; [done |].
  simpl. rewrite RetryQueue.exec_app, <- engine_step_actions. apply IH.
Qed.

Lemma engine_run_app (a1 a2 : list Happening) (q : QState) :
  engine_run (a1 ++ a2) q = engine_run a2 (engine_run a1 q).
Proof. unfold engine_run. apply fold_left_app. Qed.

Lemma queue_run_app (a1 a2 : list Happening) (q : QState) :
  queue_run (a1 ++ a2) q = queue_run a1 q ++ queue_run a2 (engine_run a1 q).
Proof.
  revert q. induction a1 as [| a a1 IH]; intros q; [done |].
  simpl. by rewrite IH, <- app_assoc.
Qed.

Lemma enqueued_app (a1 a2 : list QAction) :
  RetryQueue.enqueued (a1 ++ a2) = RetryQueue.enqueued a1 ++ RetryQueue.enqueued a2.
Proof. apply omap_app. Qed.

(** The engine only ever drives the queue through [enqueue] and settled
    promises, so what it has enqueued is what the queue accounts for. *)
Lemma all_enqueued_run (acts : list Happening) :
  all_enqueued (engine_run acts RetryQueue.init) =
  RetryQueue.enqueued (queue_run acts RetryQueue.init).
Proof.
  rewrite engine_run_actions. apply RetryQueue.exec_accounted.
Qed.

(** The [create] task of a path that stats as a file ([Some false]) or
    whose [stat] rejected (no flag). *)
Definition create_task (uri : Uri) (stat : option Z) : Task :=
  Post (Create (rel_path pf root uri)
               (match stat with Some _ => Some false | None => None end)).

(** [stat] says file (and not directory), or [stat] rejected. *)
Definition file_or_unknown (stat : option Z) : Prop :=
  match stat with
  | Some ty => has_type ty FileType_Directory = false /\ has_type ty FileType_File = true
  | None => True
  end.

(** C4, as the code has it.  A create event on a path that stats as a file
    enqueues the [create{isDirectory:false}] task and, directly behind it, the
    snapshot task, which is the call [sendFileSnapshot(uri)] and not yet the
    [fileSnapshot] POST; when the stat fails it is a [create] without the
    flag, again followed by the snapshot task.  In any run of the engine
    around the event the two tasks sit at consecutive positions [n] and [n+1]
    of the queue order; whatever the queue does for a task behind position
    [n] it does after the create POST has been answered with success; and the
    snapshot task, when its read settles, enqueues the [fileSnapshot] POST
    behind everything enqueued so far.  So the collector sees the create
    before the content, with whatever was enqueued in the meantime between
    them. *)
Theorem create_then_snapshot (acts1 acts2 : list Happening) (uri : Uri) (stat : option Z) :
  file_or_unknown stat ->
  all_enqueued (engine_run (acts1 ++ DidCreate uri stat :: acts2) RetryQueue.init)
    !! length (all_enqueued (engine_run acts1 RetryQueue.init))
    = Some (create_task uri stat) /\
  all_enqueued (engine_run (acts1 ++ DidCreate uri stat :: acts2) RetryQueue.init)
    !! S (length (all_enqueued (engine_run acts1 RetryQueue.init)))
    = Some (Snapshot uri) /\
  (forall pre e post,
      RetryQueue.trace (engine_run (acts1 ++ DidCreate uri stat :: acts2) RetryQueue.init)
        = pre ++ e :: post ->
      all_enqueued (engine_run (acts1 ++ DidCreate uri stat :: acts2) RetryQueue.init)
        !! length (RetryQueue.completed pre) = Some (RetryQueue.event_task e) /\
      (length (all_enqueued (engine_run acts1 RetryQueue.init)) < length (RetryQueue.completed pre) ->
       RetryQueue.completed pre !! length (all_enqueued (engine_run acts1 RetryQueue.init))
         = Some (create_task uri stat))) /\
  (forall i d buf,
      RetryQueue.loops (engine_run (acts1 ++ DidCreate uri stat :: acts2) RetryQueue.init) !! i
        = Some (RetryQueue.mkLoop RetryQueue.AwaitTask (Snapshot uri) d) ->
      all_enqueued (engine_step (engine_run (acts1 ++ DidCreate uri stat :: acts2) RetryQueue.init)
                         (SnapshotSettles i (Some buf)))
      = all_enqueued (engine_run (acts1 ++ DidCreate uri stat :: acts2) RetryQueue.init)
          ++ [Post (snapshot_event uri buf)]).
Proof.
  intros Hstat.
  set (full := acts1 ++ DidCreate uri stat :: acts2).
  assert (Henq : all_enqueued (engine_run full RetryQueue.init) =
                 all_enqueued (engine_run acts1 RetryQueue.init)
                   ++ [create_task uri stat; Snapshot uri]
                   ++ RetryQueue.enqueued
                        (queue_run acts2 (engine_run (acts1 ++ [DidCreate uri stat]) RetryQueue.init))).
  { rewrite !all_enqueued_run. unfold full.
    rewrite (cons_middle (DidCreate uri stat)), app_assoc, queue_run_app.
    rewrite enqueued_app, queue_run_app, enqueued_app. rewrite <- app_assoc.
    do 2 f_equal. simpl. rewrite app_nil_r. unfold create_task.
    destruct stat as [ty |]; simpl in *; [| done].
    destruct Hstat as [-> ->]. done. }
  set (n := length (all_enqueued (engine_run acts1 RetryQueue.init))) in *.
  assert (Hn : all_enqueued (engine_run full RetryQueue.init) !! n = Some (create_task uri stat)).
  { rewrite Henq. rewrite lookup_app_r by done. unfold n. by rewrite Nat.sub_diag. }
  split; [exact Hn |]. split.
  { rewrite Henq. rewrite lookup_app_r by (unfold n; lia).
    replace (S n - length (all_enqueued (engine_run acts1 RetryQueue.init))) with 1 by (unfold n; lia).
    done. }
  pose proof (RetryQueue.exec_trace_ok (queue_run full RetryQueue.init)) as Hok.
  rewrite <- engine_run_actions, <- all_enqueued_run in Hok.
  split.
  - intros pre e post Htr. split.
    + by destruct (Hok pre e post Htr).
    + intros Hlt.
      destruct (RetryQueue.completed_prefix _ _ Hok pre (e :: post) Htr) as [k Hk].
      rewrite Hk in Hn. by rewrite lookup_app_l in Hn.
  - intros i d buf Hl.
    change (engine_step (engine_run full RetryQueue.init) (SnapshotSettles i (Some buf)))
      with (engine_run [SnapshotSettles i (Some buf)] (engine_run full RetryQueue.init)).
    rewrite <- engine_run_app, !all_enqueued_run, queue_run_app, enqueued_app.
    f_equal. simpl. by rewrite Hl.
Qed.

(** C8, as the code has it.  The [content] of a [fileSnapshot] is base64
    text in both branches.  Decoding it gives the bytes of the file when the
    file is binary.  When it is not, decoding it gives the UTF-8 encoding of
    what the file decodes to as UTF-8, every ill-formed part read as U+FFFD;
    so for a file that is the UTF-8 encoding of a text the decoded content is
    the file, byte for byte, and read as UTF-8 it is that text, code point for
    code point. *)
Theorem snapshot_content_roundtrip (abs : Uri) (buf : list byte) :
  (exists raw, snapshot_content buf = toString_base64 raw) /\
  snapshot_event abs buf =
    FileSnapshot (rel_path pf root abs) (isBinaryFile buf) (snapshot_content buf) /\
  (isBinaryFile buf = true -> from_base64 (snapshot_content buf) = buf) /\
  (isBinaryFile buf = false ->
   from_base64 (snapshot_content buf) = flat_map utf8_encode1 (utf8_decode None buf) /\
   forall text,
     Forall is_scalar text -> buf = flat_map utf8_encode1 text ->
     from_base64 (snapshot_content buf) = buf /\
     utf8_decode None (from_base64 (snapshot_content buf)) = text).
Proof.
  unfold snapshot_content. split; [| split; [done |]; split].
  - destruct (isBinaryFile buf); eauto.
  - intros ->. apply from_base64_toString.
  - intros ->. rewrite from_base64_toString. unfold toString_utf8.
    rewrite from_utf8_utf16 by (by apply decode_scalar).
    split; [done |]. intros text Hs ->.
    rewrite (decode_encode text Hs). split; [done |]. by apply decode_encode.
Qed.

(** *** Text edits, debounced per document *)

(** What [readFile] gives for a file at a time ([None]: it rejects). *)
Variable disk : Z -> Uri -> option (list byte).

(** The clock (milliseconds), the timers of [pendingTimers] with the time
    each is due and the document it is for, and the queue. *)
Record Timed : Type :=
  mkTimed { now : Z; pendingTimers : gmap string (Z * Uri); qstate : QState }.

(** The callback of [setTimeout(async () => { pendingTimers.delete(key);
    try { await sendFileSnapshot(uri); } catch (err) { } }, 500)], with the
    read of [sendFileSnapshot] settling at once: nothing else runs between
    the timer and the call of [enqueue].  [Debounce.timer_fires] and
    [Debounce.read_settles] are the two halves apart. *)
Definition timer_callback (key : string) (uri : Uri) (w : Timed) : Timed :=
  mkTimed (now w) (delete key (pendingTimers w))
          (default (qstate w) (sendFileSnapshot uri (disk (now w) uri) (qstate w))).

(** The timers due by [t], earliest first. *)
Definition due (t : Z) (w : Timed) : list (string * (Z * Uri)) :=
  merge_sort earlier
    (List.filter (fun a => (a.2.1 <=? t)%Z) (map_to_list (pendingTimers w))).

(** Let the clock reach [t]: every timer due by then runs at its time. *)
Definition advance_to (t : Z) (w : Timed) : Timed :=
  let w' :=
    fold_left
      (fun w a => timer_callback a.1 a.2.2 (mkTimed a.2.1 (pendingTimers w) (qstate w)))
      (due t w) w in
  mkTimed t (pendingTimers w') (qstate w').

(** [vscode.workspace.onDidChangeTextDocument]: [clearTimeout] of the pending
    timer of the document and [setTimeout] of a new one overwrite the map
    entry. *)
Definition onDidChangeTextDocument (uri : Uri) (w : Timed) : Timed :=
  if negb (String.eqb (scheme uri) "file")
     || negb (String.prefix (fsPath pf root) (fsPath pf uri))
  then w
  else mkTimed (now w)
               (<[toString uri := ((now w + 500)%Z, uri)]> (pendingTimers w))
               (qstate w).

Inductive Input : Type :=
| Edit (t : Z) (uri : Uri)
| Wait (t : Z).

Definition input (w : Timed) (i : Input) : Timed :=
  match i with
  | Edit t uri => onDidChangeTextDocument uri (advance_to t w)
  | Wait t => advance_to t w
  end.

Definition play (ins : list Input) (w : Timed) : Timed := fold_left input ins w.

(** Each edit comes less than 500 ms after the one before. *)
Fixpoint chained (prev : Z) (ts : list Z) : Prop :=
  match ts with
  | [] => True
  | t :: rest => (prev <= t < prev + 500)%Z /\ chained t rest
  end.

Lemma advance_to_empty (t : Z) (w : Timed) :
  pendingTimers w = ∅ -> advance_to t w = mkTimed t ∅ (qstate w).
Proof.
  intros H. unfold advance_to, due. rewrite H, map_to_list_empty. simpl.
  by rewrite H.
Qed.

Lemma advance_to_early (t d : Z) (key : string) (uri : Uri) (w : Timed) :
  pendingTimers w = {[key := (d, uri)]} -> (t < d)%Z ->
  advance_to t w = mkTimed t {[key := (d, uri)]} (qstate w).
Proof.
  intros H Ht. unfold advance_to, due. rewrite H, map_to_list_singleton. simpl.
  destruct (Z.leb_spec d t); [lia |]. simpl. by rewrite H.
Qed.

Lemma advance_to_due (t d : Z) (key : string) (uri : Uri) (w : Timed) :
  pendingTimers w = {[key := (d, uri)]} -> (d <= t)%Z ->
  advance_to t w =
  mkTimed t ∅ (default (qstate w) (sendFileSnapshot uri (disk d uri) (qstate w))).
Proof.
  intros H Ht. unfold advance_to, due. rewrite H, map_to_list_singleton. simpl.
  destruct (Z.leb_spec d t); [| lia]. simpl.
  unfold timer_callback; simpl. rewrite H. by rewrite delete_singleton_eq.
Qed.

Lemma last_cons {A : Type} (l : list A) (a d : A) :
  List.last (a :: l) d = List.last l a.
Proof.
  revert a d. induction l as [| x l IH]; intros a d; [done |].
  change (List.last (a :: x :: l) d) with (List.last (x :: l) d).
  by rewrite !IH.
Qed.

(** The handler looks at the scheme and at the two [fsPath] strings. *)
Definition accepted (uri : Uri) : bool :=
  String.eqb (scheme uri) "file" && String.prefix (fsPath pf root) (fsPath pf uri).

Lemma onDidChangeTextDocument_accepted (uri : Uri) (w : Timed) :
  accepted uri = true ->
  onDidChangeTextDocument uri w =
  mkTimed (now w) (<[toString uri := ((now w + 500)%Z, uri)]> (pendingTimers w)) (qstate w).
Proof.
  unfold accepted, onDidChangeTextDocument. intros H.
  apply andb_prop in H as [-> ->]. done.
Qed.

Lemma onDidChangeTextDocument_ignored (uri : Uri) (w : Timed) :
  accepted uri = false -> onDidChangeTextDocument uri w = w.
Proof.
  unfold accepted, onDidChangeTextDocument. intros H.
  apply andb_false_iff in H as [-> | ->]; simpl; [done |].
  by rewrite orb_true_r.
Qed.

Lemma play_burst (uri : Uri) (rest : list Z) (t : Z) (q : QState) (T : Z) :
  accepted uri = true ->
  chained t rest -> (List.last rest t + 500 <= T)%Z ->
  play (map (fun t => Edit t uri) rest ++ [Wait T])
       (mkTimed t {[toString uri := ((t + 500)%Z, uri)]} q) =
  mkTimed T ∅
    (default q (sendFileSnapshot uri (disk (List.last rest t + 500)%Z uri) q)).
Proof.
  intros Hacc. revert t. induction rest as [| t' rest IH]; intros t Hc HT.
  - simpl in *. by rewrite (advance_to_due T (t + 500) (toString uri) uri).
  - destruct Hc as [Ht Hc]. cbn [map app play fold_left input].
    rewrite (advance_to_early t' (t + 500) (toString uri) uri) by (done || lia).
    rewrite onDidChangeTextDocument_accepted by done. cbn [now pendingTimers qstate].
    rewrite insert_singleton_eq.
    rewrite last_cons in *. by apply IH.
Qed.

(** Debounce collapsing: a burst of edits of one document, each less than
    500 ms after the one before, leads to one call of [sendFileSnapshot], made
    500 ms after the last edit with what is on disk then. *)
Lemma debounce_collapse (uri : Uri) (t1 : Z) (rest : list Z) (T : Z) (w : Timed) :
  accepted uri = true ->
  pendingTimers w = ∅ ->
  chained t1 rest -> (List.last rest t1 + 500 <= T)%Z ->
  play (Edit t1 uri :: map (fun t => Edit t uri) rest ++ [Wait T]) w =
  mkTimed T ∅
    (default (qstate w)
       (sendFileSnapshot uri (disk (List.last rest t1 + 500)%Z uri) (qstate w))).
Proof.
  intros Hacc Hw Hc HT. cbn [play fold_left input].
  rewrite advance_to_empty by done.
  rewrite onDidChangeTextDocument_accepted by done. cbn [now pendingTimers qstate].
  rewrite insert_empty. by apply play_burst.
Qed.

End Engine.

Local Open Scope string_scope.

(** A session root, a new file in it, and a run in which the create POST is
    answered and the snapshot task reads the file. *)
Definition demo_root : Uri := file_uri ["tmp"; "ws"].
Definition demo_file : Uri := file_uri ["tmp"; "ws"; "a.txt"].
Definition demo_run : list Happening :=
  [PostSettles 0 true; Resume 0; SnapshotSettles 0 (Some ["h"; "i"]%byte); Resume 0;
   PostSettles 0 true].

Example demo_delivered :
  delivered (engine_run Posix demo_root (fun _ => false)
               (DidCreate demo_file (Some 1%Z) :: demo_run) RetryQueue.init)
  = [Create "a.txt" (Some false); FileSnapshot "a.txt" false "aGk="].
Proof. reflexivity. Qed.

(** Another file of the session root, and a run in which it is deleted just
    after [demo_file] was created: the delete is enqueued before the snapshot
    task of [demo_file] has run. *)
Definition other_file : Uri := file_uri ["tmp"; "ws"; "b.txt"].
Definition interleaved_run : list Happening :=
  [DidCreate demo_file (Some 1%Z); DidDelete other_file;
   PostSettles 0 true; Resume 0; SnapshotSettles 0 (Some ["h"; "i"]%byte); Resume 0;
   PostSettles 0 true; Resume 0; PostSettles 0 true].

(** The create event in the words of the specification: the [create] POST
    and the [fileSnapshot] POST of the file are two consecutive tasks of the
    queue. *)
Definition create_and_content_consecutive (pf : Platform) (root uri : Uri) (q : QState)
  : Prop :=
  exists n isDirectory isBinary content,
    all_enqueued q !! n = Some (Post (Create (rel_path pf root uri) isDirectory)) /\
    all_enqueued q !! S n
      = Some (Post (FileSnapshot (rel_path pf root uri) isBinary content)).

(** C4 as stated fails: the [fileSnapshot] POST of a created file is a third
    task, enqueued when the snapshot task runs.  Here the queue holds the
    [create] of [a.txt], its snapshot task, the [delete] of [b.txt] and then
    the [fileSnapshot] of [a.txt], and the collector gets the delete between
    the create and the content. *)
Lemma delete_between_create_and_content :
  ~ create_and_content_consecutive Posix demo_root demo_file
      (engine_run Posix demo_root (fun _ => false) interleaved_run RetryQueue.init) /\
  all_enqueued (engine_run Posix demo_root (fun _ => false) interleaved_run RetryQueue.init)
  = [Post (Create "a.txt" (Some false)); Snapshot demo_file; Post (Delete "b.txt");
     Post (FileSnapshot "a.txt" false "aGk=")] /\
  delivered (engine_run Posix demo_root (fun _ => false) interleaved_run RetryQueue.init)
  = [Create "a.txt" (Some false); Delete "b.txt"; FileSnapshot "a.txt" false "aGk="].
Proof.
  assert (E : all_enqueued (engine_run Posix demo_root (fun _ => false) interleaved_run
                              RetryQueue.init)
              = [Post (Create "a.txt" (Some false)); Snapshot demo_file;
                 Post (Delete "b.txt"); Post (FileSnapshot "a.txt" false "aGk=")])
    by reflexivity.
  split; [| split; [exact E | reflexivity]].
  intros (n & d & b & c & H1 & H2). rewrite E in H1, H2.
  destruct n as [| [| [| [| n]]]]; discriminate.
Qed.

(** The text [hi] saved as UTF-16, little endian, behind a byte order mark.
    [isbinaryfile] takes a file that starts with this mark for text. *)
Definition utf16le (units : list N) : list byte :=
  (xff :: xfe :: flat_map (fun u => [byte_of (u mod 256); byte_of (u / 256)]) units)%byte.

(** The text half of the snapshot encoding in the words of the
    specification, for a file [buf] that holds the text [text]: the content,
    decoded from base64 and read as UTF-8, is [text]. *)
Definition text_reproduced (isBinaryFile : list byte -> bool) (buf : list byte)
    (text : list N) : Prop :=
  toString_utf8 (from_base64 (snapshot_content isBinaryFile buf)) = text.

(** C8 as stated fails for a text file that is no UTF-8: the two bytes of the
    mark become U+FFFD each and every code unit of the text is read as two
    characters, so neither the bytes nor the text of the file come back. *)
Lemma utf16_text_is_not_reproduced :
  utf16le [0x68; 0x69]%N = [xff; xfe; "h"; x00; "i"; x00]%byte /\
  ~ text_reproduced (fun _ => false) (utf16le [0x68; 0x69]%N) [0x68; 0x69]%N /\
  from_base64 (snapshot_content (fun _ => false) (utf16le [0x68; 0x69]%N))
  = [xef; xbf; xbd; xef; xbf; xbd; "h"; x00; "i"; x00]%byte /\
  toString_utf8 (from_base64 (snapshot_content (fun _ => false) (utf16le [0x68; 0x69]%N)))
  = [0xFFFD; 0xFFFD; 0x68; 0; 0x69; 0]%N.
Proof.
  split; [reflexivity |]. split; [| split; reflexivity].
  unfold text_reproduced. discriminate.
Qed.

Lemma snapshot_content_roundtrip_witness :
  from_base64 (snapshot_content (fun _ => false) ["h"; xc3; xa9]%byte)
  = ["h"; xc3; xa9]%byte /\
  utf8_decode None (from_base64 (snapshot_content (fun _ => false) ["h"; xc3; xa9]%byte))
  = [0x68; 0xE9]%N.
Proof.
  refine (proj2 (proj2 (proj2 (proj2
            (snapshot_content_roundtrip Posix demo_root (fun _ => false) demo_file
               ["h"; xc3; xa9]%byte))) eq_refl) [0x68; 0xE9]%N _ eq_refl).
  repeat constructor; left; lia.
Defined.

Lemma create_then_snapshot_witness :
  all_enqueued (engine_run Posix demo_root (fun _ => false)
                  ([] ++ DidCreate demo_file (Some 1%Z) :: demo_run) RetryQueue.init)
    !! 0 = Some (create_task Posix demo_root demo_file (Some 1%Z)) /\
  all_enqueued (engine_run Posix demo_root (fun _ => false)
                  ([] ++ DidCreate demo_file (Some 1%Z) :: demo_run) RetryQueue.init)
    !! 1 = Some (Snapshot demo_file).
Proof.
  exact (conj
    (proj1 (create_then_snapshot Posix demo_root (fun _ => false) [] demo_run
              demo_file (Some 1%Z) (conj eq_refl eq_refl)))
    (proj1 (proj2 (create_then_snapshot Posix demo_root (fun _ => false) [] demo_run
              demo_file (Some 1%Z) (conj eq_refl eq_refl))))).
Defined.

(** Two folders next to each other, the name of one a prefix of the name of
    the other, and a document of the second. *)
Definition week1 : Uri := file_uri ["home"; "u"; "week1"].
Definition notes : Uri := file_uri ["home"; "u"; "week1-old"; "notes.txt"].

(** C5, at the input where the code departs from it.  [notes] is not under
    the session root [week1], yet [fsPath] of the root is a prefix of its
    [fsPath] as a string, so the edit is not ignored: 500 ms later a
    [fileSnapshot] of the document is enqueued. *)
Theorem text_edit_of_sibling_folder :
  ~ segs week1 `prefix_of` segs notes /\
  accepted Posix week1 notes = true /\
  all_enqueued
    (qstate (play Posix week1 (fun _ => false) (fun _ _ => Some ["h"; "i"]%byte)
               [Edit 0 notes; Wait 500] (mkTimed 0 ∅ RetryQueue.init)))
  = [Post (FileSnapshot "../week1-old/notes.txt" false "aGk=")].
Proof.
  split; [| split].
  - intros [k Hk]. discriminate Hk.
  - reflexivity.
  - vm_compute. reflexivity.
Qed.

(** A file of the session root whose name, on a POSIX host, starts with a
    backslash. *)
Definition odd_name : Uri := file_uri ["ws"; String backslash "x"].

(** C6, at the input where the code departs from it.  On a POSIX host the
    backslash is part of the file name; the events for this file carry the
    path [/x], which is not a path relative to the session root. *)
Theorem event_path_of_backslash_name (isBinaryFile : list byte -> bool) :
  all_enqueued (engine_run Posix (file_uri ["ws"]) isBinaryFile
                  [DidCreate odd_name (Some 1%Z); DidDelete odd_name] RetryQueue.init)
  = [Post (Create "/x" (Some false)); Snapshot odd_name; Post (Delete "/x")].
Proof. reflexivity. Qed.

End Capture.

(** ** The manifest materializer *)

Module Materializer.
Import Path Encoding.
Local Open Scope string_scope.
Local Open Scope list_scope.

(** *** The file system behind [vscode.workspace.fs] *)

Inductive Node : Type :=
| File (content : list byte)
| Dir.

(** The files and directories, by the segments of their path. *)
Abbreviation FS := (gmap (list string) Node).

Definition is_file (fs : FS) (p : list string) : bool :=
  match fs !! p with Some (File _) => true | _ => false end.

(** [p] and the directories above it, from the top. *)
Fixpoint inits (p : list string) : list (list string) :=
  match p with
  | [] => [[]]
  | a :: rest => [] :: map (cons a) (inits rest)
  end.

(** [fs.createDirectory(uri)]: missing parents are created; it fails when a
    file is in the way. *)
Definition createDirectory (p : list string) (fs : FS) : option FS :=
  if existsb (is_file fs) (inits p) then None
  else Some (foldr (fun d m => <[d := Dir]> m) fs (inits p)).

(** [async function ensureDir(dir) { try { await createDirectory(dir) } catch { } }] *)
Definition ensureDir (dir : Uri) (fs : FS) : FS :=
  default fs (createDirectory (segs dir) fs).

(** [fs.writeFile(uri, content)]: creates or overwrites the file, with the
    directories above it; it fails on a directory or below a file. *)
Definition writeFile (p : list string) (buf : list byte) (fs : FS) : option FS :=
  match fs !! p with
  | Some Dir => None
  | _ =>
      match createDirectory (removelast p) fs with
      | Some fs' => Some (<[p := File buf]> fs')
      | None => None
      end
  end.

Definition readFile (p : list string) (fs : FS) : option (list byte) :=
  match fs !! p with Some (File buf) => Some buf | _ => None end.

Fixpoint strip_prefix (base p : list string) : option (list string) :=
  match base, p with
  | [], _ => Some p
  | a :: base', b :: p' => if String.eqb a b then strip_prefix base' p' else None
  | _ :: _, [] => None
  end.

(** The name of [p] when it is directly inside [base]. *)
Definition child_name (base p : list string) : option string :=
  match strip_prefix base p with
  | Some [name] => Some name
  | _ => None
  end.

(** [fs.readDirectory(uri)], the names only. *)
Definition readDirectory (base : list string) (fs : FS) : option (list string) :=
  match fs !! base with
  | Some Dir => Some (omap (child_name base) (map_to_list fs).*1)
  | _ => None
  end.

Section Cleanup.
Variable pf : Platform.
(** The paths whose deletion the host refuses (a file in use, a permission). *)
Variable locked : list string -> bool.

(** [fs.delete(uri, { recursive: true, useTrash: false })] *)
Definition delete (p : list string) (fs : FS) : option FS :=
  if locked p then None
  else match fs !! p with
       | Some _ => Some (filter (fun kv => ~ p `prefix_of` kv.1) fs)
       | None => None
       end.

(** [vscode.Uri.joinPath(base, fragment)] *)
Definition joinPath (base : Uri) (fragment : string) : Uri :=
  mkUri (scheme base) (normalize (rev (segs base)) (split (is_sep pf) fragment)).

(** [new Set(openFolders.filter((p) => p.startsWith(baseRoot.fsPath + path.sep)))] *)
Definition preserve (baseRoot : Uri) (openFolders : list Uri) : gset string :=
  list_to_set
    (List.filter (String.prefix (fsPath pf baseRoot +:+ String (sep pf) ""))
                 (map (fsPath pf) openFolders)).

(** The body of [for (const [name] of entries)]. *)
Definition cleanup_entry (baseRoot : Uri) (keep : gset string) (fs : FS) (name : string)
  : FS :=
  let child := joinPath baseRoot name in
  if decide (fsPath pf child ∈ keep) then fs
  else default fs (delete (segs child) fs).

(** [cleanupOldSessions(baseRoot)]; [openFolders] are the [uri]s of
    [vscode.workspace.workspaceFolders]. *)
Definition cleanupOldSessions (baseRoot : Uri) (openFolders : list Uri) (fs : FS) : FS :=
  let keep := preserve baseRoot openFolders in
  let entries := default [] (readDirectory (segs baseRoot) fs) in
  fold_left (cleanup_entry baseRoot keep) entries fs.

(** A name as [readDirectory] gives it: one segment, not [.] or [..]. *)
Definition is_segment (name : string) : bool :=
  bool_decide (split (is_sep pf) name = [name])
  && negb (String.eqb name "") && negb (String.eqb name ".")
  && negb (String.eqb name "..").

Lemma joinPath_segment (base : Uri) (name : string) :
  is_segment name = true ->
  joinPath base name = mkUri (scheme base) (segs base ++ [name]).
Proof.
  unfold is_segment, joinPath. intros H.
  apply andb_prop in H as [H H3]. apply andb_prop in H as [H H2].
  apply andb_prop in H as [H H1]. apply bool_decide_eq_true in H.
  apply negb_true_iff in H1, H2, H3.
  rewrite H. simpl. rewrite H1, H2, H3. simpl. by rewrite rev_involutive.
Qed.

Lemma strip_prefix_Some (base p r : list string) :
  strip_prefix base p = Some r <-> p = (base ++ r)%list.
Proof.
  revert p. induction base as [| a base IH]; intros p; simpl.
  - split; congruence.
  - destruct p as [| b p]; [done |].
    destruct (String.eqb_spec a b) as [-> | Hne].
    + rewrite IH. split; congruence.
    + split; congruence.
Qed.

Lemma child_name_Some (base p : list string) (name : string) :
  child_name base p = Some name <-> p = (base ++ [name]).
Proof.
  unfold child_name. rewrite <- strip_prefix_Some.
  destruct (strip_prefix base p) as [[| x [| y r]] |]; split; congruence.
Qed.

Lemma elem_of_readDirectory (base : list string) (fs : FS) (entries : list string)
    (name : string) :
  readDirectory base fs = Some entries ->
  name ∈ entries <-> is_Some (fs !! (base ++ [name])).
Proof.
  unfold readDirectory. destruct (fs !! base) as [[] |]; try done.
  intros [= <-]. rewrite list_elem_of_omap. split.
  - intros (k & Hk & Hn). apply child_name_Some in Hn as ->.
    apply list_elem_of_fmap in Hk as ([k x] & -> & Hk).
    apply elem_of_map_to_list in Hk. by exists x.
  - intros [x Hx]. exists (base ++ [name]). split.
    + apply list_elem_of_fmap. exists ((base ++ [name]), x). split; [done |].
      by apply elem_of_map_to_list.
    + by apply child_name_Some.
Qed.

Lemma lookup_delete_below (p k : list string) (fs fs' : FS) :
  delete p fs = Some fs' -> p `prefix_of` k -> fs' !! k = None.
Proof.
  unfold delete. destruct (locked p); [done |].
  destruct (fs !! p); [| done]. intros [= <-] Hp.
  apply map_lookup_filter_None. right. intros x _ Hn. by apply Hn.
Qed.

Lemma lookup_delete_other (p k : list string) (fs fs' : FS) :
  delete p fs = Some fs' -> ~ p `prefix_of` k -> fs' !! k = fs !! k.
Proof.
  unfold delete. destruct (locked p); [done |].
  destruct (fs !! p); [| done]. intros [= <-] Hp.
  rewrite map_lookup_filter. destruct (fs !! k) as [x |]; [| done]. simpl.
  by rewrite option_guard_True.
Qed.

Lemma delete_succeeds (p : list string) (fs : FS) :
  locked p = false -> is_Some (fs !! p) -> is_Some (delete p fs).
Proof. unfold delete. intros -> [x ->]. eauto. Qed.

(** Cleanup only removes. *)
Lemma cleanup_entry_None (base : Uri) (keep : gset string) (fs : FS) (name : string)
    (k : list string) :
  fs !! k = None -> cleanup_entry base keep fs name !! k = None.
Proof.
  intros H. unfold cleanup_entry. case_decide; [done |].
  destruct (delete _ fs) as [fs' |] eqn:E; [| done]. simpl.
  destruct (decide (segs (joinPath base name) `prefix_of` k)).
  - by eapply lookup_delete_below.
  - by erewrite lookup_delete_other.
Qed.

Lemma cleanup_fold_None (base : Uri) (keep : gset string) (entries : list string)
    (fs : FS) (k : list string) :
  fs !! k = None -> fold_left (cleanup_entry base keep) entries fs !! k = None.
Proof.
  revert fs. induction entries as [| e entries IH]; intros fs H; [done |].
  simpl. by apply IH, cleanup_entry_None.
Qed.

(** A path none of whose ancestors among the entries is deleted stays. *)
Lemma cleanup_fold_untouched (base : Uri) (keep : gset string) (entries : list string)
    (fs : FS) (k : list string) :
  (forall e, e ∈ entries -> segs (joinPath base e) `prefix_of` k ->
             fsPath pf (joinPath base e) ∈ keep) ->
  fold_left (cleanup_entry base keep) entries fs !! k = fs !! k.
Proof.
  revert fs. induction entries as [| e entries IH]; intros fs H; [done |].
  simpl. rewrite IH by (intros e' He'; apply H; by right).
  unfold cleanup_entry. case_decide as Hk; [done |].
  destruct (delete _ fs) as [fs' |] eqn:E; [| done]. simpl.
  eapply lookup_delete_other; [done |].
  intros Hp. apply Hk, H; [by left | done].
Qed.

(** An entry that is not kept, and whose deletion the host does not refuse,
    is gone with everything below it. *)
Lemma cleanup_fold_deleted (base : Uri) (keep : gset string) (entries : list string)
    (fs : FS) (name : string) (k : list string) :
  (forall e, e ∈ entries -> is_segment e = true) ->
  name ∈ entries ->
  fsPath pf (joinPath base name) ∉ keep ->
  locked (segs (joinPath base name)) = false ->
  is_Some (fs !! segs (joinPath base name)) ->
  segs (joinPath base name) `prefix_of` k ->
  fold_left (cleanup_entry base keep) entries fs !! k = None.
Proof.
  revert fs. induction entries as [| e entries IH]; intros fs Hseg Hin Hk Hl Hs Hp.
  - by apply elem_of_nil in Hin.
  - simpl. destruct (decide (e = name)) as [-> | Hne].
    + apply cleanup_fold_None. unfold cleanup_entry. rewrite decide_False by done.
      destruct (delete_succeeds _ fs Hl Hs) as [fs' E]. rewrite E. simpl.
      by eapply lookup_delete_below.
    + apply IH; try done.
      * intros e' He'. apply Hseg. by right.
      * apply elem_of_cons in Hin as [-> | Hin]; done.
      * assert (He : ~ segs (joinPath base e) `prefix_of` segs (joinPath base name)).
        { rewrite (joinPath_segment base e) by (apply Hseg; by left).
          rewrite (joinPath_segment base name) by (by apply Hseg).
          simpl. intros Hpre. apply prefix_app_inv, prefix_cons_inv_1 in Hpre. done. }
        unfold cleanup_entry. case_decide; [done |].
        destruct (delete _ fs) as [fs' |] eqn:E; [| done]. simpl.
        by erewrite lookup_delete_other.
Qed.

Lemma prefix_append (a b : string) : String.prefix a (a +:+ b) = true.
Proof.
  induction a as [| c a IH]; simpl; [by destruct b |].
  by destruct (ascii_dec c c).
Qed.

Lemma join_snoc (c : ascii) (l : list string) (x : string) :
  l <> [] -> join c (l ++ [x]) = join c l +:+ String c x.
Proof.
  induction l as [| a l IH]; [done |]. intros _.
  destruct l as [| b l]; [done |].
  change (join c ((a :: b :: l) ++ [x])) with (a +:+ String c (join c ((b :: l) ++ [x]))).
  rewrite IH by done.
  change (join c (a :: b :: l)) with (a +:+ String c (join c (b :: l))).
  rewrite !append_assoc. done.
Qed.

Lemma fsPath_child (sc sc' : string) (base : list string) (name : string) :
  base <> [] ->
  fsPath pf (mkUri sc (base ++ [name])) = fsPath pf (mkUri sc' base) +:+ String (sep pf) name.
Proof.
  intros H. destruct pf; unfold fsPath; cbn [segs sep]; by rewrite join_snoc.
Qed.

Lemma elem_of_preserve (baseRoot : Uri) (openFolders : list Uri) (name : string) :
  segs baseRoot <> [] ->
  fsPath pf (mkUri (scheme baseRoot) (segs baseRoot ++ [name])) ∈ preserve baseRoot openFolders
  <-> In (fsPath pf (mkUri (scheme baseRoot) (segs baseRoot ++ [name])))
         (map (fsPath pf) openFolders).
Proof.
  intros H. unfold preserve. rewrite elem_of_list_to_set, list_elem_of_In, filter_In.
  split; [by intros [? _] | intros Hin; split; [done |]].
  rewrite (fsPath_child _ (scheme baseRoot)) by done.
  destruct baseRoot as [sc b]; cbn [scheme segs].
  replace (fsPath pf (mkUri sc b) +:+ String (sep pf) name)
    with ((fsPath pf (mkUri sc b) +:+ String (sep pf) "") +:+ name)
    by (by rewrite append_assoc).
  apply prefix_append.
Qed.

Lemma same_child (base k : list string) (e n : string) :
  (base ++ [e]) `prefix_of` k -> (base ++ [n]) `prefix_of` k -> e = n.
Proof.
  intros He Hn.
  destruct (prefix_weak_total _ _ _ He Hn) as [H | H];
    apply prefix_app_inv, prefix_cons_inv_1 in H; done.
Qed.

(** X24.  The cleanup works on the children of the sessions root.  Every
    child that is not an open workspace folder is deleted with all it holds,
    unless the host refuses the deletion; a child that is an open workspace
    folder is left as it is, with all it holds. *)
Theorem cleanup_children (baseRoot : Uri) (openFolders : list Uri) (fs : FS)
    (name : string) (k : list string) :
  segs baseRoot <> [] ->
  fs !! segs baseRoot = Some Dir ->
  (forall n, is_Some (fs !! (segs baseRoot ++ [n])) -> is_segment n = true) ->
  is_Some (fs !! (segs baseRoot ++ [name])) ->
  (segs baseRoot ++ [name]) `prefix_of` k ->
  (~ In (fsPath pf (mkUri (scheme baseRoot) (segs baseRoot ++ [name])))
        (map (fsPath pf) openFolders) ->
   locked (segs baseRoot ++ [name]) = false ->
   cleanupOldSessions baseRoot openFolders fs !! k = None) /\
  (In (fsPath pf (mkUri (scheme baseRoot) (segs baseRoot ++ [name])))
      (map (fsPath pf) openFolders) ->
   cleanupOldSessions baseRoot openFolders fs !! k = fs !! k).
Proof.
  intros Hb Hd Hseg Hc Hk. unfold cleanupOldSessions.
  destruct (readDirectory (segs baseRoot) fs) as [entries |] eqn:E;
    [| unfold readDirectory in E; by rewrite Hd in E].
  simpl.
  assert (Hent : forall e, e ∈ entries -> is_segment e = true).
  { intros e He. apply Hseg. by apply (elem_of_readDirectory _ _ _ _ E). }
  split.
  - intros Hout Hl. apply cleanup_fold_deleted with (name := name); try done.
    + by apply (elem_of_readDirectory _ _ _ _ E).
    + rewrite joinPath_segment by (by apply Hseg). by rewrite elem_of_preserve.
    + by rewrite joinPath_segment by (by apply Hseg).
    + by rewrite joinPath_segment by (by apply Hseg).
    + by rewrite joinPath_segment by (by apply Hseg).
  - intros Hin. apply cleanup_fold_untouched. intros e He.
    rewrite joinPath_segment by (by apply Hent). simpl. intros Hpre.
    rewrite (same_child _ _ _ _ Hpre Hk). by apply elem_of_preserve.
Qed.

(** The cleanup in the words of the specification: no directory that is open
    as a workspace folder is deleted. *)
Definition never_deletes_open_folder (baseRoot : Uri) (openFolders : list Uri) (fs : FS)
  : Prop :=
  forall u, In u openFolders -> fs !! segs u = Some Dir ->
            cleanupOldSessions baseRoot openFolders fs !! segs u = Some Dir.

End Cleanup.

(** The sessions root with two old sessions; the second is open in the
    editor. *)
Definition sessions : Uri := file_uri ["tmp"; "wlbl"].
Definition old_fs : FS :=
  list_to_map
    [(["tmp"], Dir); (["tmp"; "wlbl"], Dir);
     (["tmp"; "wlbl"; "s1"], Dir); (["tmp"; "wlbl"; "s1"; "a.txt"], File []);
     (["tmp"; "wlbl"; "s2"], Dir); (["tmp"; "wlbl"; "s2"; "b.txt"], File [])].

Example cleanup_keeps_open :
  let fs' := cleanupOldSessions Posix (fun _ => false) sessions
               [file_uri ["tmp"; "wlbl"; "s2"]] old_fs in
  fs' !! ["tmp"; "wlbl"; "s1"] = None /\
  fs' !! ["tmp"; "wlbl"; "s1"; "a.txt"] = None /\
  fs' !! ["tmp"; "wlbl"; "s2"] = Some Dir /\
  fs' !! ["tmp"; "wlbl"; "s2"; "b.txt"] = Some (File []) /\
  fs' !! ["tmp"; "wlbl"] = Some Dir.
Proof. vm_compute. repeat split. Qed.

(** *** [downloadAndMaterializeWorkspace] *)

(** A parsed URL: origin, path and query. *)
Record Url : Type :=
  mkUrl { origin : string; pathname : string; searchParams : list (string * string) }.

(** [interface StartPayload] *)
Record StartPayload : Type :=
  mkPayload { student : option string; exercise : option string; token : option string }.

(** [type ManifestEntry]; [type] is whatever string the server sent. *)
Record ManifestEntry : Type :=
  mkEntry { path : string; type : string; contentBase64 : option string }.

(** What [res.json()] gives: it rejects (the body is no JSON), it resolves to
    a value that [for (const entry of manifest)] cannot iterate (an object, a
    number, [null]), or it resolves to an array.  The elements of the array
    are taken to have the shape that [ManifestEntry] declares. *)
Inductive Json : Type :=
| JsonRejects
| JsonNoArray
| JsonArray (manifest : list ManifestEntry).

(** What [fetch] resolves to: the status and the body. *)
Record Response : Type := mkResponse { status : Z; json : Json }.

(** [res.ok] *)
Definition ok (res : Response) : bool := (200 <=? status res)%Z && (status res <=? 299)%Z.

(** [url.searchParams.set(name, value)]: the first pair of that name takes the
    value and the others go; without one the pair is appended. *)
Fixpoint set_first (name value : string) (l : list (string * string))
  : list (string * string) :=
  match l with
  | [] => []
  | kv :: rest =>
      if String.eqb kv.1 name
      then (name, value) :: List.filter (fun kv => negb (String.eqb kv.1 name)) rest
      else kv :: set_first name value rest
  end.

Definition searchParams_set (name value : string) (l : list (string * string))
  : list (string * string) :=
  if existsb (fun kv => String.eqb kv.1 name) l then set_first name value l
  else l ++ [(name, value)].

(** [if (payload.f) url.searchParams.set(name, payload.f)]: an absent or empty
    field is not sent. *)
Definition set_if (name : string) (field : option string) (l : list (string * string))
  : list (string * string) :=
  match field with
  | Some v => if String.eqb v "" then l else searchParams_set name v l
  | None => l
  end.

(** The URL of the GET: [url.pathname = '/manifest'] on [new URL(serverUrl)],
    then the three fields. *)
Definition manifest_url (base : Url) (payload : StartPayload) : Url :=
  mkUrl (origin base) "/manifest"
        (set_if "token" (token payload)
           (set_if "exercise" (exercise payload)
              (set_if "student" (student payload) (searchParams base)))).

(** Why a start from a link stops; [handleUri] shows it in one error
    message. *)
Inductive Failure : Type :=
| MissingServer
| InvalidUrl
| FetchRejected
| FetchFailed (status : Z)
| DecodeFailed
| NotIterable
| WriteFailed (target : Uri).

(** The local files and the GETs issued so far. *)
Record World : Type := mkWorld { files : FS; requests : list Url }.

Section Materialize.
Variable pf : Platform.
Variable locked : list string -> bool.
(** [vscode.workspace.workspaceFolders] and [os.tmpdir()]. *)
Variable openFolders : list Uri.
Variable tmpdir : Uri.
(** [${Date.now()}-${Math.random().toString(36).slice(2, 8)}] *)
Variable unique : string.
(** [new URL(serverUrl)], [None] when it throws. *)
Variable parse_url : string -> option Url.
(** The answer to a GET, [None] when [fetch] rejects. *)
Variable fetch : Url -> option Response.
(** [Buffer.from(JSON.stringify(config, null, 2), 'utf8')] *)
Variable config_bytes : string -> StartPayload -> list byte.
(** The bytes of [settings.json] with [**/.vscode] added to [files.exclude];
    the argument is the file as it was, if it could be read. *)
Variable settings_bytes : option (list byte) -> list byte.

(** [writeFileFromBase64(target, base64)] *)
Definition writeFileFromBase64 (target : Uri) (base64 : string) (fs : FS) : option FS :=
  writeFile (segs target) (from_base64 base64) fs.

(** [entry.contentBase64 || ''] *)
Definition or_empty (field : option string) : string := default "" field.

(** [vscode.Uri.file(path.dirname(target.fsPath))] *)
Definition dirname (target : Uri) : Uri := file_uri (removelast (segs target)).

(** The body of [for (const entry of manifest)]: [inr] the files after the
    entry, or [inl] the files as they are when [writeFile] throws. *)
Definition materialize_entry (workspaceRoot : Uri) (fs : FS) (entry : ManifestEntry)
  : FS + FS :=
  let target := joinPath pf workspaceRoot (path entry) in
  if String.eqb (type entry) "directory" then inr (ensureDir target fs)
  else
    let fs1 := ensureDir (dirname target) fs in
    match writeFileFromBase64 target (or_empty (contentBase64 entry)) fs1 with
    | Some fs2 => inr fs2
    | None => inl fs1
    end.

(** The loop over the manifest; it stops at the first entry that cannot be
    written. *)
Fixpoint materialize_entries (workspaceRoot : Uri) (manifest : list ManifestEntry) (fs : FS)
  : (Uri * FS) + FS :=
  match manifest with
  | [] => inr fs
  | entry :: rest =>
      match materialize_entry workspaceRoot fs entry with
      | inr fs' => materialize_entries workspaceRoot rest fs'
      | inl fs' => inl (joinPath pf workspaceRoot (path entry), fs')
      end
  end.

Definition downloadAndMaterializeWorkspace (serverUrl : string) (payload : StartPayload)
    (w : World) : (Failure + Uri) * World :=
  match parse_url serverUrl with
  | None => (inl InvalidUrl, w)
  | Some base =>
      let url := manifest_url base payload in
      let gets := requests w ++ [url] in
      match fetch url with
      | None => (inl FetchRejected, mkWorld (files w) gets)
      | Some res =>
          if negb (ok res) then (inl (FetchFailed (status res)), mkWorld (files w) gets)
          else
            match json res with
            | JsonRejects => (inl DecodeFailed, mkWorld (files w) gets)
            | body =>
                let sessionsRoot := joinPath pf tmpdir "workspace-launch-by-link" in
                let fs1 := ensureDir sessionsRoot (files w) in
                let fs2 := cleanupOldSessions pf locked sessionsRoot openFolders fs1 in
                let folderName :=
                  "session-" +:+ unique +:+ "-" +:+ default "unknown" (exercise payload) in
                let workspaceRoot := joinPath pf sessionsRoot folderName in
                let fs3 := ensureDir workspaceRoot fs2 in
                match body with
                | JsonArray manifest =>
                    match materialize_entries workspaceRoot manifest fs3 with
                    | inl (target, fs4) => (inl (WriteFailed target), mkWorld fs4 gets)
                    | inr fs4 =>
                        let vscodeDir := joinPath pf workspaceRoot ".vscode" in
                        let fs5 := ensureDir vscodeDir fs4 in
                        let markerUri :=
                          joinPath pf vscodeDir "workspace-launch-by-link.json" in
                        match writeFile (segs markerUri) (config_bytes serverUrl payload) fs5
                        with
                        | None => (inl (WriteFailed markerUri), mkWorld fs5 gets)
                        | Some fs6 =>
                            let settingsUri := joinPath pf vscodeDir "settings.json" in
                            let fs7 :=
                              default fs6
                                (writeFile (segs settingsUri)
                                   (settings_bytes (readFile (segs settingsUri) fs6)) fs6) in
                            (inr workspaceRoot, mkWorld fs7 gets)
                        end
                    end
                | _ => (inl NotIterable, mkWorld fs3 gets)
                end
            end
      end
  end.

(** [params.get(name)] of [URLSearchParams]: the first value of that name. *)
Definition params_get (name : string) (params : list (string * string)) : option string :=
  snd <$> List.find (fun kv => String.eqb kv.1 name) params.

(** [params.get(name) || undefined] *)
Definition get_nonempty (name : string) (params : list (string * string)) : option string :=
  match params_get name params with
  | Some v => if String.eqb v "" then None else Some v
  | None => None
  end.

(** [parseInvokeUri(uri)] on the query of the link; [None] when it throws for
    want of [server]. *)
Definition parseInvokeUri (params : list (string * string))
  : option (string * StartPayload) :=
  match get_nonempty "server" params with
  | Some server =>
      Some (server, mkPayload (get_nonempty "student" params)
                              (get_nonempty "exercise" params)
                              (get_nonempty "token" params))
  | None => None
  end.

(** [handleUri]: [parseInvokeUri], then [startSync], which materializes and
    opens the folder; whatever is thrown ends in [showErrorMessage].  There
    is no second attempt. *)
Definition handleUri (params : list (string * string)) (w : World)
  : (Failure + Uri) * World :=
  match parseInvokeUri params with
  | Some (serverUrl, payload) => downloadAndMaterializeWorkspace serverUrl payload w
  | None => (inl MissingServer, w)
  end.

Lemma In_set_first (name value : string) (l : list (string * string)) :
  existsb (fun kv => String.eqb kv.1 name) l = true ->
  In (name, value) (set_first name value l).
Proof.
  induction l as [| kv l IH]; simpl; [done |].
  destruct (String.eqb kv.1 name); simpl; [by left | by right; apply IH].
Qed.

Lemma In_set_first_other (name value k x : string) (l : list (string * string)) :
  k <> name -> In (k, x) l -> In (k, x) (set_first name value l).
Proof.
  intros Hne. induction l as [| kv l IH]; simpl; [done |].
  intros [-> | Hin]; simpl.
  - destruct (String.eqb_spec k name); [done | by left].
  - destruct (String.eqb kv.1 name); simpl.
    + right. apply filter_In. split; [done |]. simpl.
      by destruct (String.eqb_spec k name).
    + right. by apply IH.
Qed.

Lemma In_searchParams_set (name value : string) (l : list (string * string)) :
  In (name, value) (searchParams_set name value l).
Proof.
  unfold searchParams_set.
  destruct (existsb _ l) eqn:E; [by apply In_set_first |].
  apply in_or_app. right. by left.
Qed.

Lemma In_searchParams_set_other (name value k x : string) (l : list (string * string)) :
  k <> name -> In (k, x) l -> In (k, x) (searchParams_set name value l).
Proof.
  intros Hne Hin. unfold searchParams_set.
  destruct (existsb _ l); [by apply In_set_first_other |].
  apply in_or_app. by left.
Qed.

Lemma In_set_if (name v : string) (l : list (string * string)) :
  v <> "" -> In (name, v) (set_if name (Some v) l).
Proof.
  intros Hv. simpl. destruct (String.eqb_spec v ""); [done |].
  apply In_searchParams_set.
Qed.

Lemma In_set_if_other (name k x : string) (field : option string)
    (l : list (string * string)) :
  k <> name -> In (k, x) l -> In (k, x) (set_if name field l).
Proof.
  intros Hne Hin. destruct field as [v |]; simpl; [| done].
  destruct (String.eqb v ""); [done |]. by apply In_searchParams_set_other.
Qed.

Lemma ok_false (res : Response) :
  ok res = false <-> ~ (200 <= status res <= 299)%Z.
Proof. unfold ok. rewrite andb_false_iff, !Z.leb_gt. lia. Qed.

(** X25.  One GET, and no retry.  When the server URL parses, a
    materialization issues exactly one GET, whatever happens next: to the path
    [/manifest] on the origin of the base URL, with each identity field that
    is present and not empty as a query parameter.  On an answer that is not
    2xx it fails with the fetch error of that status, with no second request
    and the local files as they were (no session root, no file); so does the
    start from a link that called it, which only reports the error. *)
Theorem manifest_fetch_once (serverUrl : string) (payload : StartPayload) (w : World)
    (base : Url) :
  parse_url serverUrl = Some base ->
  requests (downloadAndMaterializeWorkspace serverUrl payload w).2
    = requests w ++ [manifest_url base payload] /\
  origin (manifest_url base payload) = origin base /\
  pathname (manifest_url base payload) = "/manifest" /\
  (forall v, v <> "" ->
     (student payload = Some v -> In ("student", v) (searchParams (manifest_url base payload))) /\
     (exercise payload = Some v -> In ("exercise", v) (searchParams (manifest_url base payload))) /\
     (token payload = Some v -> In ("token", v) (searchParams (manifest_url base payload)))) /\
  (forall res,
     fetch (manifest_url base payload) = Some res ->
     ~ (200 <= status res <= 299)%Z ->
     downloadAndMaterializeWorkspace serverUrl payload w =
     (inl (FetchFailed (status res)),
      mkWorld (files w) (requests w ++ [manifest_url base payload])) /\
     forall params,
       parseInvokeUri params = Some (serverUrl, payload) ->
       handleUri params w =
       (inl (FetchFailed (status res)),
        mkWorld (files w) (requests w ++ [manifest_url base payload]))).
Proof.
  intros Hp. split; [| split; [done | split; [done | split]]].
  - unfold downloadAndMaterializeWorkspace. rewrite Hp.
    destruct (fetch _) as [res |]; [| done].
    destruct (negb (ok res)); [done |].
    destruct (json res) as [| | manifest]; [done | done |].
    destruct (materialize_entries _ _ _) as [[target fs4] | fs4]; [done |].
    by destruct (writeFile _ _ _).
  - intros v Hv. unfold manifest_url; cbn [searchParams]. repeat split.
    + intros ->. do 2 (apply In_set_if_other; [done |]). by apply In_set_if.
    + intros ->. apply In_set_if_other; [done |]. by apply In_set_if.
    + intros ->. by apply In_set_if.
  - intros res Hf Hs. apply ok_false in Hs.
    assert (H : downloadAndMaterializeWorkspace serverUrl payload w =
                (inl (FetchFailed (status res)),
                 mkWorld (files w) (requests w ++ [manifest_url base payload])))
      by (unfold downloadAndMaterializeWorkspace; by rewrite Hp, Hf, Hs).
    split; [exact H |]. intros params Hq. unfold handleUri. by rewrite Hq.
Qed.

Lemma lookup_mkdirs (ds : list (list string)) (fs : FS) (k : list string) :
  foldr (fun d m => <[d := Dir]> m) fs ds !! k =
  if decide (k ∈ ds) then Some Dir else fs !! k.
Proof.
  induction ds as [| d ds IH]; cbn [foldr].
  - by destruct (decide (k ∈ [])) as [H%elem_of_nil |].
  - destruct (decide (k = d)) as [-> | Hne].
    + rewrite lookup_insert_eq. by rewrite decide_True by (by left).
    + rewrite lookup_insert_ne by done. rewrite IH.
      destruct (decide (k ∈ ds)).
      * by rewrite decide_True by (by right).
      * rewrite decide_False; [done |]. by intros [-> | ?]%elem_of_cons.
Qed.

Lemma inits_length (p d : list string) : d ∈ inits p -> length d <= length p.
Proof.
  revert d. induction p as [| a p IH]; intros d; simpl.
  - intros ->%list_elem_of_singleton. done.
  - intros [-> | H]%elem_of_cons; simpl; [lia |].
    apply list_elem_of_fmap in H as (d' & -> & Hd'). simpl.
    apply IH in Hd'. lia.
Qed.

Lemma removelast_shorter (p : list string) :
  p <> [] -> length (removelast p) < length p.
Proof.
  induction p as [| a p IH]; [done |]. intros _.
  destruct p as [| b p]; simpl in *; [lia |].
  specialize (IH ltac:(done)). lia.
Qed.

Lemma createDirectory_free (p : list string) (fs : FS) :
  (forall d, d ∈ inits p -> is_file fs d = false) ->
  createDirectory p fs = Some (foldr (fun d m => <[d := Dir]> m) fs (inits p)).
Proof.
  intros H. unfold createDirectory.
  replace (existsb (is_file fs) (inits p)) with false; [done |].
  symmetry. apply not_true_is_false. intros Hex.
  apply existsb_exists in Hex as (d & Hd & Hf).
  apply list_elem_of_In in Hd. by rewrite H in Hf.
Qed.

(** C10, as the code has it.  A manifest entry of type [file] without
    [contentBase64] is materialized like one whose content is the empty
    string: where the target can be written (it is not a directory and no file
    is in the way of its parent), the entry is written as a file of zero bytes
    and the loop goes on. *)
Theorem missing_content_is_empty_file (workspaceRoot : Uri) (fs : FS) (p : string) :
  segs (joinPath pf workspaceRoot p) <> [] ->
  fs !! segs (joinPath pf workspaceRoot p) <> Some Dir ->
  (forall d, d ∈ inits (removelast (segs (joinPath pf workspaceRoot p))) ->
             is_file fs d = false) ->
  materialize_entry workspaceRoot fs (mkEntry p "file" None)
    = materialize_entry workspaceRoot fs (mkEntry p "file" (Some "")) /\
  exists fs',
    materialize_entry workspaceRoot fs (mkEntry p "file" None) = inr fs' /\
    fs' !! segs (joinPath pf workspaceRoot p) = Some (File []) /\
    forall rest, materialize_entries workspaceRoot (mkEntry p "file" None :: rest) fs
                 = materialize_entries workspaceRoot rest fs'.
Proof.
  intros Hne Hd Hfree. split; [done |].
  set (target := joinPath pf workspaceRoot p) in *.
  set (parent := removelast (segs target)) in *.
  set (fs1 := foldr (fun d m => <[d := Dir]> m) fs (inits parent)).
  assert (Hnot : segs target ∉ inits parent).
  { intros Hin%inits_length. pose proof (removelast_shorter _ Hne). unfold parent in *. lia. }
  assert (H1 : ensureDir (dirname target) fs = fs1).
  { unfold ensureDir, dirname. cbn [segs file_uri]. by rewrite createDirectory_free. }
  assert (H2 : createDirectory parent fs1 = Some (foldr (fun d m => <[d := Dir]> m) fs1 (inits parent))).
  { apply createDirectory_free. intros d Hin. unfold is_file, fs1.
    rewrite lookup_mkdirs. by rewrite decide_True. }
  assert (H3 : materialize_entry workspaceRoot fs (mkEntry p "file" None) =
               inr (<[segs target := File []]>
                       (foldr (fun d m => <[d := Dir]> m) fs1 (inits parent)))).
  { unfold materialize_entry. cbn [type path contentBase64 String.eqb Ascii.eqb Bool.eqb].
    fold target. rewrite H1. unfold writeFileFromBase64, writeFile, or_empty. simpl default.
    replace (fs1 !! segs target) with (fs !! segs target)
      by (unfold fs1; rewrite lookup_mkdirs; by rewrite decide_False).
    fold parent. rewrite H2.
    change (from_base64 "") with (@nil byte).
    by destruct (fs !! segs target) as [[] |]. }
  eexists. split; [exact H3 |]. split.
  - by rewrite lookup_insert_eq.
  - intros rest. cbn [materialize_entries]. by rewrite H3.
Qed.

End Materialize.

(** [serverUrl + '/manifest'], as the comment above the function and the
    specification ([<baseUrl>/manifest]) have it: the path of the base URL,
    without a slash at its end, followed by [/manifest]. *)
Fixpoint strip_trailing_slash (s : string) : string :=
  match s with
  | "" => ""
  | String c s' =>
      if String.eqb s' "" && Ascii.eqb c "/" then ""
      else String c (strip_trailing_slash s')
  end.

Definition spec_manifest_pathname (base : Url) : string :=
  strip_trailing_slash (pathname base) +:+ "/manifest".

Definition get_is_to_base_manifest : Prop :=
  forall base payload, pathname (manifest_url base payload) = spec_manifest_pathname base.

(** That is not so for a base URL with a path. *)
Lemma get_replaces_base_path : ~ get_is_to_base_manifest.
Proof.
  intros H.
  specialize (H (mkUrl "https://example.com" "/api" []) (mkPayload None None None)).
  discriminate H.
Qed.

(** The mock server's answer to any GET: one file with content, one without,
    one directory. *)
Definition mock_manifest : list ManifestEntry :=
  [mkEntry "src/" "directory" None;
   mkEntry "a.txt" "file" (Some "aGk=");
   mkEntry "src/empty.txt" "file" None].

Definition mock_run : (Failure + Uri) * World :=
  downloadAndMaterializeWorkspace Posix (fun _ => false) [] (file_uri ["tmp"]) "1-abc"
    (fun s => Some (mkUrl s "/" []))
    (fun _ => Some (mkResponse 200 (JsonArray mock_manifest)))
    (fun _ _ => []) (fun _ => [])
    "http://localhost:8787" (mkPayload (Some "alice") (Some "demo") None)
    (mkWorld {[ ["tmp"] := Dir ]} []).

Example mock_run_result :
  mock_run.1 = inr (file_uri ["tmp"; "workspace-launch-by-link"; "session-1-abc-demo"]) /\
  requests mock_run.2 =
    [mkUrl "http://localhost:8787" "/manifest" [("student", "alice"); ("exercise", "demo")]] /\
  files mock_run.2 !! ["tmp"; "workspace-launch-by-link"; "session-1-abc-demo"; "a.txt"]
    = Some (File ["h"; "i"]%byte) /\
  files mock_run.2 !! ["tmp"; "workspace-launch-by-link"; "session-1-abc-demo"; "src"]
    = Some Dir /\
  files mock_run.2
    !! ["tmp"; "workspace-launch-by-link"; "session-1-abc-demo"; "src"; "empty.txt"]
    = Some (File []).
Proof. vm_compute. repeat split. Qed.

Lemma manifest_fetch_once_witness :
  downloadAndMaterializeWorkspace Posix (fun _ => false) [] (file_uri ["tmp"]) "1-abc"
    (fun s => Some (mkUrl s "/" [])) (fun _ => Some (mkResponse 404 JsonRejects))
    (fun _ _ => []) (fun _ => [])
    "http://localhost:8787" (mkPayload (Some "alice") None None)
    (mkWorld {[ ["tmp"] := Dir ]} [])
  = (inl (FetchFailed 404),
     mkWorld {[ ["tmp"] := Dir ]}
       [mkUrl "http://localhost:8787" "/manifest" [("student", "alice")]]).
Proof.
  refine (proj1 (proj2 (proj2 (proj2 (proj2
            (manifest_fetch_once Posix (fun _ => false) [] (file_uri ["tmp"]) "1-abc"
               (fun s => Some (mkUrl s "/" [])) (fun _ => Some (mkResponse 404 JsonRejects))
               (fun _ _ => []) (fun _ => [])
               "http://localhost:8787" (mkPayload (Some "alice") None None)
               (mkWorld {[ ["tmp"] := Dir ]} []) _ eq_refl))))
            (mkResponse 404 JsonRejects) eq_refl _)).
  simpl. lia.
Defined.

Example handleUri_not_found :
  handleUri Posix (fun _ => false) [] (file_uri ["tmp"]) "1-abc"
    (fun s => Some (mkUrl s "/" [])) (fun _ => Some (mkResponse 404 JsonRejects))
    (fun _ _ => []) (fun _ => [])
    [("server", "http://localhost:8787"); ("student", "alice"); ("token", "")]
    (mkWorld ∅ [])
  = (inl (FetchFailed 404),
     mkWorld ∅ [mkUrl "http://localhost:8787" "/manifest" [("student", "alice")]]).
Proof. reflexivity. Qed.

(** A 2xx answer whose body is JSON but no array: the loop over the manifest
    throws, after the sessions root and the session folder were made. *)
Example handleUri_not_iterable :
  (handleUri Posix (fun _ => false) [] (file_uri ["tmp"]) "1-abc"
     (fun s => Some (mkUrl s "/" [])) (fun _ => Some (mkResponse 200 JsonNoArray))
     (fun _ _ => []) (fun _ => [])
     [("server", "http://localhost:8787"); ("exercise", "demo")]
     (mkWorld {[ ["tmp"] := Dir ]} [])).1
  = inl NotIterable /\
  files
    (handleUri Posix (fun _ => false) [] (file_uri ["tmp"]) "1-abc"
       (fun s => Some (mkUrl s "/" [])) (fun _ => Some (mkResponse 200 JsonNoArray))
       (fun _ _ => []) (fun _ => [])
       [("server", "http://localhost:8787"); ("exercise", "demo")]
       (mkWorld {[ ["tmp"] := Dir ]} [])).2
    !! ["tmp"; "workspace-launch-by-link"; "session-1-abc-demo"]
  = Some Dir.
Proof. split; vm_compute; reflexivity. Qed.

Lemma missing_content_is_empty_file_witness :
  exists fs',
    materialize_entry Posix (file_uri ["tmp"; "ws"]) {[ ["tmp"] := Dir ]}
      (mkEntry "empty.txt" "file" None) = inr fs' /\
    fs' !! ["tmp"; "ws"; "empty.txt"] = Some (File []).
Proof.
  destruct (missing_content_is_empty_file Posix (file_uri ["tmp"; "ws"])
              {[ ["tmp"] := Dir ]} "empty.txt") as [_ (fs' & H1 & H2 & _)].
  - discriminate.
  - vm_compute. discriminate.
  - intros d Hd. apply list_elem_of_In in Hd. simpl in Hd.
    destruct Hd as [<- | [<- | [<- | []]]]; reflexivity.
  - exists fs'. split; [exact H1 | exact H2].
Defined.

Lemma cleanup_children_witness :
  cleanupOldSessions Posix (fun _ => false) sessions
    [file_uri ["tmp"; "wlbl"; "s2"]] old_fs !! ["tmp"; "wlbl"; "s2"; "b.txt"]
  = old_fs !! ["tmp"; "wlbl"; "s2"; "b.txt"].
Proof.
  refine (proj2 (cleanup_children Posix (fun _ => false) sessions
                   [file_uri ["tmp"; "wlbl"; "s2"]] old_fs "s2"
                   ["tmp"; "wlbl"; "s2"; "b.txt"] _ _ _ _ _) _).
  - discriminate.
  - vm_compute. reflexivity.
  - intros n [x Hx].
    assert (Hn : n = "s1" \/ n = "s2").
    { apply elem_of_list_to_map_2, list_elem_of_In in Hx. simpl in Hx.
      intuition congruence. }
    destruct Hn as [-> | ->]; vm_compute; reflexivity.
  - vm_compute. eauto.
  - by exists ["b.txt"].
  - simpl. by left.
Defined.

(** A start with the manifest the server answers. *)
Definition start_with (openFolders : list Uri) (unique : string) (exercise : string)
    (manifest : list ManifestEntry) (w : World) : (Failure + Uri) * World :=
  downloadAndMaterializeWorkspace Posix (fun _ => false) openFolders (file_uri ["tmp"]) unique
    (fun s => Some (mkUrl s "/" []))
    (fun _ => Some (mkResponse 200 (JsonArray manifest)))
    (fun _ _ => []) (fun _ => [])
    "http://localhost:8787" (mkPayload (Some "alice") (Some exercise) None) w.

(** A first start for the exercise [y2024/week1].  The name of the session
    folder has a separator in it, so the folder that is made and then opened
    lies two levels below the sessions root. *)
Definition nested_start : (Failure + Uri) * World :=
  start_with [] "1-abc" "y2024/week1" mock_manifest (mkWorld {[ ["tmp"] := Dir ]} []).

Definition nested_root : Uri :=
  file_uri ["tmp"; "workspace-launch-by-link"; "session-1-abc-y2024"; "week1"].

(** The next start from a link, in the window that has [nested_root] open. *)
Definition next_start : (Failure + Uri) * World :=
  start_with [nested_root] "2-def" "demo" mock_manifest nested_start.2.

(** C7, at the input where the code departs from it.  The first start makes
    the session folder [session-1-abc-y2024/week1] and the editor opens it.
    At the next start that folder is an open workspace folder below the
    sessions root, and [preserve] holds its path; but the loop compares only
    the children of the sessions root with [preserve], so it deletes
    [session-1-abc-y2024] and with it the folder that is open. *)
Theorem open_session_folder_is_deleted :
  nested_start.1 = inr nested_root /\
  files nested_start.2 !! segs nested_root = Some Dir /\
  fsPath Posix nested_root
    ∈ preserve Posix (file_uri ["tmp"; "workspace-launch-by-link"]) [nested_root] /\
  next_start.1 = inr (file_uri ["tmp"; "workspace-launch-by-link"; "session-2-def-demo"]) /\
  files next_start.2 !! segs nested_root = None /\
  files next_start.2 !! (segs nested_root ++ ["a.txt"]) = None.
Proof.
  split; [vm_compute; reflexivity |]. split; [vm_compute; reflexivity |].
  split; [| split; [vm_compute; reflexivity | split; vm_compute; reflexivity]].
  unfold preserve. apply elem_of_list_to_set, list_elem_of_In. vm_compute. by left.
Qed.

(** C9, at the input where the code departs from it.  The comment above the
    function says [GET serverUrl + '/manifest'], which for the server URL
    [https://example.com/api] is [https://example.com/api/manifest]; the
    assignment [url.pathname = '/manifest'] replaces the path of the server
    URL, and the one GET that is issued goes to
    [https://example.com/manifest]. *)
Theorem manifest_get_drops_base_path :
  spec_manifest_pathname (mkUrl "https://example.com" "/api" []) = "/api/manifest" /\
  requests
    (downloadAndMaterializeWorkspace Posix (fun _ => false) [] (file_uri ["tmp"]) "1-abc"
       (fun _ => Some (mkUrl "https://example.com" "/api" [])) (fun _ => None)
       (fun _ _ => []) (fun _ => [])
       "https://example.com/api" (mkPayload (Some "alice") None None) (mkWorld ∅ [])).2
  = [mkUrl "https://example.com" "/manifest" [("student", "alice")]].
Proof. split; reflexivity. Qed.

(** C10 as stated fails where the target of the entry cannot be written as a
    file.  An entry with the empty path names the session folder itself, and
    an entry [src] that comes after [src/a.txt] names a directory: in both
    cases [writeFile] throws and the materialization fails at that entry. *)
Lemma missing_content_fails_on_directory :
  (start_with [] "1-abc" "demo" [mkEntry "" "file" None]
              (mkWorld {[ ["tmp"] := Dir ]} [])).1
  = inl (WriteFailed (file_uri ["tmp"; "workspace-launch-by-link"; "session-1-abc-demo"])) /\
  (start_with [] "1-abc" "demo" [mkEntry "src/a.txt" "file" None; mkEntry "src" "file" None]
              (mkWorld {[ ["tmp"] := Dir ]} [])).1
  = inl (WriteFailed
           (file_uri ["tmp"; "workspace-launch-by-link"; "session-1-abc-demo"; "src"])).
Proof. split; vm_compute; reflexivity. Qed.

(** The user has opened a folder inside an old session. *)
Definition nested_fs : FS :=
  list_to_map
    [(["tmp"], Dir); (["tmp"; "wlbl"], Dir);
     (["tmp"; "wlbl"; "s1"], Dir); (["tmp"; "wlbl"; "s1"; "src"], Dir);
     (["tmp"; "wlbl"; "s1"; "src"; "main.py"], File [])].

(** The open workspace folder [s1/src] goes with the child [s1] of the
    sessions root, which is not itself open. *)
Lemma cleanup_deletes_nested_open_folder :
  ~ never_deletes_open_folder Posix (fun _ => false) sessions
      [file_uri ["tmp"; "wlbl"; "s1"; "src"]] nested_fs.
Proof.
  intros H.
  specialize (H (file_uri ["tmp"; "wlbl"; "s1"; "src"]) (or_introl eq_refl)).
  vm_compute in H. specialize (H eq_refl). discriminate H.
Qed.

End Materializer.

(** ** The failure indicator of the queue ([showError], [clearError]) *)

Module Indicator.
Import RetryQueue.

(** What the code sets on its [vscode.StatusBarItem]. *)
Record StatusBarItem : Type :=
  mkItem { text : string; tooltip : string; shown : bool }.

(** The field [errorItem], and how often [createStatusBarItem] was called
    for it. *)
Record Bar : Type := mkBar { errorItem : option StatusBarItem; created : nat }.

Definition no_bar : Bar := mkBar None 0.

Definition error_text : string := "$(error) Workspace Launch by Link Error"%string.

(** [private async showError(message)] *)
Definition showError (message : string) (b : Bar) : Bar :=
  match errorItem b with
  | None => mkBar (Some (mkItem error_text message true)) (S (created b))
  | Some it => mkBar (Some (mkItem (text it) message true)) (created b)
  end.

(** [private async clearError()] *)
Definition clearError (b : Bar) : Bar :=
  match errorItem b with
  | Some it => mkBar (Some (mkItem (text it) (tooltip it) false)) (created b)
  | None => b
  end.

(** The message of the [catch] block; [err] is [err?.message ?? err]. *)
Definition retry_message (err : string) : string :=
  ("送信失敗。再試行します: " ++ err)%string.

Section Replay.
Context {Task : Type}.
(** What the [k]-th rejected attempt of the run was rejected with. *)
Variable err : nat -> string.

(** The rejections logged so far. *)
Definition failures (tr : list (Event (Task := Task))) : nat :=
  length (List.filter (fun e => match e with EFailure _ => true | _ => false end) tr).

(** [run] calls [clearError] as soon as the task has resolved and
    [showError] as soon as it has rejected, before it suspends again: the
    bar follows the log. *)
Definition bar_step (bk : Bar * nat) (e : Event (Task := Task)) : Bar * nat :=
  match e with
  | ESuccess _ => (clearError bk.1, bk.2)
  | EFailure _ => (showError (retry_message (err bk.2)) bk.1, S bk.2)
  | _ => bk
  end.

Definition bar_after (tr : list (Event (Task := Task))) : Bar :=
  (fold_left bar_step tr (no_bar, 0)).1.

(** The last attempt that settled was rejected. *)
Definition failing (tr : list (Event (Task := Task))) : bool :=
  fold_left (fun f e => match e with
                        | ESuccess _ => false
                        | EFailure _ => true
                        | _ => f
                        end) tr false.

(** What the bar is after a log. *)
Definition bar_ok (tr : list (Event (Task := Task))) (bk : Bar * nat) : Prop :=
  bk.2 = failures tr /\
  created bk.1 <= 1 /\
  (created bk.1 = 0 <-> errorItem bk.1 = None) /\
  (failing tr = false -> forall it, errorItem bk.1 = Some it ->
                                    text it = error_text /\ shown it = false) /\
  (failing tr = true -> exists k, failures tr = S k /\
     errorItem bk.1 = Some (mkItem error_text (retry_message (err k)) true)).

Lemma failures_snoc (tr : list (Event (Task := Task))) (e : Event) :
  failures (tr ++ [e]) =
  match e with EFailure _ => S (failures tr) | _ => failures tr end.
Proof.
  unfold failures. rewrite List.filter_app, length_app.
  destruct e; simpl; lia.
Qed.

Lemma failing_snoc (tr : list (Event (Task := Task))) (e : Event) :
  failing (tr ++ [e]) =
  match e with ESuccess _ => false | EFailure _ => true | _ => failing tr end.
Proof. unfold failing. by rewrite fold_left_app. Qed.

Lemma fold_bar_ok (tr : list (Event (Task := Task))) :
  bar_ok tr (fold_left bar_step tr (no_bar, 0)).
Proof.
  induction tr as [| e tr IH] using rev_ind.
  - repeat split; simpl; try done; try lia.
  - rewrite fold_left_app. simpl.
    destruct (fold_left bar_step tr (no_bar, 0)) as [[item n] k].
    destruct IH as (Hk & Hc & Hn & Hs & Hf). simpl in *.
    assert (Ht : forall it, item = Some it -> text it = error_text).
    { intros it ->. destruct (failing tr) eqn:E.
      - destruct (Hf eq_refl) as (k' & _ & [= ->]). done.
      - by destruct (Hs eq_refl it eq_refl). }
    unfold bar_ok. rewrite failures_snoc, failing_snoc.
    destruct e as [t | t | t | t d]; simpl;
      try exact (conj Hk (conj Hc (conj Hn (conj Hs Hf)))).
    + (* success: [clearError] *)
      unfold clearError; simpl. destruct item as [it |]; simpl.
      * split; [done |]. split; [done |]. split; [| split].
        -- split; [by intros ?%Hn | done].
        -- intros _ it' [= <-]. simpl. split; [by apply Ht | done].
        -- done.
      * split; [done |]. split; [done |]. split; [done |]. split; done.
    + (* failure: [showError] *)
      unfold showError; simpl. subst k.
      destruct item as [it |]; simpl.
      * split; [done |]. split; [done |]. split; [| split].
        -- split; [by intros ?%Hn | done].
        -- done.
        -- intros _. exists (failures tr). by rewrite (Ht it eq_refl).
      * assert (n = 0) by (by apply Hn). subst n.
        split; [done |]. split; [lia |]. split; [| split].
        -- split; done.
        -- done.
        -- intros _. by exists (failures tr).
Qed.

(** Where the loop stands tells how the last attempt ended. *)
Lemma exec_failing (acts : list (Action (Task := Task))) :
  match loops (exec acts init) with
  | [] => failing (trace (exec acts init)) = false
  | [l] =>
      match pc l with
      | AwaitClearError => failing (trace (exec acts init)) = false
      | AwaitShowError | AwaitTimer => failing (trace (exec acts init)) = true
      | AwaitTask => True
      end
  | _ => True
  end.
Proof.
  induction acts as [| a acts IH] using rev_ind; [done |].
  rewrite exec_snoc.
  destruct (exec_Inv acts) as [tr Hc Hr | q [p t d] tr Hc Hd]; simpl in *.
  - destruct a as [t | i | i | i]; simpl; try done.
  - destruct a as [t' | [| i] | [| i] | [| i]]; simpl; try done.
    + destruct p; simpl; try done. by rewrite failing_snoc.
    + destruct p; simpl; try done. by rewrite failing_snoc.
    + destruct p; simpl; try done.
      * unfold while_head; simpl. destruct q; simpl; [done | done].
      * by rewrite failing_snoc.
Qed.

(** X1.  The queue has one failure indicator.  Over any run the status bar
    item is created at most once and always carries the same text; while the
    loop is between a rejected attempt and its retry the item is shown with
    the message of the latest rejection; and once the queue is idle, or the
    task in hand has just resolved, the item is hidden. *)
Theorem one_failure_indicator (acts : list (Action (Task := Task))) :
  created (bar_after (trace (exec acts init))) <= 1 /\
  (forall it, errorItem (bar_after (trace (exec acts init))) = Some it ->
              text it = error_text) /\
  (forall l, l ∈ loops (exec acts init) ->
             pc l = AwaitShowError \/ pc l = AwaitTimer ->
             exists k, failures (trace (exec acts init)) = S k /\
                       errorItem (bar_after (trace (exec acts init)))
                       = Some (mkItem error_text (retry_message (err k)) true)) /\
  (running (exec acts init) = false \/
   (exists l, l ∈ loops (exec acts init) /\ pc l = AwaitClearError) ->
   forall it, errorItem (bar_after (trace (exec acts init))) = Some it ->
              shown it = false).
Proof.
  pose proof (fold_bar_ok (trace (exec acts init))) as (_ & Hc & _ & Hs & Hf).
  pose proof (exec_failing acts) as Hp.
  fold (bar_after (trace (exec acts init))) in Hc, Hs, Hf.
  split; [exact Hc |]. split; [| split].
  - intros it Hit. destruct (failing (trace (exec acts init))) eqn:E.
    + destruct (Hf eq_refl) as (k & _ & Hk). rewrite Hk in Hit. by injection Hit as <-.
    + by destruct (Hs eq_refl it Hit).
  - intros l Hl Hpc. apply Hf. revert Hp Hl.
    destruct (exec_Inv acts) as [tr ? ? | q l' tr ? ?]; simpl; intros Hp Hl.
    + by apply elem_of_nil in Hl.
    + apply list_elem_of_singleton in Hl as ->. by destruct Hpc as [E | E]; rewrite E in Hp.
  - intros Hidle it Hit.
    assert (E : failing (trace (exec acts init)) = false).
    { revert Hp Hidle.
      destruct (exec_Inv acts) as [tr ? ? | q l' tr ? ?]; simpl; intros Hp Hidle; [done |].
      destruct Hidle as [? | (l & Hl & Hpc)]; [done |].
      apply list_elem_of_singleton in Hl as ->. by rewrite Hpc in Hp. }
    by destruct (Hs E it Hit).
Qed.

End Replay.

End Indicator.

(** ** Retries without end *)

Module QueueProgress.
Import RetryQueue.

Section Blocked.
Context {Task : Type}.

(** As long as no attempt resolves, the task in hand stays in hand: nothing
    completes, the loop keeps the same task, and what is enqueued meanwhile
    only lengthens the queue behind it. *)
Lemma exec_blocked (more : list (Action (Task := Task))) (q : list Task) (l : Loop)
    (tr : list Event) :
  Forall (fun a => forall i, a <> TaskResolves i) more ->
  pc l <> AwaitClearError ->
  exists l' tr',
    exec more (mkState q true [l] tr) = mkState (q ++ enqueued more) true [l'] tr' /\
    task l' = task l /\ pc l' <> AwaitClearError /\ completed tr' = completed tr.
Proof.
  intros Hno. revert q l tr. induction Hno as [| a more Ha _ IH]; intros q l tr Hpc.
  - exists l, tr. by rewrite app_nil_r.
  - change (exec (a :: more) ?s) with (exec more (step s a)).
    assert (Hstep : exists l1 tr1,
               step (mkState q true [l] tr) a
               = mkState (q ++ enqueued [a]) true [l1] tr1 /\
               task l1 = task l /\ pc l1 <> AwaitClearError /\
               completed tr1 = completed tr).
    { destruct l as [p t d]. simpl in Hpc.
      destruct a as [t' | i | [| i] | [| i]]; simpl.
      - by exists (mkLoop p t d), tr.
      - by destruct (Ha i).
      - destruct p; try done; try (exists (mkLoop p t d), tr; by rewrite app_nil_r).
        + eexists _, _. unfold set_loop; simpl. rewrite app_nil_r. repeat split; try done.
          by rewrite completed_snoc, app_nil_r.
        + exists (mkLoop AwaitShowError t d), tr. by rewrite app_nil_r.
        + exists (mkLoop AwaitTimer t d), tr. by rewrite app_nil_r.
      - exists (mkLoop p t d), tr. by rewrite app_nil_r.
      - destruct p; try done.
        + exists (mkLoop AwaitTask t d), tr. by rewrite app_nil_r.
        + eexists _, _. unfold set_loop; simpl. rewrite app_nil_r. repeat split; try done.
          by rewrite completed_snoc, app_nil_r.
        + eexists _, _. unfold set_loop; simpl. rewrite app_nil_r. repeat split; try done.
          by rewrite completed_snoc, app_nil_r.
      - exists (mkLoop p t d), tr. by rewrite app_nil_r. }
    destruct Hstep as (l1 & tr1 & -> & Ht1 & Hp1 & Hc1).
    destruct (IH (q ++ enqueued [a]) l1 tr1 Hp1) as (l' & tr' & -> & Ht & Hp & Hc).
    exists l', tr'. repeat split; try congruence.
    f_equal. rewrite <- app_assoc. f_equal.
    change (a :: more) with ([a] ++ more). unfold enqueued. by rewrite omap_app.
Qed.

(** X2.  A task that keeps failing starves the queue.  From any reachable
    state in which a task is in hand, however many tasks are enqueued and
    however often the attempt is rejected and retried, as long as no attempt
    resolves no further task completes, the loop stays on the same task, and
    the newcomers wait behind the ones already queued. *)
Theorem failing_head_blocks_queue (acts more : list (Action (Task := Task))) (l : Loop) :
  loops (exec acts init) = [l] ->
  pc l <> AwaitClearError ->
  Forall (fun a => forall i, a <> TaskResolves i) more ->
  completed (trace (exec (acts ++ more) init)) = completed (trace (exec acts init)) /\
  queue (exec (acts ++ more) init) = queue (exec acts init) ++ enqueued more /\
  exists l', loops (exec (acts ++ more) init) = [l'] /\ task l' = task l.
Proof.
  intros Hl Hpc Hno. rewrite exec_app.
  destruct (exec_Inv acts) as [tr ? ? | q l0 tr ? ?]; simpl in *; [done |].
  injection Hl as ->.
  destruct (exec_blocked more q l tr Hno Hpc) as (l' & tr' & -> & Ht & _ & Hc).
  simpl. repeat split; try done. by exists l'.
Qed.

End Blocked.

Lemma failing_head_blocks_queue_witness :
  queue (exec (demo ++ [TaskRejects 0; Enqueue "d"%string; Continue 0]) init)
  = queue (exec demo init) ++ ["d"%string].
Proof.
  exact (proj1 (proj2
    (failing_head_blocks_queue demo [TaskRejects 0; Enqueue "d"%string; Continue 0]
       (mkLoop AwaitTask "b"%string 1000) eq_refl
       ltac:(discriminate)
       ltac:(repeat constructor; discriminate)))).
Defined.

End QueueProgress.

(** ** What a [fileSnapshot] carries *)

Module Content.
Import Encoding Path Capture.
Local Open Scope N_scope.

(** The [=] signs at the end of the base64 text of [n] bytes. *)
Definition padding (n : nat) : string :=
  match (n mod 3)%nat with
  | 1%nat => "=="
  | 2%nat => "="
  | _ => ""
  end%string.

Lemma b64_char_alphabet (v : N) : v < 64 -> In (b64_char v) b64_alphabet.
Proof.
  intros H. unfold b64_char. apply nth_In.
  change (length b64_alphabet) with 64%nat. lia.
Qed.

(** X3.  [buf.toString('base64')] is canonical base64 text: it is made of
    characters of the standard alphabet followed by the padding ([==] after
    one odd byte, [=] after two, none otherwise), and has four characters for
    every group of three bytes begun. *)
Theorem toString_base64_shape (bs : list byte) :
  exists body : string,
    toString_base64 bs = (body ++ padding (length bs))%string /\
    Forall (fun c => In c b64_alphabet) (list_ascii_of_string body) /\
    String.length (toString_base64 bs) = (4 * ((length bs + 2) / 3))%nat.
Proof.
  induction bs as [| a | a b | a b c l IH] using list_ind3.
  - exists ""%string. repeat split. constructor.
  - pose proof (Byte.to_N_bounded a).
    exists (String (b64_char (Byte.to_N a / 4))
              (String (b64_char (Byte.to_N a mod 4 * 16)) "")).
    repeat split. cbn [list_ascii_of_string].
    repeat (constructor; [apply b64_char_alphabet; dlia |]). constructor.
  - pose proof (Byte.to_N_bounded a). pose proof (Byte.to_N_bounded b).
    exists (String (b64_char (Byte.to_N a / 4))
              (String (b64_char (Byte.to_N a mod 4 * 16 + Byte.to_N b / 16))
                 (String (b64_char (Byte.to_N b mod 16 * 4)) ""))).
    repeat split. cbn [list_ascii_of_string].
    repeat (constructor; [apply b64_char_alphabet; dlia |]). constructor.
  - destruct IH as (body & Hb & Hall & Hlen).
    pose proof (Byte.to_N_bounded a). pose proof (Byte.to_N_bounded b).
    pose proof (Byte.to_N_bounded c).
    exists (String (b64_char (Byte.to_N a / 4))
              (String (b64_char (Byte.to_N a mod 4 * 16 + Byte.to_N b / 16))
                 (String (b64_char (Byte.to_N b mod 16 * 4 + Byte.to_N c / 64))
                    (String (b64_char (Byte.to_N c mod 64)) body)))).
    split; [| split].
    + change (toString_base64 (a :: b :: c :: l)) with
        (String (b64_char (Byte.to_N a / 4))
           (String (b64_char (Byte.to_N a mod 4 * 16 + Byte.to_N b / 16))
              (String (b64_char (Byte.to_N b mod 16 * 4 + Byte.to_N c / 64))
                 (String (b64_char (Byte.to_N c mod 64)) (toString_base64 l))))).
      rewrite Hb. unfold padding.
      replace (length (a :: b :: c :: l) mod 3)%nat with (length l mod 3)%nat; [done |].
      change (length (a :: b :: c :: l)) with (3 + length l)%nat.
      symmetry.
      replace (3 + length l)%nat with (length l + 1 * 3)%nat by lia.
      apply Nat.Div0.mod_add.
    + cbn [list_ascii_of_string].
      repeat (constructor; [apply b64_char_alphabet; dlia |]). exact Hall.
    + change (toString_base64 (a :: b :: c :: l)) with
        (String (b64_char (Byte.to_N a / 4))
           (String (b64_char (Byte.to_N a mod 4 * 16 + Byte.to_N b / 16))
              (String (b64_char (Byte.to_N b mod 16 * 4 + Byte.to_N c / 64))
                 (String (b64_char (Byte.to_N c mod 64)) (toString_base64 l))))).
      cbn [String.length]. rewrite Hlen.
      change (length (a :: b :: c :: l)) with (3 + length l)%nat.
      replace (3 + length l + 2)%nat with ((length l + 2) + 1 * 3)%nat by lia.
      rewrite Nat.div_add by lia. lia.
Qed.

Section Text.
Variable isBinaryFile : list byte -> bool.

(** X4.  What a text snapshot carries is always well-formed UTF-8: the
    decoded [content] of a file that is not binary is the UTF-8 encoding of
    scalar values, whatever the bytes of the file; and when the file itself is
    well-formed UTF-8 the decoded [content] is the file, byte for byte. *)
Theorem text_snapshot_is_utf8 (buf : list byte) :
  isBinaryFile buf = false ->
  (exists cps, Forall is_scalar cps /\
               from_base64 (snapshot_content isBinaryFile buf) = flat_map utf8_encode1 cps) /\
  (forall cps, Forall is_scalar cps -> buf = flat_map utf8_encode1 cps ->
               from_base64 (snapshot_content isBinaryFile buf) = buf).
Proof.
  intros Hbin. unfold snapshot_content. rewrite Hbin, from_base64_toString.
  unfold toString_utf8. split.
  - exists (utf8_decode None buf). split; [by apply decode_scalar |].
    apply from_utf8_utf16. by apply decode_scalar.
  - intros cps Hs ->. rewrite decode_encode by done. by apply from_utf8_utf16.
Qed.

End Text.

(** A byte that is no UTF-8 is not sent as it is: U+FFFD takes its place. *)
Example text_snapshot_replaces :
  from_base64 (snapshot_content (fun _ => false) ["a"; xff]%byte) = ["a"; xef; xbf; xbd]%byte.
Proof. reflexivity. Qed.

Lemma text_snapshot_is_utf8_witness :
  from_base64 (snapshot_content (fun _ => false) ["h"; xc3; xa9]%byte) = ["h"; xc3; xa9]%byte.
Proof.
  refine (proj2 (text_snapshot_is_utf8 (fun _ => false) ["h"; xc3; xa9]%byte eq_refl)
            [0x68; 0xE9] _ eq_refl).
  repeat constructor; left; lia.
Defined.

End Content.

(** ** The paths and the order of what the engine enqueues *)

Module Events.
Import Encoding Path Capture.
Local Open Scope string_scope.
Local Open Scope list_scope.

(** The [path], [oldPath] and [newPath] fields of a body. *)
Definition event_paths (e : SyncEvent) : list string :=
  match e with
  | FileSnapshot p _ _ | Create p _ | Delete p => [p]
  | Rename o n => [o; n]
  | Heartbeat _ => []
  end.

Definition task_paths (t : Task) : list string :=
  match t with
  | Post e => event_paths e
  | Snapshot _ | Beat => []
  end.

Definition slashed (p : string) : Prop :=
  forall c, In c (list_ascii_of_string p) -> c <> backslash.

Section Engine.
Variable pf : Platform.
Variable root : Uri.
Variable isBinaryFile : list byte -> bool.

Lemma rel_path_slashed (uri : Uri) : slashed (rel_path pf root uri).
Proof. unfold rel_path. intros c. apply replace_backslash_free. Qed.

Lemma queue_actions_slashed (q : QState) (a : Happening) :
  Forall (fun t => Forall slashed (task_paths t))
         (RetryQueue.enqueued (queue_actions pf root isBinaryFile q a)).
Proof.
  pose proof rel_path_slashed as Hs.
  destruct a as [uri [ty |] | uri [ty |] | uri | files | | uri [buf |]
                | i ok | i [buf |] | i]; simpl.
  - destruct (has_type ty FileType_Directory); [| destruct (has_type ty FileType_File)];
      simpl; repeat constructor; apply Hs.
  - repeat constructor; apply Hs.
  - destruct (has_type ty FileType_File); simpl; repeat constructor.
  - constructor.
  - repeat constructor; apply Hs.
  - induction files as [| f files IH]; simpl; [constructor |].
    constructor; [| exact IH]. repeat constructor; apply Hs.
  - repeat constructor.
  - repeat constructor; apply Hs.
  - constructor.
  - destruct (RetryQueue.loops q !! i) as [[[] [] ?] |]; simpl; try constructor.
    all: destruct ok; constructor.
  - destruct (RetryQueue.loops q !! i) as [[[] [] ?] |]; simpl; try constructor.
    + repeat constructor; apply Hs.
    + constructor.
  - destruct (RetryQueue.loops q !! i) as [[[] [] ?] |]; simpl; constructor.
  - constructor.
Qed.

Lemma queue_run_slashed (acts : list Happening) (q : QState) :
  Forall (fun t => Forall slashed (task_paths t))
         (RetryQueue.enqueued (queue_run pf root isBinaryFile acts q)).
Proof.
  revert q. induction acts as [| a acts IH]; intros q; [constructor |].
  cbn [queue_run]. rewrite enqueued_app. apply Forall_app. split.
  - apply queue_actions_slashed.
  - apply IH.
Qed.

(** X5.  No path the engine sends has a backslash in it: in any run, the
    [path] of every [fileSnapshot], [create] and [delete] body and both paths
    of every [rename] body handed to the queue are free of it, on either
    platform and whatever the names of the files. *)
Theorem no_backslash_in_event_paths (acts : list Happening) (t : Task) (p : string) :
  t ∈ all_enqueued (engine_run pf root isBinaryFile acts RetryQueue.init) ->
  p ∈ task_paths t ->
  forall c, In c (list_ascii_of_string p) -> c <> backslash.
Proof.
  rewrite all_enqueued_run. intros Ht Hp.
  pose proof (queue_run_slashed acts RetryQueue.init) as H.
  rewrite Forall_forall in H. specialize (H t Ht).
  rewrite Forall_forall in H. exact (H p Hp).
Qed.

End Engine.

Section Below.
Variable pf : Platform.
Variable isBinaryFile : list byte -> bool.

(** X6.  Below the session root the paths are what the collector expects.
    When the names on the way to the root and from it to the target are
    ordinary file names (not empty, [.] or [..], no separator in them), the
    path of the target in every body is these names joined by [/], on either
    platform: in the [delete] of the target, in both paths of its [rename], in
    the [create] that goes before its snapshot task, and in its
    [fileSnapshot]; the root itself has the empty path. *)
Theorem event_paths_below_root (sc : string) (r names names' : list string) (q : QState) :
  Forall (fun a => name_ok a = true) r ->
  Forall (fun a => name_ok a = true) names ->
  Forall (fun a => name_ok a = true) names' ->
  onDidDelete pf (mkUri sc r) (file_uri (r ++ names)) q
    = RetryQueue.enqueue (Post (Delete (join "/" names))) q /\
  onDidRenameFiles pf (mkUri sc r) [(file_uri (r ++ names), file_uri (r ++ names'))] q
    = RetryQueue.enqueue (Post (Rename (join "/" names) (join "/" names'))) q /\
  (forall stat,
      file_or_unknown stat ->
      onDidCreate pf (mkUri sc r) (file_uri (r ++ names)) stat q
      = RetryQueue.enqueue (Snapshot (file_uri (r ++ names)))
          (RetryQueue.enqueue
             (Post (Create (join "/" names)
                           (match stat with Some _ => Some false | None => None end))) q)) /\
  (forall buf,
      snapshot_event pf (mkUri sc r) isBinaryFile (file_uri (r ++ names)) buf
      = FileSnapshot (join "/" names) (isBinaryFile buf) (snapshot_content isBinaryFile buf)) /\
  rel_path pf (mkUri sc r) (file_uri r) = "".
Proof.
  intros Hr Hn Hn'.
  pose proof (rel_path_below pf sc "file" r names Hr Hn) as E.
  pose proof (rel_path_below pf sc "file" r names' Hr Hn') as E'.
  fold (file_uri (r ++ names)) in E. fold (file_uri (r ++ names')) in E'.
  split; [| split; [| split; [| split]]].
  - unfold onDidDelete. by rewrite E.
  - unfold onDidRenameFiles. simpl. by rewrite E, E'.
  - intros [ty |] Hs; unfold onDidCreate; rewrite E; [| done].
    destruct Hs as [-> ->]. done.
  - intros buf. unfold snapshot_event. by rewrite E.
  - pose proof (rel_path_below pf sc "file" r [] Hr ltac:(constructor)) as E0.
    by rewrite app_nil_r in E0.
Qed.

End Below.

Lemma no_backslash_in_event_paths_witness : "/"%char <> backslash.
Proof.
  refine (no_backslash_in_event_paths Posix (file_uri ["ws"]) (fun _ => false)
            [DidDelete odd_name] (Post (Delete "/x")) "/x" _ _ "/"%char _).
  - vm_compute. by left.
  - by left.
  - by left.
Defined.

Lemma event_paths_below_root_witness :
  onDidDelete Win32 (file_uri ["c:"; "ws"]) (file_uri (["c:"; "ws"] ++ ["src"; "a.py"]))
    RetryQueue.init
  = RetryQueue.enqueue (Post (Delete "src/a.py")) RetryQueue.init.
Proof.
  refine (proj1 (event_paths_below_root Win32 (fun _ => false) "file"
                   ["c:"; "ws"] ["src"; "a.py"] [] RetryQueue.init _ _ _)).
  - by repeat constructor.
  - by repeat constructor.
  - constructor.
Defined.

(** *** A snapshot task whose read fails *)

Section Retried.
Variable pf : Platform.
Variable root : Uri.
Variable isBinaryFile : list byte -> bool.

(** The read of the snapshot task in hand fails; [showError] and the timer
    pass. *)
Definition failed_read : list Happening := [SnapshotSettles 0 None; Resume 0; Resume 0].

Lemma failed_reads_run (K k : nat) (q : list Task) (uri : Uri)
    (tr : list (RetryQueue.Event (Task := Task))) :
  exists tr',
    engine_run pf root isBinaryFile (concat (replicate K failed_read))
      (RetryQueue.mkState q true
         [RetryQueue.mkLoop RetryQueue.AwaitTask (Snapshot uri) (RetryQueue.backoff k)] tr)
    = RetryQueue.mkState q true
        [RetryQueue.mkLoop RetryQueue.AwaitTask (Snapshot uri) (RetryQueue.backoff (k + K))] tr' /\
    RetryQueue.completed tr' = RetryQueue.completed tr.
Proof.
  revert k tr. induction K as [| K IH]; intros k tr.
  - exists tr. by rewrite Nat.add_0_r.
  - destruct (IH (S k)
                (((tr ++ [RetryQueue.EFailure (Snapshot uri)])
                    ++ [RetryQueue.EWait (Snapshot uri) (RetryQueue.backoff k)])
                   ++ [RetryQueue.EAttempt (Snapshot uri)]))
      as (tr' & He & Hc).
    exists tr'. split.
    + replace (k + S K) with (S k + K) by lia. rewrite <- He.
      change (replicate (S K) failed_read) with (failed_read :: replicate K failed_read).
      cbn [concat]. rewrite engine_run_app. f_equal.
      unfold failed_read, engine_run. cbn [fold_left engine_step].
      cbn [RetryQueue.loops lookup list_lookup sendFileSnapshot RetryQueue.step].
      unfold RetryQueue.set_loop. cbn.
      by rewrite RetryQueue.next_delay_backoff.
    + rewrite Hc. by rewrite !RetryQueue.completed_snoc, !app_nil_r.
Qed.

(** X22.  Inside the queue a failed read is retried.  When the task in hand
    is the snapshot of a file, reads that fail (each followed by the error
    display and the wait of the loop) enqueue nothing and deliver nothing, and
    leave the task in hand; the first read that works enqueues one
    [fileSnapshot] POST, with the content read then, behind everything that is
    waiting, and completes the snapshot task. *)
Theorem snapshot_task_is_retried (acts : list Happening) (K : nat) (uri : Uri) (d : Z)
    (buf : list byte) :
  RetryQueue.loops (engine_run pf root isBinaryFile acts RetryQueue.init)
    = [RetryQueue.mkLoop RetryQueue.AwaitTask (Snapshot uri) d] ->
  all_enqueued
    (engine_run pf root isBinaryFile
       (acts ++ concat (replicate K failed_read) ++ [SnapshotSettles 0 (Some buf)])
       RetryQueue.init)
  = all_enqueued (engine_run pf root isBinaryFile acts RetryQueue.init)
      ++ [Post (snapshot_event pf root isBinaryFile uri buf)] /\
  RetryQueue.completed
    (RetryQueue.trace
       (engine_run pf root isBinaryFile
          (acts ++ concat (replicate K failed_read) ++ [SnapshotSettles 0 (Some buf)])
          RetryQueue.init))
  = RetryQueue.completed
      (RetryQueue.trace (engine_run pf root isBinaryFile acts RetryQueue.init))
      ++ [Snapshot uri] /\
  delivered
    (engine_run pf root isBinaryFile
       (acts ++ concat (replicate K failed_read) ++ [SnapshotSettles 0 (Some buf)])
       RetryQueue.init)
  = delivered (engine_run pf root isBinaryFile acts RetryQueue.init).
Proof.
  intros Hl. rewrite !engine_run_app.
  revert Hl. rewrite (engine_run_actions pf root isBinaryFile acts).
  destruct (RetryQueue.exec_Inv (queue_run pf root isBinaryFile acts RetryQueue.init))
    as [tr ? ? | q l tr Hc Hd]; [done |].
  cbn [RetryQueue.loops]. intros [= ->].
  unfold RetryQueue.delay_ok in Hd. cbn [RetryQueue.pc RetryQueue.delay] in Hd. subst d.
  destruct (failed_reads_run K (RetryQueue.retries tr) q uri tr) as (tr' & -> & Hc').
  unfold engine_run. cbn [fold_left engine_step].
  cbn [RetryQueue.loops lookup list_lookup sendFileSnapshot].
  unfold RetryQueue.enqueue, RetryQueue.run. cbn [RetryQueue.running RetryQueue.queue
    RetryQueue.loops RetryQueue.trace RetryQueue.step lookup list_lookup].
  unfold RetryQueue.set_loop, all_enqueued, delivered, RetryQueue.owed.
  cbn [RetryQueue.queue RetryQueue.running RetryQueue.loops RetryQueue.trace
       list_insert insert flat_map RetryQueue.in_flight RetryQueue.pc RetryQueue.task app].
  rewrite !RetryQueue.completed_snoc, Hc'. rewrite omap_app. cbn [omap list_omap].
  rewrite !app_nil_r. repeat split.
  by rewrite <- !app_assoc.
Qed.

End Retried.

Lemma snapshot_task_is_retried_witness :
  delivered
    (engine_run Posix demo_root (fun _ => false)
       ([DidChange demo_file (Some 1%Z)]
          ++ concat (replicate 2 failed_read) ++ [SnapshotSettles 0 (Some ["h"; "i"]%byte)])
       RetryQueue.init)
  = delivered (engine_run Posix demo_root (fun _ => false)
                 [DidChange demo_file (Some 1%Z)] RetryQueue.init).
Proof.
  exact (proj2 (proj2 (snapshot_task_is_retried Posix demo_root (fun _ => false)
                         [DidChange demo_file (Some 1%Z)] 2 demo_file 1000
                         ["h"; "i"]%byte eq_refl))).
Defined.

End Events.

(** ** Debounced text edits, end to end *)

Module Debounce.
Import Encoding Path Capture.
Local Open Scope Z_scope.

Section Engine.
Variable pf : Platform.
Variable root : Uri.
Variable isBinaryFile : list byte -> bool.
Variable disk : Z -> Uri -> option (list byte).

(** What one call of [sendFileSnapshot] outside the queue adds to it: the
    content POST, or nothing when the file cannot be read. *)
Definition snapshot_of (uri : Uri) (read : option (list byte)) : list Task :=
  match read with
  | Some buf => [Post (snapshot_event pf root isBinaryFile uri buf)]
  | None => []
  end.

Lemma all_enqueued_snapshot (acts : list Happening) (uri : Uri) (read : option (list byte)) :
  all_enqueued
    (default (engine_run pf root isBinaryFile acts RetryQueue.init)
       (sendFileSnapshot pf root isBinaryFile uri read
          (engine_run pf root isBinaryFile acts RetryQueue.init)))
  = all_enqueued (engine_run pf root isBinaryFile acts RetryQueue.init)
      ++ snapshot_of uri read.
Proof.
  change (default ?q (sendFileSnapshot pf root isBinaryFile uri read ?q))
    with (engine_run pf root isBinaryFile [SnapshotNow uri read] q).
  rewrite <- engine_run_app, !all_enqueued_run, queue_run_app, enqueued_app.
  f_equal. simpl. by destruct read.
Qed.

(** X7.  A burst of edits of one document ends in one snapshot, or in none.
    After any run of the engine, edits of a document under the root, each less
    than 500 ms after the one before, followed by 500 ms without an edit,
    leave no timer pending and add to the queue exactly one [fileSnapshot]
    POST, with what is on disk 500 ms after the last edit; when the file
    cannot be read then, nothing is enqueued and nothing is retried. *)
Theorem debounced_burst (acts : list Happening) (t0 t1 : Z) (rest : list Z) (T : Z)
    (uri : Uri) :
  accepted pf root uri = true ->
  chained t1 rest ->
  List.last rest t1 + 500 <= T ->
  pendingTimers
    (play pf root isBinaryFile disk
       (Edit t1 uri :: map (fun t => Edit t uri) rest ++ [Wait T])
       (mkTimed t0 ∅ (engine_run pf root isBinaryFile acts RetryQueue.init))) = ∅ /\
  all_enqueued
    (qstate
       (play pf root isBinaryFile disk
          (Edit t1 uri :: map (fun t => Edit t uri) rest ++ [Wait T])
          (mkTimed t0 ∅ (engine_run pf root isBinaryFile acts RetryQueue.init))))
  = all_enqueued (engine_run pf root isBinaryFile acts RetryQueue.init)
      ++ snapshot_of uri (disk (List.last rest t1 + 500) uri).
Proof.
  intros Hacc Hc HT.
  rewrite (debounce_collapse pf root isBinaryFile disk uri t1 rest T) by done.
  cbn [pendingTimers qstate]. split; [done |]. apply all_enqueued_snapshot.
Qed.

#[local] Existing Instance earlier_dec.

#[local] Instance earlier_total : Total earlier.
Proof. intros a b. unfold earlier. lia. Qed.

Lemma due_two (ka kb : string) (da db T : Z) (a b : Uri) (q : QState) (t : Z) :
  ka <> kb -> da < db -> db <= T ->
  due T (mkTimed t (<[kb := (db, b)]> {[ka := (da, a)]}) q)
  = [(ka, (da, a)); (kb, (db, b))].
Proof.
  intros Hk Hd HT. unfold due. cbn [pendingTimers].
  set (m := <[kb := (db, b)]> ({[ka := (da, a)]} : gmap string (Z * Uri))).
  assert (Hm : map_to_list m ≡ₚ [(kb, (db, b)); (ka, (da, a))]).
  { unfold m. rewrite map_to_list_insert by (by rewrite lookup_singleton_ne).
    by rewrite map_to_list_singleton. }
  set (l := List.filter (fun x : string * (Z * Uri) => x.2.1 <=? T) (map_to_list m)).
  assert (Hl : l ≡ₚ [(kb, (db, b)); (ka, (da, a))]).
  { unfold l.
    assert (Hf : forall l1 l2 : list (string * (Z * Uri)),
               l1 ≡ₚ l2 ->
               List.filter (fun x => x.2.1 <=? T) l1 ≡ₚ List.filter (fun x => x.2.1 <=? T) l2).
    { induction 1 as [| x l1 l2 _ IH | x y l1 | l1 l2 l3 _ IH1 _ IH2]; simpl.
      - done.
      - destruct (x.2.1 <=? T); by rewrite IH.
      - destruct (x.2.1 <=? T), (y.2.1 <=? T); try done. apply Permutation_swap.
      - by rewrite IH1. }
    rewrite (Hf _ _ Hm). simpl.
    destruct (Z.leb_spec db T); [| lia]. destruct (Z.leb_spec da T); [| lia]. done. }
  pose proof (merge_sort_Permutation earlier l) as Hp.
  pose proof (Sorted_merge_sort earlier l) as Hs.
  assert (Hp' : [(kb, (db, b)); (ka, (da, a))] ≡ₚ merge_sort earlier l)
    by (etrans; [symmetry; exact Hl | symmetry; exact Hp]).
  apply Permutation_length_2_inv in Hp' as [E | E]; rewrite E in *.
  - exfalso. inversion Hs as [| ? ? _ Hh]; subst.
    inversion Hh as [| ? ? He]; subst. unfold earlier in He. simpl in He. lia.
  - done.
Qed.

(** *** The read of a debounced snapshot takes time *)

(** [sendFileSnapshot] awaits [readFile] and then [isBinaryFile] before it
    comes to [queue.enqueue], and other callbacks run in the meantime.
    Nothing is done between the two awaits, so they are one suspension here.
    [reading] holds the calls that a timer has made and that have not come to
    [enqueue] yet, oldest first, each with the time of its timer. *)
Record Async : Type := mkAsync { timed : Timed; reading : list (Z * Uri) }.

(** The callback of the timer up to its first [await]:
    [pendingTimers.delete(key)] and the call of [sendFileSnapshot(uri)],
    which starts the read. *)
Definition timer_fires (key : string) (uri : Uri) (w : Async) : Async :=
  mkAsync (mkTimed (now (timed w)) (delete key (pendingTimers (timed w))) (qstate (timed w)))
          (reading w ++ [(now (timed w), uri)]).

(** The rest of the call at position [i] of [reading]: its read has given
    [read].  With bytes the payload is made and enqueued; with [None]
    ([readFile] rejected) the callback catches the error and nothing is
    enqueued. *)
Definition read_settles (i : nat) (read : option (list byte)) (w : Async) : Async :=
  match reading w !! i with
  | Some (_, uri) =>
      mkAsync (mkTimed (now (timed w)) (pendingTimers (timed w))
                 (default (qstate (timed w))
                    (sendFileSnapshot pf root isBinaryFile uri read (qstate (timed w)))))
              (delete i (reading w))
  | None => w
  end.

(** Let the clock reach [t]: every timer due by then fires at its time. *)
Definition fire_due (t : Z) (w : Async) : Async :=
  let w' :=
    fold_left
      (fun w a =>
         timer_fires a.1 a.2.2
           (mkAsync (mkTimed a.2.1 (pendingTimers (timed w)) (qstate (timed w)))
                    (reading w)))
      (due t (timed w)) w in
  mkAsync (mkTimed t (pendingTimers (timed w')) (qstate (timed w'))) (reading w').

(** An edit is reported at the time [t], the clock reaches [t], or a read
    settles. *)
Inductive Occurrence : Type :=
| Edited (t : Z) (uri : Uri)
| Waited (t : Z)
| ReadSettles (i : nat) (read : option (list byte)).

Definition occur (w : Async) (o : Occurrence) : Async :=
  match o with
  | Edited t uri =>
      mkAsync (onDidChangeTextDocument pf root uri (timed (fire_due t w)))
              (reading (fire_due t w))
  | Waited t => fire_due t w
  | ReadSettles i read => read_settles i read w
  end.

Definition run (os : list Occurrence) (w : Async) : Async := fold_left occur os w.

(** [Capture.timer_callback] is the timer and, at once, its read. *)
Lemma timer_callback_settles_at_once (key : string) (uri : Uri) (w : Timed) :
  read_settles 0 (disk (now w) uri) (timer_fires key uri (mkAsync w []))
  = mkAsync (timer_callback pf root isBinaryFile disk key uri w) [].
Proof. reflexivity. Qed.

Lemma fire_due_empty (t : Z) (w : Async) :
  pendingTimers (timed w) = ∅ ->
  fire_due t w = mkAsync (mkTimed t ∅ (qstate (timed w))) (reading w).
Proof.
  intros H. unfold fire_due, due. rewrite H, map_to_list_empty. simpl.
  by rewrite H.
Qed.

Lemma fire_due_early (t d : Z) (key : string) (uri : Uri) (w : Async) :
  pendingTimers (timed w) = {[key := (d, uri)]} -> t < d ->
  fire_due t w = mkAsync (mkTimed t {[key := (d, uri)]} (qstate (timed w))) (reading w).
Proof.
  intros H Ht. unfold fire_due, due. rewrite H, map_to_list_singleton. simpl.
  destruct (Z.leb_spec d t); [lia |]. simpl. by rewrite H.
Qed.

(** Two edits, of [a] and then of [b] inside the window of [a], and the time
    [T] after both windows. *)
Definition two_documents (ta tb T : Z) (a b : Uri) : list Occurrence :=
  [Edited ta a; Edited tb b; Waited T].

(** X8.  Each document has its own timer.  An edit of a second document
    inside the window of the first does not put off the snapshot of the first:
    both timers fire, each 500 ms after the edit of its own document, the
    earlier one first, and each starts the read of its document; no timer is
    left, and nothing is enqueued before a read settles.  The two reads settle
    in either order, and the [fileSnapshot] POSTs are enqueued in the order in
    which the reads settle, each with what its read gave; a read that fails
    enqueues nothing. *)
Theorem debounce_per_document (acts : list Happening) (t0 ta tb T : Z) (a b : Uri)
    (ra rb : option (list byte)) :
  accepted pf root a = true ->
  accepted pf root b = true ->
  toString a <> toString b ->
  ta < tb < ta + 500 ->
  tb + 500 <= T ->
  run (two_documents ta tb T a b)
      (mkAsync (mkTimed t0 ∅ (engine_run pf root isBinaryFile acts RetryQueue.init)) [])
  = mkAsync (mkTimed T ∅ (engine_run pf root isBinaryFile acts RetryQueue.init))
            [(ta + 500, a); (tb + 500, b)] /\
  all_enqueued
    (qstate (timed
       (run (two_documents ta tb T a b ++ [ReadSettles 0 ra; ReadSettles 0 rb])
            (mkAsync (mkTimed t0 ∅ (engine_run pf root isBinaryFile acts RetryQueue.init))
                     []))))
  = all_enqueued (engine_run pf root isBinaryFile acts RetryQueue.init)
      ++ snapshot_of a ra ++ snapshot_of b rb /\
  all_enqueued
    (qstate (timed
       (run (two_documents ta tb T a b ++ [ReadSettles 1 rb; ReadSettles 0 ra])
            (mkAsync (mkTimed t0 ∅ (engine_run pf root isBinaryFile acts RetryQueue.init))
                     []))))
  = all_enqueued (engine_run pf root isBinaryFile acts RetryQueue.init)
      ++ snapshot_of b rb ++ snapshot_of a ra.
Proof.
  intros Ha Hb Hne Ht HT.
  set (q := engine_run pf root isBinaryFile acts RetryQueue.init).
  assert (E : run (two_documents ta tb T a b) (mkAsync (mkTimed t0 ∅ q) [])
              = mkAsync (mkTimed T ∅ q) [(ta + 500, a); (tb + 500, b)]).
  { unfold two_documents. cbn [run fold_left occur].
    rewrite (fire_due_empty ta (mkAsync (mkTimed t0 ∅ q) [])) by done.
    cbn [timed reading qstate].
    rewrite (onDidChangeTextDocument_accepted pf root a) by done.
    cbn [now pendingTimers qstate]. rewrite insert_empty.
    rewrite (fire_due_early tb (ta + 500) (toString a) a) by (done || lia).
    cbn [timed reading qstate].
    rewrite (onDidChangeTextDocument_accepted pf root b) by done.
    cbn [now pendingTimers qstate].
    unfold fire_due. cbn [timed].
    rewrite (due_two (toString a) (toString b) (ta + 500) (tb + 500) T a b q tb)
      by (done || lia).
    cbn [fold_left]. unfold timer_fires.
    cbn [timed now pendingTimers qstate reading fst snd app].
    rewrite delete_insert_ne by done. rewrite delete_singleton_eq.
    rewrite delete_insert_eq. by rewrite delete_empty. }
  assert (S1 : forall uri read,
             all_enqueued (default q (sendFileSnapshot pf root isBinaryFile uri read q))
             = all_enqueued q ++ snapshot_of uri read)
    by (intros uri read; apply all_enqueued_snapshot).
  assert (S2 : forall u1 r1 u2 r2,
             all_enqueued
               (default (default q (sendFileSnapshot pf root isBinaryFile u1 r1 q))
                  (sendFileSnapshot pf root isBinaryFile u2 r2
                     (default q (sendFileSnapshot pf root isBinaryFile u1 r1 q))))
             = all_enqueued q ++ snapshot_of u1 r1 ++ snapshot_of u2 r2).
  { intros u1 r1 u2 r2.
    assert (E1 : default q (sendFileSnapshot pf root isBinaryFile u1 r1 q)
                 = engine_run pf root isBinaryFile (acts ++ [SnapshotNow u1 r1])
                     RetryQueue.init)
      by (by rewrite engine_run_app).
    rewrite E1. rewrite all_enqueued_snapshot. rewrite <- E1.
    rewrite S1. by rewrite <- app_assoc. }
  split; [exact E |]. unfold run in *. rewrite !fold_left_app, E. split.
  - cbn [fold_left occur]. unfold read_settles.
    cbn [reading lookup list_lookup timed now pendingTimers qstate delete list_delete].
    apply S2.
  - cbn [fold_left occur]. unfold read_settles.
    cbn [reading lookup list_lookup timed now pendingTimers qstate delete list_delete].
    apply S2.
Qed.

End Engine.

Local Open Scope string_scope.
Local Open Scope list_scope.

Definition doc_a : Uri := file_uri ["ws"; "a.txt"].
Definition doc_b : Uri := file_uri ["ws"; "b.txt"].

Lemma debounced_burst_witness :
  all_enqueued
    (qstate
       (play Posix (file_uri ["ws"]) (fun _ => false) (fun _ _ => None)
          (Edit 0 doc_a :: map (fun t => Edit t doc_a) [100; 400] ++ [Wait 900])
          (mkTimed 0 ∅ (engine_run Posix (file_uri ["ws"]) (fun _ => false) [] RetryQueue.init))))
  = all_enqueued (engine_run Posix (file_uri ["ws"]) (fun _ => false) [] RetryQueue.init)
      ++ [].
Proof.
  refine (proj2 (debounced_burst Posix (file_uri ["ws"]) (fun _ => false) (fun _ _ => None)
                   [] 0 0 [100; 400] 900 doc_a eq_refl _ _)).
  - simpl. lia.
  - simpl. lia.
Defined.

Lemma debounce_per_document_witness :
  all_enqueued
    (qstate (timed
       (run Posix (file_uri ["ws"]) (fun _ => false)
          (two_documents 0 200 700 doc_a doc_b
             ++ [ReadSettles 1 (Some ["h"; "i"]%byte); ReadSettles 0 (Some ["h"; "o"]%byte)])
          (mkAsync
             (mkTimed 0 ∅ (engine_run Posix (file_uri ["ws"]) (fun _ => false) []
                             RetryQueue.init))
             []))))
  = [] ++ [Post (FileSnapshot "b.txt" false "aGk=")]
       ++ [Post (FileSnapshot "a.txt" false "aG8=")].
Proof.
  refine (proj2 (proj2 (debounce_per_document Posix (file_uri ["ws"]) (fun _ => false)
                          [] 0 0 200 700 doc_a doc_b
                          (Some ["h"; "o"]%byte) (Some ["h"; "i"]%byte)
                          eq_refl eq_refl _ _ _))).
  - discriminate.
  - lia.
  - lia.
Defined.

End Debounce.

(** ** The first full snapshot ([collectAllFiles] and the loop over its result) *)

Module Baseline.
Import Encoding Path Capture.

(** What [readDirectory] gives for a directory and, for each item that it
    reports, for that item in turn: the call rejects, or resolves to the names
    and types of the items. *)
Unset Elimination Schemes.

Inductive Listing : Type :=
| Rejects
| Items (items : list (string * Z * Listing)).

Set Elimination Schemes.

Fixpoint Listing_nested_ind (P : Listing -> Prop) (HR : P Rejects)
    (HI : forall items, Forall (fun x => P x.2) items -> P (Items items))
    (l : Listing) : P l :=
  match l with
  | Rejects => HR
  | Items items =>
      HI items
        ((fix go (items : list (string * Z * Listing)) : Forall (fun x => P x.2) items :=
            match items with
            | [] => @List.Forall_nil _ _
            | x :: rest =>
                @List.Forall_cons _ _ x rest
                  (match x return P x.2 with
                   | (_, sub) => Listing_nested_ind P HR HI sub
                   end)
                  (go rest)
            end) items)
  end.

Section Collect.
Variable pf : Platform.

(** The body of [for (const [name, ftype] of items)] with the array [files]
    it pushes to; [collect] is [collectAllFiles] on a child. *)
Definition collect_item (collect : Uri -> Listing -> option (list Uri)) (dir : Uri)
    (files : option (list Uri)) (item : string * Z * Listing) : option (list Uri) :=
  match files with
  | None => None
  | Some files =>
      let child := Materializer.joinPath pf dir item.1.1 in
      if (item.1.2 =? FileType_Directory)%Z then
        match collect child item.2 with
        | Some below => Some (files ++ below)
        | None => None
        end
      else if (item.1.2 =? FileType_File)%Z then Some (files ++ [child])
      else Some files
  end.

(** [collectAllFiles(dir)]; [l] is what [readDirectory] gives below [dir].
    A rejected [readDirectory] rejects the whole call. *)
Fixpoint collectAllFiles (dir : Uri) (l : Listing) : option (list Uri) :=
  match l with
  | Rejects => None
  | Items items =>
      (fix loop (items : list (string * Z * Listing)) (files : option (list Uri))
         : option (list Uri) :=
         match items with
         | [] => files
         | item :: rest =>
             loop rest
               (match files with
                | None => None
                | Some files =>
                    let child := Materializer.joinPath pf dir item.1.1 in
                    if (item.1.2 =? FileType_Directory)%Z then
                      match (match item with (_, sub) => collectAllFiles child sub end) with
                      | Some below => Some (files ++ below)
                      | None => None
                      end
                    else if (item.1.2 =? FileType_File)%Z then Some (files ++ [child])
                    else Some files
                end)
         end) items (Some [])
  end.

Lemma collectAllFiles_Items (dir : Uri) (items : list (string * Z * Listing)) :
  collectAllFiles dir (Items items)
  = fold_left (collect_item collectAllFiles dir) items (Some []).
Proof.
  cbn [collectAllFiles]. generalize (Some (@nil Uri)).
  induction items as [| [[name ty] sub] items IH]; intros files; [done |].
  cbn [fold_left]. rewrite <- IH. reflexivity.
Qed.

(** Some directory on the way cannot be listed. *)
Inductive unreadable : Listing -> Prop :=
| unreadable_here : unreadable Rejects
| unreadable_below (items : list (string * Z * Listing)) (name : string) (sub : Listing) :
    (name, FileType_Directory, sub) ∈ items -> unreadable sub ->
    unreadable (Items items).

(** [u] is an item of type [File], reached through items of type
    [Directory]. *)
Inductive file_at : Uri -> Listing -> Uri -> Prop :=
| file_here (dir : Uri) (items : list (string * Z * Listing)) (name : string)
    (sub : Listing) :
    (name, FileType_File, sub) ∈ items ->
    file_at dir (Items items) (Materializer.joinPath pf dir name)
| file_below (dir : Uri) (items : list (string * Z * Listing)) (name : string)
    (sub : Listing) (u : Uri) :
    (name, FileType_Directory, sub) ∈ items ->
    file_at (Materializer.joinPath pf dir name) sub u ->
    file_at dir (Items items) u.

Lemma fold_collect_None (dir : Uri) (items : list (string * Z * Listing)) :
  fold_left (collect_item collectAllFiles dir) items None = None.
Proof. induction items as [| x items IH]; [done |]. exact IH. Qed.

(** What the loop has in [files] when it ends. *)
Definition collect_ok (dir : Uri) (l : Listing) : Prop :=
  (collectAllFiles dir l = None <-> unreadable l) /\
  (forall files, collectAllFiles dir l = Some files ->
                 forall u, u ∈ files <-> file_at dir l u).

Lemma fold_collect_ok (dir : Uri) (items : list (string * Z * Listing)) :
  Forall (fun x => forall d, collect_ok d x.2) items ->
  forall acc : list Uri,
    (fold_left (collect_item collectAllFiles dir) items (Some acc) = None <->
     exists name sub, (name, FileType_Directory, sub) ∈ items /\ unreadable sub) /\
    (forall files,
        fold_left (collect_item collectAllFiles dir) items (Some acc) = Some files ->
        forall u, u ∈ files <->
                  u ∈ acc \/
                  (exists name sub, (name, FileType_File, sub) ∈ items /\
                                    u = Materializer.joinPath pf dir name) \/
                  (exists name sub, (name, FileType_Directory, sub) ∈ items /\
                                    file_at (Materializer.joinPath pf dir name) sub u)).
Proof.
  induction 1 as [| [[name ty] sub] items Hx _ IH]; intros acc.
  - split.
    + split; [done |]. intros (? & ? & H%elem_of_nil & _). done.
    + intros files [= <-] u. split; [by left |].
      intros [? | [(? & ? & H%elem_of_nil & _) | (? & ? & H%elem_of_nil & _)]]; done.
  - cbn [fold_left collect_item fst snd].
    destruct (Hx (Materializer.joinPath pf dir name)) as [Hnone Hsome]. cbn [snd] in *.
    destruct (Z.eqb_spec ty FileType_Directory) as [-> | Hnd].
    + destruct (collectAllFiles (Materializer.joinPath pf dir name) sub) as [below |] eqn:E.
      * destruct (IH (acc ++ below)) as [IHn IHs]. split.
        -- rewrite IHn. split.
           ++ intros (n & s & Hin & Hu). exists n, s. split; [by right | done].
           ++ intros (n & s & Hin & Hu).
              apply elem_of_cons in Hin as [[= -> ->] | Hin].
              ** apply Hnone in Hu. congruence.
              ** by exists n, s.
        -- intros files Hf u. rewrite (IHs files Hf u), elem_of_app.
           rewrite (Hsome below eq_refl u). split.
           ++ intros [[? | ?] | [(n & s & Hin & ->) | (n & s & Hin & Hu)]].
              ** by left.
              ** right; right. exists name, sub. split; [by left | done].
              ** right; left. exists n, s. split; [by right | done].
              ** right; right. exists n, s. split; [by right | done].
           ++ intros [? | [(n & s & Hin & ->) | (n & s & Hin & Hu)]].
              ** by left; left.
              ** apply elem_of_cons in Hin as [[= ] | Hin].
                 right; left. by exists n, s.
              ** apply elem_of_cons in Hin as [[= -> ->] | Hin].
                 --- by left; right.
                 --- right; right. by exists n, s.
      * rewrite fold_collect_None. split; [| done]. split; [| done].
        intros _. exists name, sub. split; [by left | by apply Hnone].
    + destruct (Z.eqb_spec ty FileType_File) as [-> | Hnf].
      * destruct (IH (acc ++ [Materializer.joinPath pf dir name])) as [IHn IHs]. split.
        -- rewrite IHn. split.
           ++ intros (n & s & Hin & Hu). exists n, s. split; [by right | done].
           ++ intros (n & s & Hin & Hu).
              apply elem_of_cons in Hin as [[= ] | Hin]. by exists n, s.
        -- intros files Hf u. rewrite (IHs files Hf u), elem_of_app.
           rewrite list_elem_of_singleton. split.
           ++ intros [[? | ->] | [(n & s & Hin & ->) | (n & s & Hin & Hu)]].
              ** by left.
              ** right; left. exists name, sub. split; [by left | done].
              ** right; left. exists n, s. split; [by right | done].
              ** right; right. exists n, s. split; [by right | done].
           ++ intros [? | [(n & s & Hin & ->) | (n & s & Hin & Hu)]].
              ** by left; left.
              ** apply elem_of_cons in Hin as [[= -> ->] | Hin].
                 --- by left; right.
                 --- right; left. by exists n, s.
              ** apply elem_of_cons in Hin as [[= ] | Hin].
                 right; right. by exists n, s.
      * destruct (IH acc) as [IHn IHs]. split.
        -- rewrite IHn. split.
           ++ intros (n & s & Hin & Hu). exists n, s. split; [by right | done].
           ++ intros (n & s & Hin & Hu).
              apply elem_of_cons in Hin as [[= ] | Hin]; [congruence |]. by exists n, s.
        -- intros files Hf u. rewrite (IHs files Hf u). split.
           ++ intros [? | [(n & s & Hin & ->) | (n & s & Hin & Hu)]].
              ** by left.
              ** right; left. exists n, s. split; [by right | done].
              ** right; right. exists n, s. split; [by right | done].
           ++ intros [? | [(n & s & Hin & ->) | (n & s & Hin & Hu)]].
              ** by left.
              ** apply elem_of_cons in Hin as [[= ] | Hin]; [congruence |].
                 right; left. by exists n, s.
              ** apply elem_of_cons in Hin as [[= ] | Hin]; [congruence |].
                 right; right. by exists n, s.
Qed.

Lemma collectAllFiles_ok (l : Listing) : forall dir, collect_ok dir l.
Proof.
  induction l as [| items IH] using Listing_nested_ind; intros dir.
  - split.
    + split; [intros _; constructor | done].
    + intros files [=].
  - unfold collect_ok. rewrite collectAllFiles_Items.
    destruct (fold_collect_ok dir items IH []) as [Hn Hs]. split.
    + rewrite Hn. split.
      * intros (n & s & Hin & Hu). by eapply unreadable_below.
      * inversion 1 as [| ? n s Hin Hu]; subst. by exists n, s.
    + intros files Hf u. rewrite (Hs files Hf u). split.
      * intros [H%elem_of_nil | [(n & s & Hin & ->) | (n & s & Hin & Hu)]]; [done | |].
        -- by eapply file_here.
        -- by eapply file_below.
      * inversion 1 as [? ? n s Hin | ? ? n s ? Hin Hu]; subst.
        -- right; left. by exists n, s.
        -- right; right. by exists n, s.
Qed.

(** X9.  [collectAllFiles] is all or nothing.  It rejects exactly when some
    directory on the way (the root, or an item of type [Directory] reached
    through such items) cannot be listed; otherwise it returns exactly the
    items whose type is [File] reached through items whose type is
    [Directory].  An item of any other type, a symbolic link included, is
    neither returned nor entered. *)
Theorem collectAllFiles_all_or_nothing (dir : Uri) (l : Listing) :
  (collectAllFiles dir l = None <-> unreadable l) /\
  (forall files, collectAllFiles dir l = Some files ->
                 forall u, u ∈ files <-> file_at dir l u) /\
  (forall items name ty sub,
      ty <> FileType_Directory -> ty <> FileType_File ->
      collectAllFiles dir (Items (items ++ [(name, ty, sub)]))
      = collectAllFiles dir (Items items)).
Proof.
  destruct (collectAllFiles_ok l dir) as [H1 H2]. split; [exact H1 | split; [exact H2 |]].
  intros items name ty sub Hd Hf. rewrite !collectAllFiles_Items, fold_left_app.
  cbn [fold_left]. unfold collect_item at 1. cbn [fst snd].
  destruct (fold_left _ items _); [| done].
  destruct (Z.eqb_spec ty FileType_Directory); [done |].
  destruct (Z.eqb_spec ty FileType_File); done.
Qed.

End Collect.

Section Loop.
Variable pf : Platform.
Variable root : Uri.
Variable isBinaryFile : list byte -> bool.
(** What [readFile] gives when the loop gets to a file ([None]: it rejects). *)
Variable read : Uri -> option (list byte).

(** [for (const f of all) await sendFileSnapshot(f);]: the calls made, in
    order.  A call that rejects ends the loop. *)
Fixpoint send_all (all : list Uri) : list Happening :=
  match all with
  | [] => []
  | f :: rest =>
      SnapshotNow f (read f)
        :: match read f with Some _ => send_all rest | None => [] end
  end.

(** [try { const all = await collectAllFiles(root); for ... } catch (e) { }] *)
Definition baseline (l : Listing) : list Happening :=
  match collectAllFiles pf root l with
  | Some all => send_all all
  | None => []
  end.

Lemma enqueued_send_all (content : Uri -> list byte) (pre : list Uri) (rest : list Uri)
    (q : QState) :
  Forall (fun f => read f = Some (content f)) pre ->
  RetryQueue.enqueued (queue_run pf root isBinaryFile (send_all (pre ++ rest)) q)
  = map (fun f => Post (snapshot_event pf root isBinaryFile f (content f))) pre
      ++ RetryQueue.enqueued
           (queue_run pf root isBinaryFile (send_all rest)
              (engine_run pf root isBinaryFile (send_all pre) q)).
Proof.
  intros H. revert q. induction H as [| f pre Hf _ IH]; intros q; [done |].
  cbn [app send_all]. rewrite Hf. cbn [queue_run map app engine_run fold_left].
  rewrite enqueued_app. cbn [queue_actions RetryQueue.enqueued omap app].
  f_equal. apply IH.
Qed.

(** X10.  The first snapshot of a workspace.  When a directory cannot be
    listed, no file at all is sent.  Otherwise the files found are read and
    sent one after the other: when all can be read, each gets one
    [fileSnapshot] POST, in the order found, behind what the queue holds
    already; and the first file that cannot be read ends the loop, so the
    files after it are not sent. *)
Theorem baseline_snapshot (acts : list Happening) (l : Listing) :
  (unreadable l -> baseline l = []) /\
  (forall all content,
      collectAllFiles pf root l = Some all ->
      Forall (fun f => read f = Some (content f)) all ->
      all_enqueued (engine_run pf root isBinaryFile (acts ++ baseline l) RetryQueue.init)
      = all_enqueued (engine_run pf root isBinaryFile acts RetryQueue.init)
          ++ map (fun f => Post (snapshot_event pf root isBinaryFile f (content f))) all) /\
  (forall pre f post content,
      collectAllFiles pf root l = Some (pre ++ f :: post) ->
      Forall (fun f => read f = Some (content f)) pre ->
      read f = None ->
      all_enqueued (engine_run pf root isBinaryFile (acts ++ baseline l) RetryQueue.init)
      = all_enqueued (engine_run pf root isBinaryFile acts RetryQueue.init)
          ++ map (fun f => Post (snapshot_event pf root isBinaryFile f (content f))) pre).
Proof.
  split; [| split].
  - intros H. unfold baseline.
    by apply (proj1 (collectAllFiles_ok pf l root)) in H as ->.
  - intros all content Hall Hread. unfold baseline. rewrite Hall.
    rewrite !all_enqueued_run, queue_run_app, enqueued_app. f_equal.
    rewrite <- (app_nil_r all) at 1.
    rewrite (enqueued_send_all content all []) by done.
    cbn [send_all queue_run RetryQueue.enqueued omap]. by rewrite app_nil_r.
  - intros pre f post content Hall Hread Hf. unfold baseline. rewrite Hall.
    rewrite !all_enqueued_run, queue_run_app, enqueued_app. f_equal.
    rewrite (enqueued_send_all content pre (f :: post)) by done.
    cbn [send_all]. rewrite Hf. cbn [queue_run queue_actions app].
    simpl. by rewrite app_nil_r.
Qed.

End Loop.

Local Open Scope string_scope.
Local Open Scope list_scope.

(** A workspace with a file, a directory holding a file, and a symbolic link
    to a file (type 65). *)
Definition small : Listing :=
  Items [("a.txt", 1%Z, Rejects);
         ("src", 2%Z, Items [("main.py", 1%Z, Rejects)]);
         ("link", 65%Z, Rejects)].

Example collectAllFiles_small :
  collectAllFiles Posix (file_uri ["ws"]) small
  = Some [file_uri ["ws"; "a.txt"]; file_uri ["ws"; "src"; "main.py"]].
Proof. reflexivity. Qed.

Lemma baseline_snapshot_witness :
  all_enqueued
    (engine_run Posix (file_uri ["ws"]) (fun _ => false)
       ([] ++ baseline Posix (file_uri ["ws"]) (fun _ => Some ["h"; "i"]%byte) small)
       RetryQueue.init)
  = all_enqueued (engine_run Posix (file_uri ["ws"]) (fun _ => false) [] RetryQueue.init)
      ++ map (fun f => Post (snapshot_event Posix (file_uri ["ws"]) (fun _ => false) f
                               ["h"; "i"]%byte))
           [file_uri ["ws"; "a.txt"]; file_uri ["ws"; "src"; "main.py"]].
Proof.
  refine (proj1 (proj2 (baseline_snapshot Posix (file_uri ["ws"]) (fun _ => false)
                          (fun _ => Some ["h"; "i"]%byte) [] small))
            _ (fun _ => ["h"; "i"]%byte) eq_refl _).
  by repeat constructor.
Defined.

End Baseline.

(** ** The session on disk *)

Module Session.
Import Encoding Path Materializer.
Local Open Scope string_scope.
Local Open Scope list_scope.

Lemma elem_of_inits (p d : list string) : d ∈ inits p <-> d `prefix_of` p.
Proof.
  revert d. induction p as [| a p IH]; intros d; simpl.
  - rewrite list_elem_of_singleton. split.
    + by intros ->.
    + intros H. by apply prefix_nil_inv in H.
  - rewrite elem_of_cons, list_elem_of_fmap. split.
    + intros [-> | (d' & -> & Hd')]; [apply prefix_nil |].
      apply prefix_cons. by apply IH.
    + destruct d as [| b d]; [by left |]. intros H. right.
      pose proof (prefix_cons_inv_1 _ _ _ _ H) as ->.
      apply prefix_cons_inv_2 in H. exists d. split; [done |]. by apply IH.
Qed.

Lemma createDirectory_Some (p : list string) (fs fs' : FS) :
  createDirectory p fs = Some fs' ->
  (forall d, d `prefix_of` p -> is_file fs d = false) /\
  fs' = foldr (fun d m => <[d := Dir]> m) fs (inits p).
Proof.
  unfold createDirectory. destruct (existsb _ _) eqn:E; [done |]. intros [= <-].
  split; [| done]. intros d Hd%elem_of_inits.
  apply not_true_is_false. intros Hf.
  assert (existsb (is_file fs) (inits p) = true); [| congruence].
  apply existsb_exists. exists d. split; [by apply list_elem_of_In | done].
Qed.

Lemma createDirectory_None (p : list string) (fs : FS) :
  createDirectory p fs = None <-> exists d, d `prefix_of` p /\ is_file fs d = true.
Proof.
  unfold createDirectory. destruct (existsb _ _) eqn:E.
  - split; [intros _ | done].
    apply existsb_exists in E as (d & Hd & Hf). exists d.
    split; [by apply elem_of_inits, list_elem_of_In | done].
  - split; [done |]. intros (d & Hd & Hf).
    assert (existsb (is_file fs) (inits p) = true); [| congruence].
    apply existsb_exists. exists d.
    split; [by apply list_elem_of_In, elem_of_inits | done].
Qed.

Lemma lookup_ensureDir (dir : Uri) (fs : FS) (k : list string) :
  ensureDir dir fs !! k =
  if bool_decide (k `prefix_of` segs dir)
     && negb (existsb (is_file fs) (inits (segs dir)))
  then Some Dir else fs !! k.
Proof.
  unfold ensureDir, createDirectory.
  destruct (existsb _ _); simpl; [by rewrite andb_false_r |].
  rewrite andb_true_r, lookup_mkdirs.
  destruct (decide (k ∈ inits (segs dir))) as [H | H].
  - by rewrite bool_decide_eq_true_2 by (by apply elem_of_inits).
  - rewrite bool_decide_eq_false_2; [done |]. by rewrite <- elem_of_inits.
Qed.

(** X11.  [ensureDir] never fails and never harms a file.  When no file is
    in the way, the directory and every directory above it exist afterwards;
    when the path or one above it is a file, nothing changes at all (the
    error is swallowed).  In both cases every file keeps its content, every
    other path is as it was, and a second call changes nothing. *)
Theorem ensureDir_spec (dir : Uri) (fs : FS) :
  ((forall d, d `prefix_of` segs dir -> is_file fs d = false) ->
   forall d, d `prefix_of` segs dir -> ensureDir dir fs !! d = Some Dir) /\
  ((exists d, d `prefix_of` segs dir /\ is_file fs d = true) -> ensureDir dir fs = fs) /\
  (forall p buf, fs !! p = Some (File buf) -> ensureDir dir fs !! p = Some (File buf)) /\
  (forall p, ~ p `prefix_of` segs dir -> ensureDir dir fs !! p = fs !! p) /\
  ensureDir dir (ensureDir dir fs) = ensureDir dir fs.
Proof.
  split; [| split; [| split; [| split]]].
  - intros Hfree d Hd. unfold ensureDir.
    rewrite createDirectory_free by (intros d' Hd'%elem_of_inits; by apply Hfree).
    simpl. rewrite lookup_mkdirs. by rewrite decide_True by (by apply elem_of_inits).
  - intros H%createDirectory_None. unfold ensureDir. by rewrite H.
  - intros p buf Hp. unfold ensureDir.
    destruct (createDirectory (segs dir) fs) as [fs' |] eqn:E; [| done]. simpl.
    apply createDirectory_Some in E as [Hfree ->]. rewrite lookup_mkdirs.
    destruct (decide (p ∈ inits (segs dir))) as [Hin%elem_of_inits |]; [| done].
    specialize (Hfree p Hin). unfold is_file in Hfree. by rewrite Hp in Hfree.
  - intros p Hp. rewrite lookup_ensureDir.
    by rewrite bool_decide_eq_false_2.
  - unfold ensureDir at 2 3.
    destruct (createDirectory (segs dir) fs) as [fs' |] eqn:E; simpl.
    + apply createDirectory_Some in E as [Hfree ->].
      apply map_eq. intros k. rewrite lookup_ensureDir, lookup_mkdirs.
      destruct (decide (k ∈ inits (segs dir))) as [Hin | Hin].
      * by destruct (_ && _).
      * rewrite bool_decide_eq_false_2; [done |]. by rewrite <- elem_of_inits.
    + unfold ensureDir. by rewrite E.
Qed.

Section Cleanup.
Variable pf : Platform.
Variable locked : list string -> bool.

Lemma cleanup_entry_subset (base : Uri) (keep : gset string) (fs : FS) (name : string)
    (k : list string) :
  cleanup_entry pf locked base keep fs name !! k = None \/
  cleanup_entry pf locked base keep fs name !! k = fs !! k.
Proof.
  unfold cleanup_entry. case_decide; [by right |].
  destruct (delete locked _ fs) as [fs' |] eqn:E; [| by right]. simpl.
  destruct (decide (segs (joinPath pf base name) `prefix_of` k)).
  - left. by eapply lookup_delete_below.
  - right. by eapply lookup_delete_other.
Qed.

Lemma cleanup_fold_subset (base : Uri) (keep : gset string) (entries : list string)
    (fs : FS) (k : list string) :
  fold_left (cleanup_entry pf locked base keep) entries fs !! k = None \/
  fold_left (cleanup_entry pf locked base keep) entries fs !! k = fs !! k.
Proof.
  revert fs. induction entries as [| e entries IH]; intros fs; [by right |].
  simpl. destruct (IH (cleanup_entry pf locked base keep fs e)) as [H | H]; [by left |].
  rewrite H. apply cleanup_entry_subset.
Qed.

Lemma cleanup_outside (baseRoot : Uri) (openFolders : list Uri) (fs : FS) (k : list string) :
  (forall n, is_Some (fs !! (segs baseRoot ++ [n])) -> is_segment pf n = true) ->
  (forall n, ~ (segs baseRoot ++ [n]) `prefix_of` k) ->
  cleanupOldSessions pf locked baseRoot openFolders fs !! k = fs !! k.
Proof.
  intros Hseg Hk. unfold cleanupOldSessions.
  destruct (readDirectory (segs baseRoot) fs) as [entries |] eqn:E; [| done].
  cbn [default].
  apply cleanup_fold_untouched. intros e He.
  apply (elem_of_readDirectory _ _ _ _ E), Hseg in He.
  rewrite joinPath_segment by done. cbn [segs]. intros Hp. by destruct (Hk e).
Qed.

(** X12.  [cleanupOldSessions] only ever removes, and only below the
    children of the sessions root.  Whatever the open folders and whatever the
    host refuses, a path is afterwards either gone or exactly as it was;
    nothing is created or rewritten.  When the names in the sessions root are
    single path segments, every path that is not a child of the root or below
    one (the root itself, everything above and beside it) is as it was.
    And when the sessions root cannot be listed, nothing changes. *)
Theorem cleanup_only_removes (baseRoot : Uri) (openFolders : list Uri) (fs : FS) :
  (forall k, cleanupOldSessions pf locked baseRoot openFolders fs !! k = None \/
             cleanupOldSessions pf locked baseRoot openFolders fs !! k = fs !! k) /\
  ((forall n, is_Some (fs !! (segs baseRoot ++ [n])) -> is_segment pf n = true) ->
   forall k, (forall n, ~ (segs baseRoot ++ [n]) `prefix_of` k) ->
             cleanupOldSessions pf locked baseRoot openFolders fs !! k = fs !! k) /\
  (fs !! segs baseRoot <> Some Dir ->
   cleanupOldSessions pf locked baseRoot openFolders fs = fs).
Proof.
  split; [| split].
  - intros k. apply cleanup_fold_subset.
  - intros Hseg k Hk. by apply cleanup_outside.
  - intros Hd. unfold cleanupOldSessions, readDirectory.
    by destruct (fs !! segs baseRoot) as [[] |].
Qed.

End Cleanup.

Section Start.
Variable pf : Platform.
Variable locked : list string -> bool.
Variable openFolders : list Uri.
Variable tmpdir : Uri.
Variable unique : string.
Variable parse_url : string -> option Url.
Variable fetch : Url -> option Response.
Variable config_bytes : string -> StartPayload -> list byte.
Variable settings_bytes : option (list byte) -> list byte.

#[local] Abbreviation download :=
  (downloadAndMaterializeWorkspace pf locked openFolders tmpdir unique parse_url fetch
     config_bytes settings_bytes).
#[local] Abbreviation start :=
  (handleUri pf locked openFolders tmpdir unique parse_url fetch config_bytes settings_bytes).

(** X13.  A start that fails before the code reaches the disk leaves the
    disk alone.  A link without a [server] value, or with one that is no URL,
    ends with nothing requested and nothing touched; a rejected request, an
    answer that is not 2xx and a body that is no JSON end after that one GET
    with the local files as they were: no sessions root is created and no old
    session is removed.  A body that is JSON but cannot be iterated fails
    later, in the loop over the manifest: by then the sessions root has been
    created, the old sessions have been cleaned up and the new session folder
    has been created, and that is all that has happened to the disk. *)
Theorem failed_start_leaves_disk (params : list (string * string)) (w : World)
    (f : Failure) :
  (start params w).1 = inl f ->
  match f with
  | MissingServer | InvalidUrl => (start params w).2 = w
  | FetchRejected | FetchFailed _ | DecodeFailed =>
      files (start params w).2 = files w /\
      exists url, requests (start params w).2 = requests w ++ [url]
  | NotIterable =>
      (exists serverUrl payload,
          parseInvokeUri params = Some (serverUrl, payload) /\
          files (start params w).2
          = ensureDir
              (joinPath pf (joinPath pf tmpdir "workspace-launch-by-link")
                 ("session-" +:+ unique +:+ "-" +:+ default "unknown" (exercise payload)))
              (cleanupOldSessions pf locked
                 (joinPath pf tmpdir "workspace-launch-by-link") openFolders
                 (ensureDir (joinPath pf tmpdir "workspace-launch-by-link") (files w)))) /\
      exists url, requests (start params w).2 = requests w ++ [url]
  | WriteFailed _ => True
  end.
Proof.
  unfold handleUri.
  destruct (parseInvokeUri params) as [[serverUrl payload] |]; [| by intros [= <-]].
  unfold downloadAndMaterializeWorkspace.
  destruct (parse_url serverUrl) as [base |]; [| by intros [= <-]].
  destruct (fetch _) as [res |]; [| intros [= <-]; cbn [fst snd files requests]; eauto].
  destruct (negb (ok res)); [intros [= <-]; cbn [fst snd files requests]; eauto |].
  destruct (json res) as [| | manifest].
  - intros [= <-]. cbn [fst snd files requests]. eauto.
  - intros [= <-]. cbn [fst snd files requests]. split; [| eauto].
    by exists serverUrl, payload.
  - destruct (materialize_entries _ _ _ _) as [[target fs4] | fs4]; [by intros [= <-] |].
    destruct (writeFile _ _ _); [done | by intros [= <-]].
Qed.

(** A link starts a download exactly when it has a [server] value that is
    not empty. *)
Lemma parseInvokeUri_None (params : list (string * string)) :
  parseInvokeUri params = None <-> get_nonempty "server" params = None.
Proof. unfold parseInvokeUri. by destruct (get_nonempty "server" params). Qed.

(** *** What a successful start leaves behind *)

(** [JSON.parse(Buffer.from(data).toString('utf8'))] of [activate], [None]
    when it throws. *)
Variable Config : Type.
Variable parse_config : list byte -> option Config.

(** [vscode.Uri.joinPath(folder.uri, '.vscode', 'workspace-launch-by-link.json')] *)
Definition marker (folder : Uri) : Uri :=
  joinPath pf (joinPath pf folder ".vscode") "workspace-launch-by-link.json".

(** The end of [activate]: the folders for which [beginWatchAndSync] is
    called, each with the configuration read from its marker.  A folder whose
    marker cannot be read or parsed is passed over. *)
Definition autostart (wsFolders : option (list Uri)) (fs : FS) : list (Uri * Config) :=
  omap (fun folder =>
          match readFile (segs (marker folder)) fs with
          | Some data =>
              match parse_config data with
              | Some cfg => Some (folder, cfg)
              | None => None
              end
          | None => None
          end)
       (default [] wsFolders).

Lemma is_segment_marker : is_segment pf "workspace-launch-by-link.json" = true.
Proof. destruct pf; vm_compute; reflexivity. Qed.

Lemma is_segment_settings : is_segment pf "settings.json" = true.
Proof. destruct pf; vm_compute; reflexivity. Qed.

Lemma lookup_writeFile (p : list string) (buf : list byte) (fs fs' : FS) :
  writeFile p buf fs = Some fs' -> fs' !! p = Some (File buf).
Proof.
  unfold writeFile. destruct (fs !! p) as [[] |];
    destruct (createDirectory (removelast p) fs); intros [= <-];
    by rewrite lookup_insert_eq.
Qed.

Lemma lookup_writeFile_other (p k : list string) (buf : list byte) (fs fs' : FS) :
  writeFile p buf fs = Some fs' ->
  k <> p -> ~ k `prefix_of` removelast p -> fs' !! k = fs !! k.
Proof.
  intros H Hk Hp. unfold writeFile in H.
  assert (Hc : exists fs1, createDirectory (removelast p) fs = Some fs1 /\
                           fs' = <[p := File buf]> fs1).
  { destruct (fs !! p) as [[] |];
      destruct (createDirectory (removelast p) fs) as [fs1 |];
      try done; injection H as <-; by exists fs1. }
  destruct Hc as (fs1 & Hc & ->). rewrite lookup_insert_ne by done.
  apply createDirectory_Some in Hc as [_ ->]. rewrite lookup_mkdirs.
  rewrite decide_False; [done |]. by rewrite elem_of_inits.
Qed.

Lemma not_prefix_snoc (vs : list string) (a b : string) :
  ~ (vs ++ [a]) `prefix_of` removelast (vs ++ [b]).
Proof.
  rewrite removelast_last. intros H%prefix_length. rewrite length_app in H. simpl in H. lia.
Qed.

(** X14.  A session that was materialized is recognised when its folder is
    opened.  When [downloadAndMaterializeWorkspace] returns a folder, the
    marker file [.vscode/workspace-launch-by-link.json] in that folder holds
    the configuration that was written for this server and identity (the
    later update of [settings.json] does not disturb it, whether it works or
    not), so the next activation with this folder open starts the
    synchronisation for it with that configuration. *)
Theorem materialized_session_restarts (serverUrl : string) (payload : StartPayload)
    (w : World) (workspaceRoot : Uri) :
  (download serverUrl payload w).1 = inr workspaceRoot ->
  readFile (segs (marker workspaceRoot)) (files (download serverUrl payload w).2)
    = Some (config_bytes serverUrl payload) /\
  forall cfg,
    parse_config (config_bytes serverUrl payload) = Some cfg ->
    autostart (Some [workspaceRoot]) (files (download serverUrl payload w).2)
    = [(workspaceRoot, cfg)].
Proof.
  intros H.
  assert (Hm : readFile (segs (marker workspaceRoot)) (files (download serverUrl payload w).2)
               = Some (config_bytes serverUrl payload)).
  { revert H. unfold downloadAndMaterializeWorkspace.
    destruct (parse_url serverUrl) as [base |]; [| done].
    destruct (fetch _) as [res |]; [| done].
    destruct (negb (ok res)); [done |].
    destruct (json res) as [| | manifest]; [done | done |].
    destruct (materialize_entries _ _ _ _) as [[target fs4] | fs4]; [done |].
    set (root := joinPath pf (joinPath pf tmpdir "workspace-launch-by-link") _).
    set (vscodeDir := joinPath pf root ".vscode").
    destruct (writeFile _ (config_bytes serverUrl payload) _) as [fs6 |] eqn:E6; [| done].
    cbn [fst snd files]. intros [= <-]. unfold marker. fold vscodeDir.
    apply lookup_writeFile in E6.
    unfold readFile.
    destruct (writeFile (segs (joinPath pf vscodeDir "settings.json")) _ fs6)
      as [fs7 |] eqn:E7; cbn [default]; [| by rewrite E6].
    erewrite lookup_writeFile_other; [by rewrite E6 | exact E7 | |].
    - rewrite !joinPath_segment by (apply is_segment_marker || apply is_segment_settings).
      cbn [segs]. intros Heq. apply app_inj_tail in Heq as [_ Heq]. discriminate Heq.
    - rewrite !joinPath_segment by (apply is_segment_marker || apply is_segment_settings).
      cbn [segs]. apply not_prefix_snoc. }
  split; [exact Hm |]. intros cfg Hcfg. unfold autostart.
  change (default [] (Some [workspaceRoot])) with [workspaceRoot].
  cbn [omap list_omap]. by rewrite Hm, Hcfg.
Qed.

End Start.

Lemma failed_start_leaves_disk_witness :
  files (handleUri Posix (fun _ => false) [] (file_uri ["tmp"]) "1-abc"
           (fun s => Some (mkUrl s "/" [])) (fun _ => None)
           (fun _ _ => []) (fun _ => [])
           [("server", "http://localhost:8787")] (mkWorld ∅ [])).2 = ∅.
Proof.
  exact (proj1 (failed_start_leaves_disk Posix (fun _ => false) [] (file_uri ["tmp"]) "1-abc"
                  (fun s => Some (mkUrl s "/" [])) (fun _ => None)
                  (fun _ _ => []) (fun _ => [])
                  [("server", "http://localhost:8787")] (mkWorld ∅ []) FetchRejected eq_refl)).
Defined.

Lemma materialized_session_restarts_witness :
  autostart Posix unit (fun _ => Some tt)
    (Some [file_uri ["tmp"; "workspace-launch-by-link"; "session-1-abc-demo"]])
    (files mock_run.2)
  = [(file_uri ["tmp"; "workspace-launch-by-link"; "session-1-abc-demo"], tt)].
Proof.
  refine (proj2 (materialized_session_restarts Posix (fun _ => false) [] (file_uri ["tmp"])
                   "1-abc" (fun s => Some (mkUrl s "/" []))
                   (fun _ => Some (mkResponse 200 (JsonArray mock_manifest)))
                   (fun _ _ => []) (fun _ => []) unit (fun _ => Some tt)
                   "http://localhost:8787" (mkPayload (Some "alice") (Some "demo") None)
                   (mkWorld {[ ["tmp"] := Dir ]} [])
                   (file_uri ["tmp"; "workspace-launch-by-link"; "session-1-abc-demo"]) _)
            tt eq_refl).
  vm_compute. reflexivity.
Defined.

Section Entries.
Variable pf : Platform.

(** An entry that is not a directory, where its target can be written: the
    files afterwards, path by path. *)
Lemma materialize_entry_file (workspaceRoot : Uri) (fs : FS) (p ty : string)
    (c : option string) :
  ty <> "directory" ->
  segs (joinPath pf workspaceRoot p) <> [] ->
  fs !! segs (joinPath pf workspaceRoot p) <> Some Dir ->
  (forall d, d `prefix_of` removelast (segs (joinPath pf workspaceRoot p)) ->
             is_file fs d = false) ->
  exists fs',
    materialize_entry pf workspaceRoot fs (mkEntry p ty c) = inr fs' /\
    forall k,
      fs' !! k =
      if decide (k = segs (joinPath pf workspaceRoot p))
      then Some (File (from_base64 (or_empty c)))
      else if decide (k `prefix_of` removelast (segs (joinPath pf workspaceRoot p)))
           then Some Dir else fs !! k.
Proof.
  intros Hty Hne Hd Hfree.
  set (target := joinPath pf workspaceRoot p) in *.
  set (parent := removelast (segs target)) in *.
  set (fs1 := foldr (fun d m => <[d := Dir]> m) fs (inits parent)).
  assert (Hnot : segs target ∉ inits parent).
  { intros Hin%inits_length. pose proof (removelast_shorter _ Hne). unfold parent in *. lia. }
  assert (H1 : ensureDir (dirname target) fs = fs1).
  { unfold ensureDir, dirname. cbn [segs file_uri].
    rewrite createDirectory_free; [done |]. intros d Hin%elem_of_inits. by apply Hfree. }
  assert (H2 : createDirectory parent fs1
               = Some (foldr (fun d m => <[d := Dir]> m) fs1 (inits parent))).
  { apply createDirectory_free. intros d Hin. unfold is_file, fs1.
    rewrite lookup_mkdirs. by rewrite decide_True. }
  exists (<[segs target := File (from_base64 (or_empty c))]>
            (foldr (fun d m => <[d := Dir]> m) fs1 (inits parent))).
  split.
  - unfold materialize_entry. cbn [type path contentBase64].
    destruct (String.eqb_spec ty "directory") as [E | _]; [done |].
    fold target. rewrite H1. unfold writeFileFromBase64, writeFile.
    replace (fs1 !! segs target) with (fs !! segs target)
      by (unfold fs1; rewrite lookup_mkdirs; by rewrite decide_False).
    fold parent. rewrite H2.
    by destruct (fs !! segs target) as [[] |].
  - intros k. destruct (decide (k = segs target)) as [-> | Hk].
    + by rewrite lookup_insert_eq.
    + rewrite lookup_insert_ne by done. rewrite lookup_mkdirs.
      destruct (decide (k `prefix_of` parent)) as [Hp | Hp].
      * by rewrite decide_True by (by apply elem_of_inits).
      * rewrite decide_False by (by rewrite elem_of_inits).
        unfold fs1. rewrite lookup_mkdirs.
        by rewrite decide_False by (by rewrite elem_of_inits).
Qed.

(** X15.  What the server sends is what lands on disk.  An entry that is
    not a directory (whatever else its [type] says) and whose [contentBase64]
    is the base64 text of some bytes is written, where its target can be
    written at all, as a file of exactly these bytes; the directories above it
    are created, and nothing else changes. *)
Theorem file_entry_roundtrip (workspaceRoot : Uri) (fs : FS) (p ty : string)
    (bs : list byte) :
  ty <> "directory" ->
  segs (joinPath pf workspaceRoot p) <> [] ->
  fs !! segs (joinPath pf workspaceRoot p) <> Some Dir ->
  (forall d, d `prefix_of` removelast (segs (joinPath pf workspaceRoot p)) ->
             is_file fs d = false) ->
  exists fs',
    materialize_entry pf workspaceRoot fs (mkEntry p ty (Some (toString_base64 bs)))
      = inr fs' /\
    readFile (segs (joinPath pf workspaceRoot p)) fs' = Some bs /\
    (forall d, d `prefix_of` removelast (segs (joinPath pf workspaceRoot p)) ->
               fs' !! d = Some Dir) /\
    (forall k, k <> segs (joinPath pf workspaceRoot p) ->
               ~ k `prefix_of` removelast (segs (joinPath pf workspaceRoot p)) ->
               fs' !! k = fs !! k).
Proof.
  intros Hty Hne Hd Hfree.
  destruct (materialize_entry_file workspaceRoot fs p ty (Some (toString_base64 bs))
              Hty Hne Hd Hfree) as (fs' & He & Hl).
  exists fs'. split; [exact He |]. split; [| split].
  - unfold readFile. rewrite Hl, decide_True by done.
    change (or_empty (Some (toString_base64 bs))) with (toString_base64 bs).
    by rewrite from_base64_toString.
  - intros d Hp. rewrite Hl, decide_False, decide_True; [done | done |].
    intros ->. apply prefix_length in Hp.
    pose proof (removelast_shorter _ Hne). lia.
  - intros k Hk Hp. by rewrite Hl, decide_False, decide_False.
Qed.




End Entries.

(** *** The identity in the request *)

Definition nonempty (field : option string) : option string :=
  match field with
  | Some v => if String.eqb v "" then None else Some v
  | None => None
  end.

Lemma params_get_filter (name other : string) (l : list (string * string)) :
  name <> other ->
  params_get name (List.filter (fun kv => negb (String.eqb kv.1 other)) l)
  = params_get name l.
Proof.
  intros Hne. unfold params_get. induction l as [| [k x] l IH]; [done |]. simpl.
  destruct (String.eqb_spec k other) as [-> | Hk]; simpl.
  - destruct (String.eqb_spec other name); [congruence | exact IH].
  - destruct (String.eqb k name); [done | exact IH].
Qed.

Lemma params_get_set_first (name value : string) (l : list (string * string)) :
  existsb (fun kv => String.eqb kv.1 name) l = true ->
  params_get name (set_first name value l) = Some value.
Proof.
  unfold params_get. induction l as [| [k x] l IH]; [done |]. simpl.
  destruct (String.eqb_spec k name) as [-> | Hk]; simpl.
  - by rewrite String.eqb_refl.
  - destruct (String.eqb_spec k name); [done |]. exact IH.
Qed.

Lemma params_get_set_first_other (name other value : string) (l : list (string * string)) :
  name <> other ->
  params_get name (set_first other value l) = params_get name l.
Proof.
  intros Hne. induction l as [| [k x] l IH]; [done |]. simpl.
  destruct (String.eqb_spec k other) as [-> | Hk].
  - unfold params_get at 1 2. simpl.
    destruct (String.eqb_spec other name); [congruence |].
    apply (params_get_filter name other l Hne).
  - unfold params_get in *. simpl. destruct (String.eqb k name); [done | exact IH].
Qed.

Lemma params_get_app_None (name : string) (l l' : list (string * string)) :
  existsb (fun kv => String.eqb kv.1 name) l = false ->
  params_get name (l ++ l') = params_get name l'.
Proof.
  unfold params_get. induction l as [| [k x] l IH]; [done |]. simpl.
  destruct (String.eqb k name); [done | exact IH].
Qed.

Lemma params_get_app_Some (name : string) (l l' : list (string * string)) (v : string) :
  params_get name l = Some v -> params_get name (l ++ l') = Some v.
Proof.
  unfold params_get. induction l as [| [k x] l IH]; [done |]. simpl.
  destruct (String.eqb k name); [done | exact IH].
Qed.

Lemma params_get_set (name other value : string) (l : list (string * string)) :
  params_get name (searchParams_set other value l)
  = if String.eqb name other then Some value else params_get name l.
Proof.
  unfold searchParams_set. destruct (String.eqb_spec name other) as [-> | Hne].
  - destruct (existsb _ l) eqn:E; [by apply params_get_set_first |].
    rewrite params_get_app_None by done. unfold params_get. simpl.
    by rewrite String.eqb_refl.
  - destruct (existsb _ l) eqn:E; [by apply params_get_set_first_other |].
    unfold params_get. induction l as [| [k x] l IH]; simpl.
    + by destruct (String.eqb_spec other name); [congruence |].
    + simpl in E. apply orb_false_elim in E as [_ E].
      destruct (String.eqb k name); [done | by apply IH].
Qed.

Lemma params_get_set_if (name other : string) (field : option string)
    (l : list (string * string)) :
  params_get name (set_if other field l)
  = if String.eqb name other
    then match nonempty field with Some v => Some v | None => params_get name l end
    else params_get name l.
Proof.
  destruct field as [v |]; simpl; [| by destruct (String.eqb name other)].
  destruct (String.eqb v ""); [by destruct (String.eqb name other) |].
  apply params_get_set.
Qed.

(** X16.  What the server reads in the query of the manifest request.  For
    each of [student], [exercise] and [token]: when the field is present and
    not empty, its value is what the query gives under that name, whatever
    the server URL had there; when the field is absent or empty the parameter
    of the server URL, if any, stays.  Every other parameter of the server
    URL is read as before. *)
Theorem manifest_query (base : Url) (payload : StartPayload) (name : string) :
  params_get name (searchParams (manifest_url base payload))
  = match (if String.eqb name "student" then nonempty (student payload)
           else if String.eqb name "exercise" then nonempty (exercise payload)
           else if String.eqb name "token" then nonempty (token payload)
           else None) with
    | Some v => Some v
    | None => params_get name (searchParams base)
    end.
Proof.
  unfold manifest_url. cbn [searchParams]. rewrite !params_get_set_if.
  destruct (String.eqb_spec name "token") as [-> | ?];
    [by destruct (nonempty (token payload)) |].
  destruct (String.eqb_spec name "exercise") as [-> | ?];
    [by destruct (nonempty (exercise payload)) |].
  destruct (String.eqb_spec name "student") as [-> | ?]; [| done].
  by destruct (nonempty (student payload)).
Qed.

Lemma get_nonempty_nonempty (name : string) (params : list (string * string)) :
  nonempty (get_nonempty name params) = get_nonempty name params.
Proof.
  unfold get_nonempty. destruct (params_get name params) as [v |]; [| done].
  destruct (String.eqb v "") eqn:E; [done |]. simpl. by rewrite E.
Qed.

Section Link.
Variable pf : Platform.
Variable locked : list string -> bool.
Variable openFolders : list Uri.
Variable tmpdir : Uri.
Variable unique : string.
Variable parse_url : string -> option Url.
Variable fetch : Url -> option Response.
Variable config_bytes : string -> StartPayload -> list byte.
Variable settings_bytes : option (list byte) -> list byte.

(** X17.  The identity of the link is the identity of the request.  A link
    with a [server] value that parses as a URL without a query leads to one
    GET, to [/manifest] on that origin, in which each of [student],
    [exercise] and [token] has the first value the link gives it, and is left
    out when the link has none or an empty one; the [server] value itself is
    not passed on. *)
Theorem link_identity_reaches_server (params : list (string * string)) (w : World)
    (server : string) (base : Url) :
  get_nonempty "server" params = Some server ->
  parse_url server = Some base ->
  searchParams base = [] ->
  exists url,
    requests (handleUri pf locked openFolders tmpdir unique parse_url fetch config_bytes
                settings_bytes params w).2 = requests w ++ [url] /\
    origin url = origin base /\
    pathname url = "/manifest" /\
    params_get "student" (searchParams url) = get_nonempty "student" params /\
    params_get "exercise" (searchParams url) = get_nonempty "exercise" params /\
    params_get "token" (searchParams url) = get_nonempty "token" params /\
    params_get "server" (searchParams url) = None.
Proof.
  intros Hs Hp Hq. unfold handleUri, parseInvokeUri. rewrite Hs.
  set (payload := mkPayload _ _ _).
  exists (manifest_url base payload). split; [| split; [done | split; [done |]]].
  - unfold downloadAndMaterializeWorkspace. rewrite Hp.
    destruct (fetch _) as [res |]; [| done].
    destruct (negb (ok res)); [done |].
    destruct (json res) as [| | manifest]; [done | done |].
    destruct (materialize_entries _ _ _ _) as [[target fs4] | fs4]; [done |].
    by destruct (writeFile _ _ _).
  - unfold manifest_url. cbn [searchParams]. rewrite !params_get_set_if.
    unfold payload. cbn [student exercise token String.eqb Ascii.eqb Bool.eqb].
    rewrite !get_nonempty_nonempty, Hq.
    repeat split; try done.
    + by destruct (get_nonempty "student" params).
    + by destruct (get_nonempty "exercise" params).
    + by destruct (get_nonempty "token" params).
Qed.

End Link.

Lemma file_entry_roundtrip_witness :
  exists fs',
    materialize_entry Posix (file_uri ["tmp"; "ws"]) {[ ["tmp"] := Dir ]}
      (mkEntry "src/a.txt" "file" (Some (toString_base64 ["h"; "i"]%byte))) = inr fs' /\
    readFile ["tmp"; "ws"; "src"; "a.txt"] fs' = Some ["h"; "i"]%byte.
Proof.
  destruct (file_entry_roundtrip Posix (file_uri ["tmp"; "ws"]) {[ ["tmp"] := Dir ]}
              "src/a.txt" "file" ["h"; "i"]%byte) as (fs' & H1 & H2 & _).
  - discriminate.
  - discriminate.
  - vm_compute. discriminate.
  - intros d Hd%elem_of_inits. apply list_elem_of_In in Hd. simpl in Hd.
    destruct Hd as [<- | [<- | [<- | [<- | []]]]]; reflexivity.
  - exists fs'. split; [exact H1 | exact H2].
Defined.

Lemma link_identity_reaches_server_witness :
  exists url,
    requests (handleUri Posix (fun _ => false) [] (file_uri ["tmp"]) "1-abc"
                (fun s => Some (mkUrl s "/" [])) (fun _ => None)
                (fun _ _ => []) (fun _ => [])
                [("server", "http://localhost:8787"); ("student", "alice"); ("token", "")]
                (mkWorld ∅ [])).2 = [] ++ [url] /\
    params_get "student" (searchParams url) = Some "alice" /\
    params_get "token" (searchParams url) = None.
Proof.
  destruct (link_identity_reaches_server Posix (fun _ => false) [] (file_uri ["tmp"]) "1-abc"
              (fun s => Some (mkUrl s "/" [])) (fun _ => None)
              (fun _ _ => []) (fun _ => [])
              [("server", "http://localhost:8787"); ("student", "alice"); ("token", "")]
              (mkWorld ∅ []) "http://localhost:8787" (mkUrl "http://localhost:8787" "/" [])
              eq_refl eq_refl eq_refl)
    as (url & H1 & _ & _ & H2 & _ & H3 & _).
  exists url. split; [exact H1 | split; [exact H2 | exact H3]].
Defined.

(** *** Nothing outside the sessions root *)

Section Contained.
Variable pf : Platform.
Variable locked : list string -> bool.
Variable openFolders : list Uri.
Variable tmpdir : Uri.
Variable unique : string.
Variable parse_url : string -> option Url.
Variable fetch : Url -> option Response.
Variable config_bytes : string -> StartPayload -> list byte.
Variable settings_bytes : option (list byte) -> list byte.

(** [<tmpdir>/workspace-launch-by-link] *)
Definition sessionsRoot : Uri := joinPath pf tmpdir "workspace-launch-by-link".

(** [<sessionsRoot>/session-<unique>-<exercise>] *)
Definition workspaceRoot (payload : StartPayload) : Uri :=
  joinPath pf sessionsRoot
    ("session-" +:+ unique +:+ "-" +:+ default "unknown" (exercise payload)).

(** The directories down to [tmpdir] exist. *)
Definition above_ok (fs : FS) : Prop :=
  forall d, d `prefix_of` segs tmpdir -> fs !! d = Some Dir.

(** [fs'] differs from [fs] only in the sessions root and below. *)
Definition same_outside (fs fs' : FS) : Prop :=
  forall k, ~ segs sessionsRoot `prefix_of` k -> fs' !! k = fs !! k.

Lemma is_segment_root : is_segment pf "workspace-launch-by-link" = true.
Proof. destruct pf; vm_compute; reflexivity. Qed.

Lemma is_segment_vscode : is_segment pf ".vscode" = true.
Proof. destruct pf; vm_compute; reflexivity. Qed.

Lemma segs_sessionsRoot : segs sessionsRoot = segs tmpdir ++ ["workspace-launch-by-link"].
Proof. unfold sessionsRoot. by rewrite joinPath_segment by apply is_segment_root. Qed.

Lemma prefix_snoc_inv (k l : list string) (a : string) :
  k `prefix_of` l ++ [a] -> k = l ++ [a] \/ k `prefix_of` l.
Proof.
  intros [r Hr]. destruct r as [| x r _] using rev_ind.
  - left. by rewrite app_nil_r in Hr.
  - right. rewrite app_assoc in Hr. apply app_inj_tail in Hr as [-> _]. by exists r.
Qed.

(** A path above something inside the sessions root, but not itself inside,
    is [tmpdir] or above it. *)
Lemma outside_above (k t : list string) :
  segs sessionsRoot `prefix_of` t -> k `prefix_of` t ->
  ~ segs sessionsRoot `prefix_of` k -> k `prefix_of` segs tmpdir.
Proof.
  intros Hs Hk Hout.
  destruct (prefix_weak_total _ _ _ Hk Hs) as [H | H]; [| done].
  rewrite segs_sessionsRoot in H, Hout.
  apply prefix_snoc_inv in H as [-> | H]; [by destruct Hout | done].
Qed.

Lemma above_outside (d : list string) :
  d `prefix_of` segs tmpdir -> ~ segs sessionsRoot `prefix_of` d.
Proof.
  intros Hd Hs. rewrite segs_sessionsRoot in Hs.
  apply prefix_length in Hd, Hs. rewrite length_app in Hs. cbn [length] in Hs. lia.
Qed.

Lemma same_outside_above (fs fs' : FS) :
  same_outside fs fs' -> above_ok fs -> above_ok fs'.
Proof. intros Hsame Hok d Hd. rewrite Hsame by (by apply above_outside). by apply Hok. Qed.

Lemma same_outside_trans (fs1 fs2 fs3 : FS) :
  same_outside fs1 fs2 -> same_outside fs2 fs3 -> same_outside fs1 fs3.
Proof. intros H1 H2 k Hk. by rewrite H2, H1. Qed.

Lemma ensureDir_outside (dir : Uri) (fs : FS) :
  above_ok fs -> segs sessionsRoot `prefix_of` segs dir ->
  same_outside fs (ensureDir dir fs).
Proof.
  intros Hok Hdir k Hk. rewrite lookup_ensureDir.
  destruct (bool_decide (k `prefix_of` segs dir)) eqn:E; [| done].
  apply bool_decide_eq_true in E. destruct (negb _); [| done]. cbn [andb].
  symmetry. apply Hok. by eapply outside_above.
Qed.

Lemma writeFile_outside (p : list string) (buf : list byte) (fs fs' : FS) :
  above_ok fs -> segs sessionsRoot `prefix_of` p ->
  writeFile p buf fs = Some fs' -> same_outside fs fs'.
Proof.
  intros Hok Hp Hw k Hk.
  assert (Hkp : k <> p) by (by intros ->).
  destruct (decide (k `prefix_of` removelast p)) as [Hpre | Hpre].
  - assert (Hk' : k `prefix_of` p).
    { etrans; [exact Hpre |]. destruct p as [| a p _] using rev_ind; [done |].
      rewrite removelast_last. by apply prefix_app_r. }
    rewrite (Hok k) by (by eapply outside_above).
    unfold writeFile in Hw.
    assert (Hc : exists fs1, createDirectory (removelast p) fs = Some fs1 /\
                             fs' = <[p := File buf]> fs1).
    { destruct (fs !! p) as [[] |];
        destruct (createDirectory (removelast p) fs) as [fs1 |];
        try done; injection Hw as <-; by exists fs1. }
    destruct Hc as (fs1 & Hc & ->). rewrite lookup_insert_ne by done.
    apply createDirectory_Some in Hc as [_ ->]. rewrite lookup_mkdirs.
    by rewrite decide_True by (by apply elem_of_inits).
  - by eapply lookup_writeFile_other.
Qed.

Lemma prefix_removelast (p : list string) : removelast p `prefix_of` p.
Proof.
  destruct p as [| a p _] using rev_ind; [done |].
  rewrite removelast_last. by apply prefix_app_r.
Qed.

Lemma materialize_entry_outside (root : Uri) (fs : FS) (entry : ManifestEntry) :
  above_ok fs ->
  segs sessionsRoot `prefix_of` segs (joinPath pf root (path entry)) ->
  same_outside fs
    (match materialize_entry pf root fs entry with inl fs' | inr fs' => fs' end).
Proof.
  intros Hok Ht. unfold materialize_entry.
  destruct (String.eqb (type entry) "directory"); [by apply ensureDir_outside |].
  set (target := joinPath pf root (path entry)) in *.
  assert (H1 : same_outside fs (ensureDir (dirname target) fs)).
  { intros k Hk. rewrite lookup_ensureDir.
    destruct (bool_decide (k `prefix_of` segs (dirname target))) eqn:E; [| done].
    apply bool_decide_eq_true in E. destruct (negb _); [| done]. cbn [andb].
    symmetry. apply Hok. apply (outside_above k (segs target)); [done | | done].
    etrans; [exact E |]. apply prefix_removelast. }
  unfold writeFileFromBase64.
  destruct (writeFile _ _ _) as [fs2 |] eqn:E; [| exact H1].
  eapply same_outside_trans; [exact H1 |].
  eapply writeFile_outside; [| exact Ht | exact E].
  by eapply same_outside_above.
Qed.

Lemma materialize_entries_outside (root : Uri) (manifest : list ManifestEntry) (fs : FS) :
  above_ok fs ->
  Forall (fun e => segs sessionsRoot `prefix_of` segs (joinPath pf root (path e))) manifest ->
  same_outside fs
    (match materialize_entries pf root manifest fs with inl (_, fs') | inr fs' => fs' end).
Proof.
  intros Hok Hall. revert fs Hok.
  induction Hall as [| e manifest He _ IH]; intros fs Hok; [done |].
  cbn [materialize_entries].
  pose proof (materialize_entry_outside root fs e Hok He) as H1.
  destruct (materialize_entry pf root fs e) as [fs1 | fs1]; [exact H1 |].
  eapply same_outside_trans; [exact H1 |]. apply IH. by eapply same_outside_above.
Qed.

(** X18.  A materialization touches nothing outside the sessions root.
    When [tmpdir] exists, the name of the new session folder is a single path
    segment, the names found in the sessions root are single segments, and the
    target of every manifest entry lies in the session folder, then whatever
    the outcome (a failed request, a failed write, success) every path that is
    not the sessions root [<tmpdir>/workspace-launch-by-link] or below it is
    afterwards exactly as it was before. *)
Theorem download_stays_in_sessions_root (serverUrl : string) (payload : StartPayload)
    (w : World) (k : list string) :
  above_ok (files w) ->
  segs sessionsRoot `prefix_of` segs (workspaceRoot payload) ->
  (forall n, is_Some (files w !! (segs sessionsRoot ++ [n])) -> is_segment pf n = true) ->
  (forall base res manifest,
      parse_url serverUrl = Some base ->
      fetch (manifest_url base payload) = Some res -> json res = JsonArray manifest ->
      Forall (fun e => segs (workspaceRoot payload)
                         `prefix_of` segs (joinPath pf (workspaceRoot payload) (path e)))
             manifest) ->
  ~ segs sessionsRoot `prefix_of` k ->
  files (downloadAndMaterializeWorkspace pf locked openFolders tmpdir unique parse_url fetch
           config_bytes settings_bytes serverUrl payload w).2 !! k
  = files w !! k.
Proof.
  intros Hok Hroot Hnames Hentries Hk.
  unfold downloadAndMaterializeWorkspace.
  destruct (parse_url serverUrl) as [base |] eqn:Eb; [| done].
  destruct (fetch _) as [res |] eqn:Ef; [| done].
  destruct (negb (ok res)); [done |].
  fold sessionsRoot. fold (workspaceRoot payload).
  set (root := workspaceRoot payload) in *.
  pose (fs1 := ensureDir sessionsRoot (files w)).
  pose (fs2 := cleanupOldSessions pf locked sessionsRoot openFolders fs1).
  pose (fs3 := ensureDir root fs2).
  fold fs1. fold fs2. fold fs3.
  assert (H1 : same_outside (files w) fs1) by (by apply ensureDir_outside).
  assert (Hok1 : above_ok fs1) by (by eapply same_outside_above).
  assert (H2 : same_outside fs1 fs2).
  { intros k' Hk'. apply cleanup_outside.
    - intros n [x Hn]. apply Hnames. exists x. rewrite <- Hn. symmetry.
      unfold fs1. rewrite lookup_ensureDir.
      rewrite bool_decide_eq_false_2; [done |].
      intros Hp%prefix_length. rewrite length_app in Hp. cbn [length] in Hp. lia.
    - intros n Hp. apply Hk'. etrans; [| exact Hp]. by apply prefix_app_r. }
  assert (Hok2 : above_ok fs2) by (by eapply same_outside_above).
  assert (H3 : same_outside fs2 fs3) by (by apply ensureDir_outside).
  assert (Hok3 : above_ok fs3) by (by eapply same_outside_above).
  assert (H03 : same_outside (files w) fs3)
    by (eapply same_outside_trans; [| exact H3]; by eapply same_outside_trans).
  destruct (json res) as [| | manifest] eqn:Ej; [done | by apply H03 |].
  specialize (Hentries base res manifest eq_refl Ef Ej).
  assert (H4 : same_outside fs3
                 (match materialize_entries pf root manifest fs3 with
                  | inl (_, fs') | inr fs' => fs' end)).
  { apply materialize_entries_outside; [done |].
    eapply Forall_impl; [exact Hentries |]. intros e He. cbn beta in *.
    by etrans. }
  destruct (materialize_entries pf root manifest fs3) as [[target fs4] | fs4];
    cbn [snd files]; [by rewrite H4, H03 |].
  assert (Hok4 : above_ok fs4) by (by eapply same_outside_above).
  set (vscodeDir := joinPath pf root ".vscode").
  assert (Hv : segs sessionsRoot `prefix_of` segs vscodeDir).
  { unfold vscodeDir. rewrite joinPath_segment by apply is_segment_vscode.
    cbn [segs]. by apply prefix_app_r. }
  set (fs5 := ensureDir vscodeDir fs4).
  assert (H5 : same_outside fs4 fs5) by (by apply ensureDir_outside).
  assert (Hok5 : above_ok fs5) by (by eapply same_outside_above).
  destruct (writeFile (segs (joinPath pf vscodeDir "workspace-launch-by-link.json")) _ fs5)
    as [fs6 |] eqn:E6; cbn [snd files]; [| by rewrite H5, H4, H03].
  assert (H6 : same_outside fs5 fs6).
  { eapply writeFile_outside; [done | | exact E6].
    rewrite joinPath_segment by apply is_segment_marker. cbn [segs].
    by apply prefix_app_r. }
  assert (Hok6 : above_ok fs6) by (by eapply same_outside_above).
  destruct (writeFile (segs (joinPath pf vscodeDir "settings.json")) _ fs6)
    as [fs7 |] eqn:E7; cbn [default]; [| by rewrite H6, H5, H4, H03].
  assert (H7 : same_outside fs6 fs7).
  { eapply writeFile_outside; [done | | exact E7].
    rewrite joinPath_segment by apply is_segment_settings. cbn [segs].
    by apply prefix_app_r. }
  by rewrite H7, H6, H5, H4, H03.
Qed.

End Contained.

(** A disk with a file that is none of the extension's business. *)
Definition home_fs : FS :=
  list_to_map [([], Dir); (["tmp"], Dir); (["home"], Dir); (["home"; "notes.txt"], File [])].

Lemma download_stays_in_sessions_root_witness :
  files (downloadAndMaterializeWorkspace Posix (fun _ => false) [] (file_uri ["tmp"]) "1-abc"
           (fun s => Some (mkUrl s "/" []))
           (fun _ => Some (mkResponse 200 (JsonArray mock_manifest)))
           (fun _ _ => []) (fun _ => [])
           "http://localhost:8787" (mkPayload (Some "alice") (Some "demo") None)
           (mkWorld home_fs [])).2 !! ["home"; "notes.txt"]
  = home_fs !! ["home"; "notes.txt"].
Proof.
  refine (download_stays_in_sessions_root Posix (fun _ => false) [] (file_uri ["tmp"]) "1-abc"
            (fun s => Some (mkUrl s "/" []))
            (fun _ => Some (mkResponse 200 (JsonArray mock_manifest)))
            (fun _ _ => []) (fun _ => [])
            "http://localhost:8787" (mkPayload (Some "alice") (Some "demo") None)
            (mkWorld home_fs []) ["home"; "notes.txt"] _ _ _ _ _).
  - intros d Hd%elem_of_inits. apply list_elem_of_In in Hd. cbn in Hd.
    destruct Hd as [<- | [<- | []]]; vm_compute; reflexivity.
  - by exists ["session-1-abc-demo"].
  - intros n [x Hx]. exfalso.
    apply elem_of_list_to_map_2, list_elem_of_In in Hx. cbn in Hx.
    destruct Hx as [Hx | [Hx | [Hx | [Hx | []]]]]; discriminate Hx.
  - intros base res manifest _ [= <-] [= <-]. unfold mock_manifest.
    repeat apply List.Forall_cons; try apply List.Forall_nil.
    + by exists ["src"].
    + by exists ["a.txt"].
    + by exists ["src"; "empty.txt"].
  - intros [r Hr]. discriminate Hr.
Defined.


End Session.

(** ** The mock collector ([tools/mock-server.js]) *)

Module MockServer.
Import Encoding Path.
Local Open Scope string_scope.
Local Open Scope list_scope.

(** A request as the handler sees it once its body has been received:
    [req.method], [parsed.pathname || '/'], the pairs of the query string,
    the text of the body ([None] when the stream fails), and [Date.now()]
    at that moment. *)
Record Request : Type :=
  mkRequest { method : string; pathname : string; query : list (string * list N);
              data : option string; now : Z }.

Section Server.
(** Parsed JSON, [JSON.parse] ([None] when it throws) and the value [{}]. *)
Variable Json : Type.
Variable JSON_parse : string -> option Json.
Variable empty_object : Json.

(** An element of [events]. *)
Record Item : Type := mkItem { type : string; body : Json; time : Z }.

(** What is sent back. *)
Inductive Reply : Type :=
| NoContent
| Manifest (entries : list Materializer.ManifestEntry)
| Events (events : list Item)
| Accepted
| BadRequest
| NotFound.

(** The status code of [res.writeHead]. *)
Definition code (r : Reply) : Z :=
  match r with
  | NoContent => 204
  | Manifest _ | Events _ | Accepted => 200
  | BadRequest => 400
  | NotFound => 404
  end.

(** [decodeBody(req)]: [data ? JSON.parse(data) : {}], rejected when the
    stream fails or the text is no JSON. *)
Definition decodeBody (req : Request) : option Json :=
  match data req with
  | Some text => if String.eqb text "" then Some empty_object else JSON_parse text
  | None => None
  end.

(** The code units of a literal of the source. *)
Definition js (s : string) : list N := toString_utf8 (list_byte_of_string s).

Definition nl : string := String (ascii_of_nat 10) "".

(** A value of [parsed.query]: the value of the key, or its values joined by
    commas when the key is repeated; [None] when the key is absent. *)
Definition query_value (name : string) (q : list (string * list N)) : option (list N) :=
  match List.filter (fun kv => String.eqb kv.1 name) q with
  | [] => None
  | kv :: rest => Some (kv.2 ++ flat_map (fun kv' => js "," ++ kv'.2) rest)
  end.

(** The text of [README.md]. *)
Definition readme (student exercise : list N) : list N :=
  js "# " ++ exercise ++ js (nl +:+ nl +:+ "学生: ") ++ student
    ++ js (nl +:+ nl +:+ "以下のファイルを編集して提出内容を同期します。").

Definition main_py : list N := js ("print('Hello, classroom!')" +:+ nl).
Definition style_css : list N := js ("body { font-family: sans-serif; }" +:+ nl).

(** [Buffer.from(text, 'utf8').toString('base64')] *)
Definition base64_of_text (text : list N) : string := toString_base64 (from_utf8 text).

(** The answer to [GET /manifest]. *)
Definition manifest (q : list (string * list N)) : list Materializer.ManifestEntry :=
  let student := default (js "unknown") (query_value "student" q) in
  let exercise := default (js "demo") (query_value "exercise" q) in
  [Materializer.mkEntry "" "directory" None;
   Materializer.mkEntry "src/" "directory" None;
   Materializer.mkEntry "README.md" "file" (Some (base64_of_text (readme student exercise)));
   Materializer.mkEntry "src/main.py" "file" (Some (base64_of_text main_py));
   Materializer.mkEntry "src/style.css" "file" (Some (base64_of_text style_css))].

(** [pathname.substring(n)] *)
Fixpoint substring_from (n : nat) (s : string) : string :=
  match n, s with
  | 0, _ => s
  | S n', String _ s' => substring_from n' s'
  | S _, "" => ""
  end.

(** The request handler: the reply and [events] afterwards. *)
Definition handle (events : list Item) (req : Request) : Reply * list Item :=
  if String.eqb (method req) "OPTIONS" then (NoContent, events)
  else if String.eqb (method req) "GET" && String.eqb (pathname req) "/manifest"
  then (Manifest (manifest (query req)), events)
  else if String.eqb (method req) "GET" && String.eqb (pathname req) "/_events"
  then (Events events, events)
  else if String.eqb (method req) "POST" && String.prefix "/event/" (pathname req)
  then match decodeBody req with
       | Some b =>
           (Accepted,
            events ++ [mkItem (substring_from (String.length "/event/") (pathname req))
                              b (now req)])
       | None => (BadRequest, events)
       end
  else (NotFound, events).

(** The server from its start: the replies and [events] after the requests
    [rs], taken in the order in which their handlers run to the end. *)
Definition serve (rs : list Request) : list Reply * list Item :=
  fold_left (fun st req => (st.1 ++ [(handle st.2 req).1], (handle st.2 req).2)) rs ([], []).

(** The item a request adds to the log, if it adds one. *)
Definition logged (req : Request) : option Item :=
  if String.eqb (method req) "POST" && String.prefix "/event/" (pathname req)
  then match decodeBody req with
       | Some b =>
           Some (mkItem (substring_from 7 (pathname req)) b (now req))
       | None => None
       end
  else None.

Lemma handle_events (events : list Item) (req : Request) :
  (handle events req).2 = events ++ option_list (logged req).
Proof.
  unfold handle, logged.
  destruct (String.eqb_spec (method req) "OPTIONS") as [E | _].
  { rewrite E. cbn. by rewrite app_nil_r. }
  destruct (String.eqb_spec (method req) "GET") as [E | _].
  { rewrite E. cbn [andb String.eqb Ascii.eqb Bool.eqb].
    destruct (String.eqb (pathname req) "/manifest"); cbn; [by rewrite app_nil_r |].
    destruct (String.eqb (pathname req) "/_events"); cbn; by rewrite app_nil_r. }
  cbn [andb].
  destruct (String.eqb (method req) "POST" && String.prefix "/event/" (pathname req));
    [| cbn; by rewrite app_nil_r].
  destruct (decodeBody req); cbn; [done | by rewrite app_nil_r].
Qed.

Lemma handle_accepted (events : list Item) (req : Request) :
  (handle events req).1 = Accepted <-> is_Some (logged req).
Proof.
  unfold handle, logged.
  destruct (String.eqb_spec (method req) "OPTIONS") as [E | _].
  { rewrite E. cbn. split; [done | by intros [? ?]]. }
  destruct (String.eqb_spec (method req) "GET") as [E | _].
  { rewrite E. cbn [andb String.eqb Ascii.eqb Bool.eqb].
    destruct (String.eqb (pathname req) "/manifest"); cbn; [split; [done | by intros [? ?]] |].
    destruct (String.eqb (pathname req) "/_events"); cbn; split; (done || by intros [? ?]). }
  cbn [andb].
  destruct (String.eqb (method req) "POST" && String.prefix "/event/" (pathname req));
    [| cbn; split; [done | by intros [? ?]]].
  destruct (decodeBody req); cbn; split; (done || eauto || by intros [? ?]).
Qed.

Lemma handle_listing (events evs : list Item) (req : Request) :
  (handle events req).1 = Events evs -> evs = events.
Proof.
  unfold handle.
  destruct (String.eqb (method req) "OPTIONS"); [done |].
  destruct (String.eqb (method req) "GET" && String.eqb (pathname req) "/manifest");
    [done |].
  destruct (String.eqb (method req) "GET" && String.eqb (pathname req) "/_events");
    [by intros [= <-] |].
  destruct (String.eqb (method req) "POST" && String.prefix "/event/" (pathname req));
    [| done].
  by destruct (decodeBody req).
Qed.

Lemma serve_snoc (rs : list Request) (req : Request) :
  serve (rs ++ [req])
  = ((serve rs).1 ++ [(handle (serve rs).2 req).1], (handle (serve rs).2 req).2).
Proof. unfold serve. by rewrite fold_left_app. Qed.

Lemma serve_events (rs : list Request) : (serve rs).2 = omap logged rs.
Proof.
  induction rs as [| req rs IH] using rev_ind; [done |].
  rewrite serve_snoc, omap_app. cbn [snd]. rewrite handle_events, IH.
  cbn. by destruct (logged req).
Qed.

Lemma serve_replies (rs : list Request) (i : nat) (req : Request) :
  rs !! i = Some req ->
  (serve rs).1 !! i = Some (handle (omap logged (take i rs)) req).1.
Proof.
  revert i. induction rs as [| r rs IH] using rev_ind; intros i Hi; [done |].
  assert (Hlen : length (serve rs).1 = length rs).
  { clear. induction rs as [| r rs IH] using rev_ind; [done |].
    rewrite serve_snoc. cbn [fst]. rewrite !length_app, IH. done. }
  rewrite serve_snoc. cbn [fst].
  destruct (decide (i < length rs)) as [Hlt | Hge].
  - rewrite lookup_app_l in Hi by done. rewrite lookup_app_l by lia.
    rewrite take_app_le by lia. by apply IH.
  - rewrite lookup_app_r in Hi by lia. rewrite lookup_app_r by lia. rewrite Hlen.
    destruct (i - length rs) as [| n] eqn:E; [| done]. injection Hi as ->.
    assert (i = length rs) as -> by lia.
    rewrite take_app_length. cbn. by rewrite serve_events.
Qed.

(** X19.  The log of the mock collector.  After any requests, [events] holds
    one item for each POST under [/event/] whose body could be read (an empty
    body counts as [{}]), in the order in which they were handled, named by
    what follows [/event/] in the path, and nothing else; a request was
    answered [200 {ok:true}] exactly when it added its item; and
    [GET /_events] answers with the items logged before it. *)
Theorem event_log (rs : list Request) :
  (serve rs).2 = omap logged rs /\
  (forall i req,
      rs !! i = Some req ->
      ((serve rs).1 !! i = Some Accepted <-> is_Some (logged req))) /\
  (forall i evs,
      (serve rs).1 !! i = Some (Events evs) -> evs = omap logged (take i rs)) /\
  (forall req, data req = Some "" -> decodeBody req = Some empty_object).
Proof.
  split; [apply serve_events | split; [| split]].
  - intros i req Hi. rewrite (serve_replies rs i req Hi). split.
    + intros [= H]. by apply handle_accepted in H.
    + intros H. f_equal. by apply handle_accepted.
  - intros i evs Hi.
    destruct (rs !! i) as [req |] eqn:E.
    + rewrite (serve_replies rs i req E) in Hi. injection Hi as Hi.
      by apply handle_listing in Hi.
    + exfalso. apply lookup_ge_None in E.
      assert (Hlen : length (serve rs).1 = length rs).
      { clear. induction rs as [| r rs IH] using rev_ind; [done |].
        rewrite serve_snoc. cbn [fst]. rewrite !length_app, IH. done. }
      apply lookup_lt_Some in Hi. lia.
  - intros req H. unfold decodeBody. by rewrite H.
Qed.

End Server.

End MockServer.

(** ** The engine and the mock collector together *)

Module Protocol.
Import Encoding Path Capture.
Local Open Scope string_scope.
Local Open Scope list_scope.

(** The values in the bodies of [postJson]. *)
Inductive Value : Type :=
| VString (s : string)
| VBool (b : bool)
| VNumber (n : Z).

(** An object, its properties in order. *)
Abbreviation Obj := (list (string * Value)).

(** The first argument of [postJson] at each call. *)
Definition endpoint (e : SyncEvent) : string :=
  match e with
  | FileSnapshot _ _ _ => "/event/fileSnapshot"
  | Create _ _ => "/event/create"
  | Delete _ => "/event/delete"
  | Rename _ _ => "/event/rename"
  | Heartbeat _ => "/event/heartbeat"
  end.

(** The second argument of [postJson] at each call. *)
Definition event_fields (e : SyncEvent) : Obj :=
  match e with
  | FileSnapshot p b c => [("path", VString p); ("isBinary", VBool b); ("content", VString c)]
  | Create p (Some d) => [("path", VString p); ("isDirectory", VBool d)]
  | Create p None => [("path", VString p)]
  | Delete p => [("path", VString p)]
  | Rename o n => [("oldPath", VString o); ("newPath", VString n)]
  | Heartbeat ts => [("ts", VNumber ts)]
  end.

(** [cfg.payload] as an object: the fields that are defined. *)
Definition identity_fields (p : Materializer.StartPayload) : Obj :=
  omap (fun kv => match kv.2 with Some v => Some (kv.1, VString v) | None => None end)
       [("student", Materializer.student p); ("exercise", Materializer.exercise p);
        ("token", Materializer.token p)].

(** Setting a property: an existing one keeps its place and takes the value,
    a new one goes to the end. *)
Definition assign (o : Obj) (kv : string * Value) : Obj :=
  if existsb (fun x => String.eqb x.1 kv.1) o
  then map (fun x => if String.eqb x.1 kv.1 then kv else x) o
  else o ++ [kv].

(** [{ ...a, ...b }] *)
Definition spread (a b : Obj) : Obj := fold_left assign b a.

(** The object that [postJson] serialises. *)
Definition post_body (e : SyncEvent) (p : Materializer.StartPayload) : Obj :=
  spread (event_fields e) (identity_fields p).

Section Post.
(** [JSON.stringify] of the client and [JSON.parse] of the server. *)
Variable JSON_stringify : Obj -> string.
Variable JSON_parse : string -> option Obj.

(** The request a server at the origin of [cfg.serverUrl] gets from
    [postJson(path, body)]: [new URL(path, cfg.serverUrl)] with a [path] that
    starts with [/] keeps only the origin of the server URL. *)
Definition post_request (e : SyncEvent) (p : Materializer.StartPayload) (t : Z)
  : MockServer.Request :=
  MockServer.mkRequest "POST" (endpoint e) [] (Some (JSON_stringify (post_body e p))) t.

(** [if (!r.ok) throw ...]: the promise of [postJson] resolves. *)
Definition resolves (r : MockServer.Reply Obj) : bool :=
  (200 <=? MockServer.code Obj r)%Z && (MockServer.code Obj r <=? 299)%Z.

(** What follows [/event/] in the endpoint. *)
Definition event_name (e : SyncEvent) : string :=
  match e with
  | FileSnapshot _ _ _ => "fileSnapshot"
  | Create _ _ => "create"
  | Delete _ => "delete"
  | Rename _ _ => "rename"
  | Heartbeat _ => "heartbeat"
  end.

(** X20.  Every event of the engine is one the mock collector takes.
    Whatever the event and the identity, when the serialised body parses back
    to the object it was made from, the collector answers the POST with a 2xx
    (so the task of the queue is done), adds one item to its log, named after
    the event, and the logged body is the fields of the event followed by the
    identity fields that are defined: no identity field replaces a field of
    the event. *)
Theorem every_event_is_logged (e : SyncEvent) (p : Materializer.StartPayload) (t : Z)
    (events : list (MockServer.Item Obj)) :
  JSON_parse (JSON_stringify (post_body e p)) = Some (post_body e p) ->
  JSON_stringify (post_body e p) <> "" ->
  MockServer.handle Obj JSON_parse [] events (post_request e p t)
  = (MockServer.Accepted Obj,
     events ++ [MockServer.mkItem Obj (event_name e) (post_body e p) t]) /\
  resolves (MockServer.handle Obj JSON_parse [] events (post_request e p t)).1 = true /\
  post_body e p = event_fields e ++ identity_fields p.
Proof.
  intros Hparse Hne.
  assert (H : MockServer.handle Obj JSON_parse [] events (post_request e p t)
              = (MockServer.Accepted Obj,
                 events ++ [MockServer.mkItem Obj (event_name e) (post_body e p) t])).
  { unfold MockServer.handle, MockServer.decodeBody, post_request.
    cbn [MockServer.method MockServer.pathname MockServer.data MockServer.now
         String.eqb Ascii.eqb Bool.eqb andb].
    destruct (String.eqb_spec (JSON_stringify (post_body e p)) ""); [done |].
    rewrite Hparse. by destruct e. }
  split; [exact H | split].
  - by rewrite H.
  - destruct p as [[s |] [x |] [k |]]; by destruct e as [? ? ? | ? [|] | ? | ? ? | ?].
Qed.

End Post.

Lemma every_event_is_logged_witness :
  MockServer.handle Obj (fun _ => Some [("path", VString "a.txt")]) [] []
    (post_request (fun _ => "{}") (Delete "a.txt") (Materializer.mkPayload None None None) 7)
  = (MockServer.Accepted Obj,
     [] ++ [MockServer.mkItem Obj "delete" [("path", VString "a.txt")] 7%Z]).
Proof.
  exact (proj1 (every_event_is_logged (fun _ => "{}")
                  (fun _ => Some [("path", VString "a.txt")])
                  (Delete "a.txt") (Materializer.mkPayload None None None) 7 []
                  eq_refl ltac:(discriminate))).
Defined.

(** *** The manifest of the mock collector on disk *)

Section Manifest.
Variable pf : Platform.

Lemma manifest_targets (root : Uri) :
  segs (Materializer.joinPath pf root "") = segs root /\
  segs (Materializer.joinPath pf root "src/") = segs root ++ ["src"] /\
  segs (Materializer.joinPath pf root "README.md") = segs root ++ ["README.md"] /\
  segs (Materializer.joinPath pf root "src/main.py") = segs root ++ ["src"; "main.py"] /\
  segs (Materializer.joinPath pf root "src/style.css") = segs root ++ ["src"; "style.css"].
Proof.
  assert (S1 : split (is_sep pf) "" = [""]) by (by destruct pf).
  assert (S2 : split (is_sep pf) "src/" = ["src"; ""])
    by (destruct pf; vm_compute; reflexivity).
  assert (S3 : split (is_sep pf) "README.md" = ["README.md"])
    by (destruct pf; vm_compute; reflexivity).
  assert (S4 : split (is_sep pf) "src/main.py" = ["src"; "main.py"])
    by (destruct pf; vm_compute; reflexivity).
  assert (S5 : split (is_sep pf) "src/style.css" = ["src"; "style.css"])
    by (destruct pf; vm_compute; reflexivity).
  unfold Materializer.joinPath. cbn [segs]. rewrite S1, S2, S3, S4, S5.
  cbn. rewrite ?rev_involutive, <- ?app_assoc. done.
Qed.

Lemma not_prefix_longer (R more : list string) (a : string) :
  ~ (R ++ a :: more) `prefix_of` R.
Proof. intros H%prefix_length. rewrite length_app in H. cbn [length] in H. lia. Qed.

Lemma removelast_snoc2 (R : list string) (a b : string) :
  removelast (R ++ [a; b]) = R ++ [a].
Proof.
  change [a; b] with ([a] ++ [b]). by rewrite app_assoc, removelast_last.
Qed.

(** Two directories and three files, as the mock collector lists them, put
    into an empty folder. *)
Lemma materialize_five (root : Uri) (fs : Materializer.FS) (c3 c4 c5 : option string) :
  (forall d, d `prefix_of` segs root -> fs !! d = Some Materializer.Dir) ->
  (forall k, segs root `prefix_of` k -> k <> segs root -> fs !! k = None) ->
  exists fs',
    Materializer.materialize_entries pf root
      [Materializer.mkEntry "" "directory" None;
       Materializer.mkEntry "src/" "directory" None;
       Materializer.mkEntry "README.md" "file" c3;
       Materializer.mkEntry "src/main.py" "file" c4;
       Materializer.mkEntry "src/style.css" "file" c5] fs = inr fs' /\
    fs' !! (segs root ++ ["src"]) = Some Materializer.Dir /\
    Materializer.readFile (segs root ++ ["README.md"]) fs'
      = Some (from_base64 (Materializer.or_empty c3)) /\
    Materializer.readFile (segs root ++ ["src"; "main.py"]) fs'
      = Some (from_base64 (Materializer.or_empty c4)) /\
    Materializer.readFile (segs root ++ ["src"; "style.css"]) fs'
      = Some (from_base64 (Materializer.or_empty c5)).
Proof.
  intros Habove Hempty.
  destruct (manifest_targets root) as (T1 & T2 & T3 & T4 & T5).
  set (R := segs root) in *.
  assert (Hbelow : forall a more, fs !! (R ++ a :: more) = None).
  { intros a more. apply Hempty; [by apply prefix_app_r |].
    intros E. apply (not_prefix_longer R more a). by rewrite E. }
  cbn [Materializer.materialize_entries].
  (* [{ path: '', type: 'directory' }] *)
  assert (E1 : Materializer.materialize_entry pf root fs
                 (Materializer.mkEntry "" "directory" None) = inr fs).
  { unfold Materializer.materialize_entry.
    cbn [Materializer.type Materializer.path String.eqb Ascii.eqb Bool.eqb].
    f_equal. apply map_eq. intros k. rewrite Session.lookup_ensureDir, T1.
    destruct (bool_decide (k `prefix_of` R)) eqn:E; [| done].
    apply bool_decide_eq_true in E. destruct (negb _); [| done].
    cbn [andb]. symmetry. by apply Habove. }
  rewrite E1.
  (* [{ path: 'src/', type: 'directory' }] *)
  set (fs2 := Materializer.ensureDir (Materializer.joinPath pf root "src/") fs).
  assert (E2 : Materializer.materialize_entry pf root fs
                 (Materializer.mkEntry "src/" "directory" None) = inr fs2)
    by reflexivity.
  rewrite E2.
  assert (L2 : forall k, fs2 !! k = if decide (k = R ++ ["src"]) then Some Materializer.Dir
                                    else fs !! k).
  { intros k. unfold fs2. rewrite Session.lookup_ensureDir, T2.
    replace (existsb (Materializer.is_file fs) (Materializer.inits (R ++ ["src"])))
      with false.
    - cbn [negb]. rewrite andb_true_r.
      destruct (decide (k = R ++ ["src"])) as [-> | Hk].
      + by rewrite bool_decide_eq_true_2.
      + destruct (bool_decide (k `prefix_of` R ++ ["src"])) eqn:E; [| done].
        apply bool_decide_eq_true, Session.prefix_snoc_inv in E as [-> | E]; [done |].
        symmetry. by apply Habove.
    - symmetry. apply not_true_is_false. intros Hex.
      apply existsb_exists in Hex as (d & Hd & Hf).
      apply list_elem_of_In, Session.elem_of_inits, Session.prefix_snoc_inv in Hd
        as [-> | Hd]; unfold Materializer.is_file in Hf.
      + by rewrite Hbelow in Hf.
      + by rewrite Habove in Hf. }
  clearbody fs2.
  (* [README.md] *)
  destruct (Session.materialize_entry_file pf root fs2 "README.md" "file" c3)
    as (fs3 & E3 & L3).
  { discriminate. }
  { rewrite T3. by destruct R. }
  { rewrite T3, L2, decide_False, Hbelow; [done |].
    intros E%app_inv_head. discriminate E. }
  { rewrite T3, removelast_last. intros d Hd. unfold Materializer.is_file.
    rewrite L2, decide_False, Habove; [done | done |].
    intros ->. by apply (not_prefix_longer R [] "src"). }
  rewrite E3. rewrite T3, removelast_last in L3. clear E3.
  (* [src/main.py] *)
  destruct (Session.materialize_entry_file pf root fs3 "src/main.py" "file" c4)
    as (fs4 & E4 & L4).
  { discriminate. }
  { rewrite T4. by destruct R. }
  { rewrite T4, L3, decide_False, decide_False, L2, decide_False, Hbelow; [done | | |].
    - intros E%app_inv_head. discriminate E.
    - apply not_prefix_longer.
    - intros E%app_inv_head. discriminate E. }
  { rewrite T4, removelast_snoc2. intros d Hd. unfold Materializer.is_file.
    rewrite L3. destruct (decide (d = R ++ ["README.md"])) as [-> | _].
    - apply prefix_app_inv, prefix_cons_inv_1 in Hd. discriminate Hd.
    - destruct (decide (d `prefix_of` R)); [done |].
      apply Session.prefix_snoc_inv in Hd as [-> | Hd]; [| done].
      by rewrite L2, decide_True. }
  rewrite E4. rewrite T4, removelast_snoc2 in L4. clear E4.
  (* [src/style.css] *)
  destruct (Session.materialize_entry_file pf root fs4 "src/style.css" "file" c5)
    as (fs5 & E5 & L5).
  { discriminate. }
  { rewrite T5. by destruct R. }
  { rewrite T5, L4, decide_False, decide_False, L3, decide_False, decide_False,
      L2, decide_False, Hbelow; [done | | | | |].
    - intros E%app_inv_head. discriminate E.
    - apply not_prefix_longer.
    - intros E%app_inv_head. discriminate E.
    - intros H%prefix_length. rewrite !length_app in H. cbn [length] in H. lia.
    - intros E%app_inv_head. discriminate E. }
  { rewrite T5, removelast_snoc2. intros d Hd. unfold Materializer.is_file.
    rewrite L4. destruct (decide (d = R ++ ["src"; "main.py"])) as [-> | _].
    - apply prefix_length in Hd. rewrite !length_app in Hd. cbn [length] in Hd. lia.
    - by rewrite decide_True. }
  rewrite E5. rewrite T5, removelast_snoc2 in L5. clear E5.
  exists fs5. split; [reflexivity |].
  unfold Materializer.readFile.
  assert (N1 : R ++ ["README.md"] <> R ++ ["src"; "style.css"])
    by (intros E%app_inv_head; discriminate E).
  assert (N2 : R ++ ["README.md"] <> R ++ ["src"; "main.py"])
    by (intros E%app_inv_head; discriminate E).
  assert (N3 : R ++ ["src"; "main.py"] <> R ++ ["src"; "style.css"])
    by (intros E%app_inv_head; discriminate E).
  assert (N4 : R ++ ["src"] <> R ++ ["src"; "style.css"])
    by (intros E%app_inv_head; discriminate E).
  assert (P1 : ~ (R ++ ["README.md"]) `prefix_of` R ++ ["src"]).
  { intros H. apply prefix_app_inv, prefix_cons_inv_1 in H. discriminate H. }
  assert (P2 : ~ (R ++ ["src"; "main.py"]) `prefix_of` R ++ ["src"]).
  { intros H%prefix_length. rewrite !length_app in H. cbn [length] in H. lia. }
  assert (P3 : ~ (R ++ ["README.md"]) `prefix_of` R) by apply not_prefix_longer.
  split; [| split; [| split]].
  - rewrite L5, decide_False, decide_True; [reflexivity | reflexivity | exact N4].
  - rewrite L5, decide_False, decide_False, L4, decide_False, decide_False,
      L3, decide_True; [reflexivity | reflexivity | exact P1 | exact N2 | exact P1 | exact N1].
  - rewrite L5, decide_False, decide_False, L4, decide_True;
      [reflexivity | reflexivity | exact P2 | exact N3].
  - rewrite L5, decide_True; reflexivity.
Qed.

(** X21.  The workspace of the mock collector as the extension writes it.
    For any query of the manifest request, materializing the answer of the
    mock collector into an empty session folder succeeds: afterwards [src] is
    a directory, and [README.md] (with the exercise and the student of the
    query, [demo] and [unknown] when it names none), [src/main.py] and
    [src/style.css] are files holding the UTF-8 bytes of the texts of the
    mock collector. *)
Theorem mock_manifest_materializes (root : Uri) (fs : Materializer.FS)
    (q : list (string * list N)) :
  (forall d, d `prefix_of` segs root -> fs !! d = Some Materializer.Dir) ->
  (forall k, segs root `prefix_of` k -> k <> segs root -> fs !! k = None) ->
  exists fs',
    Materializer.materialize_entries pf root (MockServer.manifest q) fs = inr fs' /\
    fs' !! (segs root ++ ["src"]) = Some Materializer.Dir /\
    Materializer.readFile (segs root ++ ["README.md"]) fs'
      = Some (from_utf8 (MockServer.readme
                           (default (MockServer.js "unknown")
                              (MockServer.query_value "student" q))
                           (default (MockServer.js "demo")
                              (MockServer.query_value "exercise" q)))) /\
    Materializer.readFile (segs root ++ ["src"; "main.py"]) fs'
      = Some (from_utf8 MockServer.main_py) /\
    Materializer.readFile (segs root ++ ["src"; "style.css"]) fs'
      = Some (from_utf8 MockServer.style_css).
Proof.
  intros Habove Hempty.
  destruct (materialize_five root fs
              (Some (MockServer.base64_of_text
                       (MockServer.readme
                          (default (MockServer.js "unknown")
                             (MockServer.query_value "student" q))
                          (default (MockServer.js "demo")
                             (MockServer.query_value "exercise" q)))))
              (Some (MockServer.base64_of_text MockServer.main_py))
              (Some (MockServer.base64_of_text MockServer.style_css))
              Habove Hempty) as (fs' & E & Hsrc & H3 & H4 & H5).
  exists fs'. split; [exact E |]. split; [exact Hsrc |].
  rewrite H3, H4, H5.
  change (Materializer.or_empty (Some ?c)) with c.
  unfold MockServer.base64_of_text. rewrite !from_base64_toString. done.
Qed.

End Manifest.

Definition fresh_fs : Materializer.FS :=
  list_to_map [([], Materializer.Dir); (["ws"], Materializer.Dir)].

Lemma mock_manifest_materializes_witness :
  exists fs',
    Materializer.materialize_entries Posix (file_uri ["ws"]) (MockServer.manifest []) fresh_fs
      = inr fs' /\
    Materializer.readFile (["ws"] ++ ["src"; "main.py"]) fs'
      = Some (from_utf8 MockServer.main_py).
Proof.
  destruct (mock_manifest_materializes Posix (file_uri ["ws"]) fresh_fs [])
    as (fs' & H1 & _ & _ & H2 & _).
  - intros d Hd%Session.elem_of_inits. apply list_elem_of_In in Hd. cbn in Hd.
    destruct Hd as [<- | [<- | []]]; vm_compute; reflexivity.
  - intros k [r ->] Hk. apply not_elem_of_list_to_map_1. cbn.
    intros Hin. apply list_elem_of_In in Hin. cbn in Hin.
    destruct Hin as [E | [E | []]]; [discriminate E |].
    injection E as E. destruct r; [by destruct Hk | discriminate E].
  - exists fs'. split; [exact H1 | exact H2].
Defined.

End Protocol.
